(** * Psychopism website: the node-network background animation

    A shallow embedding of the animation core of the site
    ([shared/utils/animation.ts] and the two [NodeNetworkAnimation]
    classes, with the life cycle of [core/lifecycle/Component] and
    [throttle] of [shared/utils/dom.ts] that they run under) together
    with the properties stated for it.

    Numbers.  Every JavaScript [number] of the source is read as a real
    number: [Math.sqrt], [Math.min], [Math.max], [Math.abs] and
    [Math.floor] become [sqrt], [Rmin], [Rmax], [Rabs] and [Int_part];
    comparisons are decided with [Rlt_dec] and friends; a decimal
    literal such as [0.02] is the rational it names.  Rounding, [NaN]
    and the infinities of IEEE doubles are outside this reading.

    Randomness and time.  [Math.random()] is an oracle [rnd : nat -> R]
    read through a cursor that every call advances; [performance.now()],
    [window.scrollY], [window.devicePixelRatio] and the canvas rectangle
    are arguments of the handlers that read them.

    Object identity.  [draggedNode], [nodeA] and [nodeB] are references
    into the [nodes] array; they are embedded as indices into the node
    list, so that a mutation through the reference is a mutation of the
    array element. *)

From Stdlib Require Import Reals Lra Lia ZArith List.
From stdpp Require Import gmap list.

Open Scope R_scope.

(* ================================================================== *)
(** * JavaScript number tests *)
(* ================================================================== *)

Definition num_lt (a b : R) : bool := if Rlt_dec a b then true else false.
Definition num_le (a b : R) : bool := if Rle_dec a b then true else false.
Definition num_gt (a b : R) : bool := num_lt b a.
Definition num_ge (a b : R) : bool := num_le b a.

(** [a || b] on numbers: [0] is falsy. *)
Definition num_or (a b : R) : R := if Req_dec_T a 0 then b else a.

(** [a || b] where [a] is an optional numeric property ([undefined] is falsy). *)
Definition opt_num_or (a : option R) (b : R) : R :=
  match a with
  | Some v => num_or v b
  | None => b
  end.

(** Truthiness of an optional boolean property such as [node.isDragging]. *)
Definition truthy (b : option bool) : bool :=
  match b with
  | Some true => true
  | _ => false
  end.

Lemma num_lt_true a b : num_lt a b = true <-> a < b.
Proof. unfold num_lt; destruct (Rlt_dec a b); split; auto; discriminate. Qed.

Lemma num_lt_false a b : num_lt a b = false <-> b <= a.
Proof.
  unfold num_lt; destruct (Rlt_dec a b); split; auto; try discriminate; lra.
Qed.

Lemma num_le_true a b : num_le a b = true <-> a <= b.
Proof. unfold num_le; destruct (Rle_dec a b); split; auto; discriminate. Qed.

Lemma num_le_false a b : num_le a b = false <-> b < a.
Proof.
  unfold num_le; destruct (Rle_dec a b); split; auto; try discriminate; lra.
Qed.

Lemma num_gt_true a b : num_gt a b = true <-> b < a.
Proof. apply num_lt_true. Qed.

Lemma num_gt_false a b : num_gt a b = false <-> a <= b.
Proof. apply num_lt_false. Qed.

Lemma num_ge_true a b : num_ge a b = true <-> b <= a.
Proof. apply num_le_true. Qed.

Lemma num_ge_false a b : num_ge a b = false <-> a < b.
Proof. apply num_le_false. Qed.

Lemma num_or_nonzero a b : a <> 0 -> num_or a b = a.
Proof. unfold num_or; destruct (Req_dec_T a 0); tauto. Qed.

Lemma num_or_zero b : num_or 0 b = b.
Proof. unfold num_or; destruct (Req_dec_T 0 0); tauto. Qed.

(** Case analysis on the condition of every conditional of a goal. *)
Ltac case_ifs :=
  repeat (match goal with
          | |- context [if ?c then _ else _] =>
              lazymatch c with
              | context [if _ then _ else _] => fail
              | _ => destruct c eqn:?
              end
          end; simpl).

(** Case analysis on every numeric test of a goal. *)
Ltac num_cases :=
  repeat match goal with
  | |- context [num_lt ?a ?b] =>
      let E := fresh "E" in
      destruct (num_lt a b) eqn:E;
      [apply num_lt_true in E | apply num_lt_false in E]
  | |- context [num_le ?a ?b] =>
      let E := fresh "E" in
      destruct (num_le a b) eqn:E;
      [apply num_le_true in E | apply num_le_false in E]
  end.

(* ================================================================== *)
(** * shared/constants/app.ts *)
(* ================================================================== *)

Module APP_CONFIG.
Module PERFORMANCE.
Definition FRAME_SKIP_THRESHOLD : R := 20.
End PERFORMANCE.
Module NODE_NETWORK.
Definition DEFAULT_NODE_COUNT : nat := 80.
Definition MAX_CONNECTION_DISTANCE : R := 150.
Definition CHARACTER_SPACING : R := 8.
Definition MOVEMENT_SPEED : R := 2 / 100.
Definition MAX_VELOCITY : R := 8 / 10.
Definition DIRECTION_CHANGE_PROBABILITY : R := 2 / 1000.
Module CHARACTER_UPDATE_INTERVAL.
Definition MIN : R := 2000.
Definition MAX : R := 5000.
End CHARACTER_UPDATE_INTERVAL.
End NODE_NETWORK.
End APP_CONFIG.

(** [NOISE_CHARS.length]: 26 + 26 + 10 + 29 ASCII characters and 66
    Cyrillic letters, one UTF-16 code unit each. *)
Definition NOISE_CHARS_length : Z := 157.

(* ================================================================== *)
(** * shared/utils/animation.ts: pure helpers *)
(* ================================================================== *)

Definition lerp (start end_ factor : R) : R := start + (end_ - start) * factor.

Definition clamp (value min max : R) : R := Rmin (Rmax value min) max.

Record Point := mkPoint { px : R; py : R }.

Definition distance (point1 point2 : Point) : R :=
  let dx := px point2 - px point1 in
  let dy := py point2 - py point1 in
  sqrt (dx * dx + dy * dy).

Lemma clamp_range v lo hi : lo <= hi -> lo <= clamp v lo hi <= hi.
Proof.
  intros H; unfold clamp, Rmax.
  destruct (Rle_dec v lo); unfold Rmin;
    match goal with |- context [Rle_dec ?a ?b] => destruct (Rle_dec a b) end;
    lra.
Qed.

Lemma clamp_id v lo hi : lo <= v <= hi -> clamp v lo hi = v.
Proof.
  intros H; unfold clamp, Rmax.
  destruct (Rle_dec v lo); unfold Rmin;
    match goal with |- context [Rle_dec ?a ?b] => destruct (Rle_dec a b) end;
    lra.
Qed.

Lemma clamp_inverted v lo hi : hi < lo -> clamp v lo hi = hi.
Proof.
  intros H; unfold clamp, Rmax.
  destruct (Rle_dec v lo); unfold Rmin;
    match goal with |- context [Rle_dec ?a ?b] => destruct (Rle_dec a b) end;
    lra.
Qed.

Lemma distance_nonneg p q : 0 <= distance p q.
Proof. apply sqrt_pos. Qed.

(** [sqrt v <= t] is a test on [v] itself once [t] is not negative. *)
Lemma sqrt_le_iff v t : 0 <= v -> 0 <= t -> (sqrt v <= t <-> v <= t * t).
Proof.
  intros Hv Ht; split; intros H.
  - rewrite <- (sqrt_square t Ht) in H.
    apply sqrt_le_0 in H; auto; nra.
  - rewrite <- (sqrt_square t Ht).
    apply sqrt_le_1; auto; nra.
Qed.


(* ================================================================== *)
(** * Math.random() as an oracle read through a cursor *)
(* ================================================================== *)

(** A computation that draws random numbers: it receives the position of
    the next unread draw and returns its result with the new position. *)
Definition Gen (A : Type) : Type := nat -> A * nat.

Definition ret {A : Type} (a : A) : Gen A := fun k => (a, k).

Definition bind {A B : Type} (m : Gen A) (f : A -> Gen B) : Gen B :=
  fun k => let (a, k') := m k in f a k'.

Notation "'let*' v := m 'in' f" := (bind m (fun v => f))
  (at level 10, v name, m at level 100, f at level 200, only parsing).

(** [array.forEach] with a body that may draw random numbers and that
    mutates the element it is given. *)
Fixpoint forEach {A : Type} (f : A -> Gen A) (l : list A) : Gen (list A) :=
  match l with
  | [] => ret []
  | a :: l' =>
      let* a' := f a in
      let* l'' := forEach f l' in
      ret (a' :: l'')
  end.

Lemma forEach_length {A : Type} (f : A -> Gen A) (l : list A) (k : nat) :
  length (fst (forEach f l k)) = length l.
Proof.
  revert k; induction l as [|a l IH]; intros k; simpl; auto.
  unfold bind. destruct (f a k) as [a' k1].
  specialize (IH k1). destruct (forEach f l k1) as [l'' k2]. simpl in *. lia.
Qed.

(** What [forEach] does to the element at index [i]: the body applied
    to the old element at some cursor position. *)
Lemma forEach_lookup {A : Type} (f : A -> Gen A) (l : list A) (k i : nat) (a' : A) :
  fst (forEach f l k) !! i = Some a' ->
  exists a k0, l !! i = Some a /\ a' = fst (f a k0).
Proof.
  revert k i; induction l as [|a l IH]; intros k i; simpl.
  - intros H; discriminate H.
  - unfold bind. destruct (f a k) as [b k1] eqn:Ef.
    specialize (IH k1). destruct (forEach f l k1) as [l'' k2]. simpl in *.
    destruct i as [|i]; simpl.
    + intros [= <-]. exists a, k. rewrite Ef. auto.
    + intros H. apply IH in H. exact H.
Qed.

(** A property of elements that the body preserves holds of every
    element after the loop. *)
Lemma forEach_Forall {A : Type} (P : A -> Prop) (f : A -> Gen A) (l : list A) (k : nat) :
  (forall a k0, P a -> P (fst (f a k0))) ->
  Forall P l -> Forall P (fst (forEach f l k)).
Proof.
  intros Hf; revert k; induction l as [|a l IH]; intros k Hl; simpl; auto.
  inversion Hl as [|? ? Ha Hl']; subst.
  unfold bind. pose proof (Hf a k Ha) as Hb. destruct (f a k) as [b k1].
  specialize (IH k1 Hl'). destruct (forEach f l k1) as [l'' k2].
  simpl in *. constructor; auto.
Qed.

(* ================================================================== *)
(** * Nodes, connections and the animation object *)
(* ================================================================== *)

(** A glyph of [NOISE_CHARS], named by its position in the string, or
    the fallback ['?']. *)
Inductive Glyph :=
  | NoiseChar (index : Z)
  | QuestionMark.

(** The colour [rgbToString(randomRGB())]: the string is fixed by the
    three channels. *)
Record RGB := mkRGB { r : Z; g : Z; b : Z }.

Record Node := mkNode {
  x : R;
  y : R;
  vx : R;
  vy : R;
  char : Glyph;
  color : RGB;
  lastCharUpdate : R;
  isDragging : option bool;
  originalVx : option R;
  originalVy : option R
}.

(** A node used where the source expects [{x, y}]. *)
Definition Node_point (n : Node) : Point := mkPoint (x n) (y n).
Coercion Node_point : Node >-> Point.

Definition set_x (n : Node) (v : R) : Node :=
  mkNode v (y n) (vx n) (vy n) (char n) (color n) (lastCharUpdate n)
         (isDragging n) (originalVx n) (originalVy n).
Definition set_y (n : Node) (v : R) : Node :=
  mkNode (x n) v (vx n) (vy n) (char n) (color n) (lastCharUpdate n)
         (isDragging n) (originalVx n) (originalVy n).
Definition set_vx (n : Node) (v : R) : Node :=
  mkNode (x n) (y n) v (vy n) (char n) (color n) (lastCharUpdate n)
         (isDragging n) (originalVx n) (originalVy n).
Definition set_vy (n : Node) (v : R) : Node :=
  mkNode (x n) (y n) (vx n) v (char n) (color n) (lastCharUpdate n)
         (isDragging n) (originalVx n) (originalVy n).
Definition set_char (n : Node) (c : Glyph) : Node :=
  mkNode (x n) (y n) (vx n) (vy n) c (color n) (lastCharUpdate n)
         (isDragging n) (originalVx n) (originalVy n).
Definition set_color (n : Node) (c : RGB) : Node :=
  mkNode (x n) (y n) (vx n) (vy n) (char n) c (lastCharUpdate n)
         (isDragging n) (originalVx n) (originalVy n).
Definition set_lastCharUpdate (n : Node) (t : R) : Node :=
  mkNode (x n) (y n) (vx n) (vy n) (char n) (color n) t
         (isDragging n) (originalVx n) (originalVy n).
Definition set_isDragging (n : Node) (d : option bool) : Node :=
  mkNode (x n) (y n) (vx n) (vy n) (char n) (color n) (lastCharUpdate n)
         d (originalVx n) (originalVy n).
Definition set_originalVx (n : Node) (v : option R) : Node :=
  mkNode (x n) (y n) (vx n) (vy n) (char n) (color n) (lastCharUpdate n)
         (isDragging n) v (originalVy n).
Definition set_originalVy (n : Node) (v : option R) : Node :=
  mkNode (x n) (y n) (vx n) (vy n) (char n) (color n) (lastCharUpdate n)
         (isDragging n) (originalVx n) v.

(** [nodeA] and [nodeB] are positions in the [nodes] array. *)
Record Connection := mkConnection {
  nodeA : nat;
  nodeB : nat;
  strength : R
}.

Inductive Cursor := cursor_default | cursor_grab | cursor_grabbing.

(** The backing store of the canvas element and its [style.cursor]. *)
Record Canvas := mkCanvas {
  width : R;
  height : R;
  style_cursor : Cursor
}.

(** [canvas.getBoundingClientRect()]. *)
Record DOMRect := mkDOMRect {
  rect_left : R;
  rect_top : R;
  rect_width : R;
  rect_height : R
}.

(** The fields of the [NodeNetworkAnimation] component that its
    simulation, scroll and pointer code reads or writes.  The field
    [isDragging] of the class is [this_isDragging] here, the name
    [isDragging] being the node's. *)
Record Animation := mkAnimation {
  canvas : Canvas;
  nodes : list Node;
  connections : list Connection;
  maxConnectionDistance : R;
  frameSkip : Z;
  frameSkipMax : Z;
  lastScrollY : R;
  scrollVelocity : R;
  this_isDragging : bool;
  draggedNode : option nat;
  mousePosition : Point;
  mouseOffset : Point
}.

Definition set_canvas (this : Animation) (c : Canvas) : Animation :=
  mkAnimation c (nodes this) (connections this) (maxConnectionDistance this)
    (frameSkip this) (frameSkipMax this) (lastScrollY this) (scrollVelocity this)
    (this_isDragging this) (draggedNode this) (mousePosition this) (mouseOffset this).
Definition set_nodes (this : Animation) (l : list Node) : Animation :=
  mkAnimation (canvas this) l (connections this) (maxConnectionDistance this)
    (frameSkip this) (frameSkipMax this) (lastScrollY this) (scrollVelocity this)
    (this_isDragging this) (draggedNode this) (mousePosition this) (mouseOffset this).
Definition set_connections (this : Animation) (l : list Connection) : Animation :=
  mkAnimation (canvas this) (nodes this) l (maxConnectionDistance this)
    (frameSkip this) (frameSkipMax this) (lastScrollY this) (scrollVelocity this)
    (this_isDragging this) (draggedNode this) (mousePosition this) (mouseOffset this).
Definition set_scroll (this : Animation) (skipMax : Z) (lastY velocity : R) : Animation :=
  mkAnimation (canvas this) (nodes this) (connections this) (maxConnectionDistance this)
    (frameSkip this) skipMax lastY velocity
    (this_isDragging this) (draggedNode this) (mousePosition this) (mouseOffset this).
Definition set_drag (this : Animation) (d : bool) (n : option nat) : Animation :=
  mkAnimation (canvas this) (nodes this) (connections this) (maxConnectionDistance this)
    (frameSkip this) (frameSkipMax this) (lastScrollY this) (scrollVelocity this)
    d n (mousePosition this) (mouseOffset this).
Definition set_mousePosition (this : Animation) (p : Point) : Animation :=
  mkAnimation (canvas this) (nodes this) (connections this) (maxConnectionDistance this)
    (frameSkip this) (frameSkipMax this) (lastScrollY this) (scrollVelocity this)
    (this_isDragging this) (draggedNode this) p (mouseOffset this).
Definition set_mouseOffset (this : Animation) (p : Point) : Animation :=
  mkAnimation (canvas this) (nodes this) (connections this) (maxConnectionDistance this)
    (frameSkip this) (frameSkipMax this) (lastScrollY this) (scrollVelocity this)
    (this_isDragging this) (draggedNode this) (mousePosition this) p.
Definition set_cursor (this : Animation) (c : Cursor) : Animation :=
  set_canvas this (mkCanvas (width (canvas this)) (height (canvas this)) c).

(** [this.canvas.width / (window.devicePixelRatio || 1)] and its twin. *)
Definition canvasWidth (this : Animation) (devicePixelRatio : R) : R :=
  width (canvas this) / num_or devicePixelRatio 1.
Definition canvasHeight (this : Animation) (devicePixelRatio : R) : R :=
  height (canvas this) / num_or devicePixelRatio 1.

(** A write through a node reference: the array element at that index. *)
Definition modifyNode (this : Animation) (i : nat) (f : Node -> Node) : Animation :=
  match nodes this !! i with
  | Some n => set_nodes this (<[i := f n]> (nodes this))
  | None => this
  end.

(* ================================================================== *)
(** * Connections: [updateConnections] *)
(* ================================================================== *)

(** The body of the inner loop at indices [i] and [j]: what it pushes. *)
Definition connectionBetween (nodes : list Node) (maxDistance : R) (i j : nat)
  : list Connection :=
  match (nodes !! i : option Node), (nodes !! j : option Node) with
  | Some nodeA, Some nodeB =>
      let dist := distance nodeA nodeB in
      if num_lt dist maxDistance
      then [mkConnection i j (1 - dist / maxDistance)]
      else []
  | _, _ => []
  end.

(** [for (let j = i + 1; j < this.nodes.length; j++)]. *)
Definition connectionsFrom (nodes : list Node) (maxDistance : R) (i : nat)
  : list Connection :=
  flat_map (connectionBetween nodes maxDistance i)
           (seq (i + 1) (length nodes - (i + 1))).

(** [for (let i = 0; i < this.nodes.length; i++)]. *)
Definition computeConnections (nodes : list Node) (maxDistance : R)
  : list Connection :=
  flat_map (connectionsFrom nodes maxDistance) (seq 0 (length nodes)).

Definition updateConnections (this : Animation) : Animation :=
  set_connections this
    (computeConnections (nodes this) (maxConnectionDistance this)).

(** The distance between the two nodes a connection refers to. *)
Definition connectionDistance (nodes : list Node) (c : Connection) : option R :=
  match (nodes !! nodeA c : option Node), (nodes !! nodeB c : option Node) with
  | Some a, Some b => Some (distance a b)
  | _, _ => None
  end.

Lemma In_connectionBetween nodes maxDistance i j c :
  In c (connectionBetween nodes maxDistance i j) <->
  exists a b : Node, nodes !! i = Some a /\ nodes !! j = Some b /\
              distance a b < maxDistance /\
              c = mkConnection i j (1 - distance a b / maxDistance).
Proof.
  unfold connectionBetween.
  destruct (nodes !! i) as [a|] eqn:Ei, (nodes !! j) as [b|] eqn:Ej; simpl;
    try (split; [tauto | intros (? & ? & ? & ? & _); congruence]).
  destruct (num_lt (distance a b) maxDistance) eqn:E; simpl.
  - apply num_lt_true in E. split.
    + intros [<- | []]. exists a, b. auto.
    + intros (a' & b' & [= <-] & [= <-] & _ & ->). auto.
  - apply num_lt_false in E. split; [tauto|].
    intros (a' & b' & [= <-] & [= <-] & Hlt & _). lra.
Qed.

Lemma In_computeConnections nodes maxDistance c :
  In c (computeConnections nodes maxDistance) <->
  exists (i j : nat) (a b : Node),
    (i < j)%nat /\ nodes !! i = Some a /\ nodes !! j = Some b /\
                  distance a b < maxDistance /\
                  c = mkConnection i j (1 - distance a b / maxDistance).
Proof.
  unfold computeConnections, connectionsFrom.
  rewrite in_flat_map. split.
  - intros (i & _ & Hc). apply in_flat_map in Hc as (j & Hj & Hc).
    apply in_seq in Hj. apply In_connectionBetween in Hc as (a & b & ? & ? & ? & ?).
    exists i, j, a, b. repeat split; auto. lia.
  - intros (i & j & a & b & Hij & Hi & Hj & Hd & ->).
    pose proof (lookup_lt_Some _ _ _ Hi). pose proof (lookup_lt_Some _ _ _ Hj).
    exists i. split; [apply in_seq; lia|].
    apply in_flat_map. exists j. split; [apply in_seq; lia|].
    apply In_connectionBetween. exists a, b. auto.
Qed.

(** The strength of a connection as a function of the distance. *)
Lemma strength_range d maxDistance :
  0 <= d < maxDistance -> 0 < 1 - d / maxDistance <= 1.
Proof.
  intros [H0 H1]. assert (Hm : 0 < maxDistance) by lra.
  assert (0 <= d / maxDistance < 1).
  { split.
    - apply Rmult_le_pos; [lra | left; apply Rinv_0_lt_compat; lra].
    - apply (Rmult_lt_reg_r maxDistance); [lra|]. field_simplify; lra. }
  lra.
Qed.

Lemma strength_decreasing d1 d2 maxDistance :
  0 < maxDistance -> d1 < d2 -> 1 - d2 / maxDistance < 1 - d1 / maxDistance.
Proof.
  intros Hm Hd. unfold Rdiv.
  pose proof (Rinv_0_lt_compat _ Hm). nra.
Qed.

(** Two points of one horizontal line. *)
Lemma distance_same_row (p q : Point) :
  py p = py q -> px p <= px q -> distance p q = px q - px p.
Proof.
  intros Hy Hx. unfold distance; cbv zeta.
  replace ((px q - px p) * (px q - px p) + (py q - py p) * (py q - py p))
    with ((px q - px p) * (px q - px p)) by (rewrite Hy; ring).
  apply sqrt_square; lra.
Qed.

(** A node at rest at a given place, for the scenarios. *)
Definition nodeAt (x0 y0 : R) : Node :=
  mkNode x0 y0 0 0 QuestionMark (mkRGB 0 0 0) 0 None None None.

(** An animation over given nodes on an 800 by 600 canvas, idle. *)
Definition animationOf (l : list Node) (maxDistance : R) : Animation :=
  mkAnimation (mkCanvas 800 600 cursor_default) l [] maxDistance
              0 1 0 0 false None (mkPoint 0 0) (mkPoint 0 0).

Definition threeNodes : Animation :=
  animationOf [nodeAt 0 0; nodeAt 100 0; nodeAt 400 0] 150.

(** The scenario of the specification: nodes at (0,0), (100,0), (400,0)
    and a maximal distance of 150 give the single connection between
    node 0 and node 1, of strength 1 - 100/150. *)
Example threeNodes_connections :
  connections (updateConnections threeNodes) =
  [mkConnection 0 1 (1 - 100 / 150)].
Proof.
  assert (H01 : distance (nodeAt 0 0) (nodeAt 100 0) = 100)
    by (rewrite distance_same_row; simpl; lra).
  assert (H02 : distance (nodeAt 0 0) (nodeAt 400 0) = 400)
    by (rewrite distance_same_row; simpl; lra).
  assert (H12 : distance (nodeAt 100 0) (nodeAt 400 0) = 300)
    by (rewrite distance_same_row; simpl; lra).
  assert (T1 : num_lt 100 150 = true) by (apply num_lt_true; lra).
  assert (T2 : num_lt 400 150 = false) by (apply num_lt_false; lra).
  assert (T3 : num_lt 300 150 = false) by (apply num_lt_false; lra).
  cbn [updateConnections connections set_connections threeNodes animationOf
       nodes maxConnectionDistance].
  unfold computeConnections, connectionsFrom, connectionBetween.
  cbn [length seq flat_map Nat.add Nat.sub lookup list_lookup app].
  rewrite H01, H02, H12. cbv zeta. rewrite T1, T2, T3. reflexivity.
Qed.

(** C1. After [updateConnections], for nodes A and B at indices i < j
    the connection list holds the pair (i, j) exactly when the distance
    between A and B is strictly below [maxConnectionDistance]; the
    strength stored with the pair is [1 - distance / maxConnectionDistance],
    it lies in (0, 1], and of two connections the one over the longer
    distance has the strictly smaller strength. *)
Theorem updateConnections_distance_threshold
    (this : Animation) (i j : nat) (a b : Node) :
  (i < j)%nat ->
  nodes this !! i = Some a ->
  nodes this !! j = Some b ->
  let conns := connections (updateConnections this) in
  let maxDistance := maxConnectionDistance this in
  ((exists s, In (mkConnection i j s) conns) <-> distance a b < maxDistance) /\
  (forall s, In (mkConnection i j s) conns ->
             s = 1 - distance a b / maxDistance /\ 0 < s <= 1) /\
  (forall c1 c2 d1 d2,
      In c1 conns -> In c2 conns ->
      connectionDistance (nodes this) c1 = Some d1 ->
      connectionDistance (nodes this) c2 = Some d2 ->
      d1 < d2 -> strength c2 < strength c1).
Proof.
  intros Hij Ha Hb conns maxDistance. subst conns maxDistance.
  cbn [updateConnections connections set_connections].
  repeat split.
  - intros [s Hs]. apply In_computeConnections in Hs
      as (i' & j' & a' & b' & _ & Ha' & Hb' & Hd & [= <- <- _]).
    congruence.
  - intros Hd. exists (1 - distance a b / maxConnectionDistance this).
    apply In_computeConnections. exists i, j, a, b. auto.
  - apply In_computeConnections in H
      as (i' & j' & a' & b' & _ & Ha' & Hb' & Hd & [= <- <- ->]).
    congruence.
  - apply In_computeConnections in H
      as (i' & j' & a' & b' & _ & Ha' & Hb' & Hd & [= <- <- ->]).
    assert (a' = a) by congruence. assert (b' = b) by congruence. subst.
    apply strength_range. split; [apply distance_nonneg | exact Hd].
  - apply In_computeConnections in H
      as (i' & j' & a' & b' & _ & Ha' & Hb' & Hd & [= <- <- ->]).
    assert (a' = a) by congruence. assert (b' = b) by congruence. subst.
    apply strength_range. split; [apply distance_nonneg | exact Hd].
  - intros c1 c2 d1 d2 H1 H2 D1 D2 Hlt.
    apply In_computeConnections in H1
      as (i1 & j1 & a1 & b1 & _ & Ha1 & Hb1 & Hd1 & ->).
    apply In_computeConnections in H2
      as (i2 & j2 & a2 & b2 & _ & Ha2 & Hb2 & Hd2 & ->).
    unfold connectionDistance in D1, D2. simpl in D1, D2.
    rewrite Ha1, Hb1 in D1. rewrite Ha2, Hb2 in D2.
    injection D1 as <-. injection D2 as <-. simpl.
    apply strength_decreasing; auto.
    pose proof (distance_nonneg a1 b1). lra.
Qed.

(** C1 at the scenario of the specification: the pair (node 0, node 1). *)
Lemma updateConnections_distance_threshold_witness :
  connections (updateConnections threeNodes) = [mkConnection 0 1 (1 - 100 / 150)] /\
  ((exists s, In (mkConnection 0 1 s) (connections (updateConnections threeNodes)))
   <-> distance (nodeAt 0 0) (nodeAt 100 0) < 150).
Proof.
  split.
  - exact threeNodes_connections.
  - apply (updateConnections_distance_threshold threeNodes 0 1
             (nodeAt 0 0) (nodeAt 100 0)).
    + lia.
    + reflexivity.
    + reflexivity.
Defined.

(* ================================================================== *)
(** * Canvas size and [repositionNodes] *)
(* ================================================================== *)

(** The integer part of a number, towards zero: what an attribute of
    type [unsigned long], such as [HTMLCanvasElement.width], keeps of
    the number assigned to it.  (A layout box has a width and a height
    that are not negative, and its size in device pixels is far below
    2^31: the wrap-around of the conversion and the default of the
    attribute beyond that are outside this reading.) *)
Definition IntegerPart (v : R) : Z :=
  if Rle_dec 0 v then Int_part v else (- Int_part (- v))%Z.

(** [updateCanvasSize]: the backing store is the layout box times the
    device pixel ratio, each side cut down to a whole number of
    pixels by the canvas element.  (The transform of the drawing
    context and the emitted event are not state of the simulation.) *)
Definition updateCanvasSize (this : Animation) (rect : DOMRect)
    (devicePixelRatio : R) : Animation :=
  let dpr := num_or devicePixelRatio 1 in
  set_canvas this
    (mkCanvas (IZR (IntegerPart (rect_width rect * dpr)))
              (IZR (IntegerPart (rect_height rect * dpr)))
              (style_cursor (canvas this))).

Definition repositionNodes (this : Animation) (devicePixelRatio : R) : Animation :=
  let canvasWidth := canvasWidth this devicePixelRatio in
  let canvasHeight := canvasHeight this devicePixelRatio in
  set_nodes this
    (map (fun node =>
            let node := set_x node (clamp (x node) 0 (canvasWidth - 50)) in
            set_y node (clamp (y node) 0 (canvasHeight - 50)))
         (nodes this)).

(** The body of the throttled resize handler. *)
Definition handleResize (this : Animation) (rect : DOMRect)
    (devicePixelRatio : R) : Animation :=
  repositionNodes (updateCanvasSize this rect devicePixelRatio) devicePixelRatio.

(** A node lies on the canvas. *)
Definition inBounds (w h : R) (n : Node) : Prop :=
  0 <= x n <= w /\ 0 <= y n <= h.

Lemma num_or_1_nonzero d : num_or d 1 <> 0.
Proof. unfold num_or; destruct (Req_dec_T d 0); lra. Qed.

(** The integer part lies between 0 and the number. *)
Lemma IntegerPart_range v :
  (0 <= v -> 0 <= IZR (IntegerPart v) <= v /\ v < IZR (IntegerPart v) + 1) /\
  (v <= 0 -> v <= IZR (IntegerPart v) <= 0 /\ IZR (IntegerPart v) - 1 < v).
Proof.
  unfold IntegerPart. destruct (Rle_dec 0 v) as [Hv | Hv].
  - destruct (base_Int_part v) as [Hle Hgt].
    assert (H0 : 0 <= IZR (Int_part v)).
    { apply IZR_le. assert ((-1 < Int_part v)%Z); [|lia].
      apply lt_IZR. lra. }
    split; intros H; [lra|].
    assert (v = 0) by lra. subst v. lra.
  - destruct (base_Int_part (- v)) as [Hle Hgt].
    assert (H0 : 0 <= IZR (Int_part (- v))).
    { apply IZR_le. assert ((-1 < Int_part (- v))%Z); [|lia].
      apply lt_IZR. lra. }
    rewrite opp_IZR. split; intros H; lra.
Qed.

Lemma IntegerPart_IZR z : IntegerPart (IZR z) = z.
Proof.
  assert (E : forall n, Int_part (IZR n) = n).
  { intros n. symmetry. apply Int_part_spec. generalize (IZR n). intros v. lra. }
  unfold IntegerPart. destruct (Rle_dec 0 (IZR z)); [apply E|].
  rewrite <- opp_IZR, E. lia.
Qed.

Lemma canvasWidth_updateCanvasSize this rect dpr :
  canvasWidth (updateCanvasSize this rect dpr) dpr =
  IZR (IntegerPart (rect_width rect * num_or dpr 1)) / num_or dpr 1.
Proof. reflexivity. Qed.

Lemma canvasHeight_updateCanvasSize this rect dpr :
  canvasHeight (updateCanvasSize this rect dpr) dpr =
  IZR (IntegerPart (rect_height rect * num_or dpr 1)) / num_or dpr 1.
Proof. reflexivity. Qed.

(** A side of the layout box that is a whole number of device pixels
    is the side of the canvas. *)
Lemma canvasSide_whole (side d : R) (n : Z) :
  d <> 0 -> side * d = IZR n -> IZR (IntegerPart (side * d)) / d = side.
Proof.
  intros Hd E. rewrite E, IntegerPart_IZR, <- E. field. exact Hd.
Qed.


Lemma repositionNodes_x this dpr n :
  In n (nodes (repositionNodes this dpr)) ->
  exists n0, In n0 (nodes this) /\
             x n = clamp (x n0) 0 (canvasWidth this dpr - 50) /\
             y n = clamp (y n0) 0 (canvasHeight this dpr - 50).
Proof.
  unfold repositionNodes; simpl. rewrite in_map_iff.
  intros (n0 & <- & Hn0). exists n0. auto.
Qed.

(** On a canvas at least 50 wide and high the resize handler leaves
    every node on the canvas, inside the 50 pixel margin. *)
Lemma repositionNodes_inBounds this dpr n :
  50 <= canvasWidth this dpr -> 50 <= canvasHeight this dpr ->
  In n (nodes (repositionNodes this dpr)) ->
  inBounds (canvasWidth this dpr) (canvasHeight this dpr) n.
Proof.
  intros Hw Hh Hn. apply repositionNodes_x in Hn as (n0 & _ & Hx & Hy).
  pose proof (clamp_range (x n0) 0 (canvasWidth this dpr - 50)).
  pose proof (clamp_range (y n0) 0 (canvasHeight this dpr - 50)).
  unfold inBounds. rewrite Hx, Hy. lra.
Qed.


(** A canvas whose layout box is 40 by 40. *)
Definition rect40 : DOMRect := mkDOMRect 0 0 40 40.



(* ================================================================== *)
(** * Random helpers, initialisation and the per-frame update *)
(* ================================================================== *)

Section Simulation.

(** The successive results of [Math.random()]. *)
Variable rnd : nat -> R.

Definition Math_random : Gen R := fun k => (rnd k, S k).

(** [a || m], the right operand evaluated only when [a] is falsy. *)
Definition num_or_else (a : option R) (m : Gen R) : Gen R :=
  match a with
  | Some v => if Req_dec_T v 0 then m else ret v
  | None => m
  end.

Definition randomNoiseChar : Gen Glyph :=
  if (NOISE_CHARS_length =? 0)%Z then ret QuestionMark
  else
    let* u := Math_random in
    let index := Int_part (u * IZR NOISE_CHARS_length) in
    (* [NOISE_CHARS[index]] is [undefined] outside the string *)
    ret (if ((0 <=? index) && (index <? NOISE_CHARS_length))%Z
         then NoiseChar index else QuestionMark).

Definition randomRGB : Gen RGB :=
  let* u1 := Math_random in
  let* u2 := Math_random in
  let* u3 := Math_random in
  ret (mkRGB (Int_part (u1 * 256)) (Int_part (u2 * 256)) (Int_part (u3 * 256))).

Definition randomPosition (width height : R) : Gen Point :=
  let* u1 := Math_random in
  let* u2 := Math_random in
  ret (mkPoint (u1 * width) (u2 * height)).

(** [randomVelocity]: the pair [{vx, vy}]. *)
Definition randomVelocity (maxSpeed : R) : Gen (R * R) :=
  let* u1 := Math_random in
  let* u2 := Math_random in
  ret ((u1 - 5 / 10) * maxSpeed, (u2 - 5 / 10) * maxSpeed).

(** One turn of the loop of [initializeNodes]. *)
Definition initializeNode (canvasWidth canvasHeight : R) : Gen Node :=
  let* position := randomPosition canvasWidth canvasHeight in
  let* velocity := randomVelocity (5 / 10) in
  let* c := randomNoiseChar in
  let* rgb := randomRGB in
  ret (mkNode (px position) (py position) (fst velocity) (snd velocity)
              c rgb 0 None None None).

Fixpoint initializeLoop (count : nat) (canvasWidth canvasHeight : R)
  : Gen (list Node) :=
  match count with
  | O => ret []
  | S count' =>
      let* node := initializeNode canvasWidth canvasHeight in
      let* rest := initializeLoop count' canvasWidth canvasHeight in
      ret (node :: rest)
  end.

Definition initializeNodes (this : Animation) (nodeCount : nat)
    (devicePixelRatio : R) : Gen Animation :=
  let* l := initializeLoop nodeCount (canvasWidth this devicePixelRatio)
                           (canvasHeight this devicePixelRatio) in
  ret (set_nodes this l).

(** The movement part of the body of [updateNodes], run for a node
    that is not dragged. *)
Definition moveNode (deltaTime canvasWidth canvasHeight : R) (node : Node)
  : Gen Node :=
  (* Update position *)
  let node := set_x node
      (x node + vx node * deltaTime * APP_CONFIG.NODE_NETWORK.MOVEMENT_SPEED) in
  let node := set_y node
      (y node + vy node * deltaTime * APP_CONFIG.NODE_NETWORK.MOVEMENT_SPEED) in
  (* Bounce off edges *)
  let node :=
    if num_le (x node) 0 || num_ge (x node) canvasWidth
    then let node := set_vx node (vx node * -1) in
         set_x node (clamp (x node) 0 canvasWidth)
    else node in
  let node :=
    if num_le (y node) 0 || num_ge (y node) canvasHeight
    then let node := set_vy node (vy node * -1) in
         set_y node (clamp (y node) 0 canvasHeight)
    else node in
  (* Randomly change direction *)
  let* u := Math_random in
  if num_lt u APP_CONFIG.NODE_NETWORK.DIRECTION_CHANGE_PROBABILITY
  then
    let* u1 := Math_random in
    let node := set_vx node (vx node + (u1 - 5 / 10) * (1 / 10)) in
    let* u2 := Math_random in
    let node := set_vy node (vy node + (u2 - 5 / 10) * (1 / 10)) in
    (* Limit velocity *)
    let maxVel := APP_CONFIG.NODE_NETWORK.MAX_VELOCITY in
    let node := set_vx node (clamp (vx node) (- maxVel) maxVel) in
    let node := set_vy node (clamp (vy node) (- maxVel) maxVel) in
    ret node
  else ret node.

(** The glyph part of the body, run for every node. *)
Definition refreshChar (now : R) (node : Node) : Gen Node :=
  let MIN := APP_CONFIG.NODE_NETWORK.CHARACTER_UPDATE_INTERVAL.MIN in
  let MAX := APP_CONFIG.NODE_NETWORK.CHARACTER_UPDATE_INTERVAL.MAX in
  let* u := Math_random in
  if num_gt (now - lastCharUpdate node) (MIN + u * (MAX - MIN))
  then
    let* c := randomNoiseChar in
    let node := set_char node c in
    let* rgb := randomRGB in
    let node := set_color node rgb in
    ret (set_lastCharUpdate node now)
  else ret node.

(** The body of the [forEach] of [updateNodes]. *)
Definition updateNode (deltaTime now canvasWidth canvasHeight : R) (node : Node)
  : Gen Node :=
  let* node :=
    (* Skip movement updates for dragged nodes *)
    if negb (truthy (isDragging node))
    then moveNode deltaTime canvasWidth canvasHeight node
    else ret node in
  refreshChar now node.

(** [updateNodes(deltaTime)], with [performance.now()] and the device
    pixel ratio it reads. *)
Definition updateNodes (this : Animation) (deltaTime now devicePixelRatio : R)
  : Gen Animation :=
  let canvasWidth := canvasWidth this devicePixelRatio in
  let canvasHeight := canvasHeight this devicePixelRatio in
  let* l := forEach (updateNode deltaTime now canvasWidth canvasHeight)
                    (nodes this) in
  ret (set_nodes this l).

(** ** What one update does to one node *)

(** The position after the integration step and the reflection at the
    walls, as a function of the old coordinate and velocity. *)
Definition bounced (p v deltaTime bound : R) : R :=
  let p' := p + v * deltaTime * APP_CONFIG.NODE_NETWORK.MOVEMENT_SPEED in
  if num_le p' 0 || num_ge p' bound then clamp p' 0 bound else p'.

Lemma refreshChar_motion now node k :
  let node' := fst (refreshChar now node k) in
  x node' = x node /\ y node' = y node /\ vx node' = vx node /\
  vy node' = vy node /\ isDragging node' = isDragging node /\
  originalVx node' = originalVx node /\ originalVy node' = originalVy node.
Proof.
  unfold refreshChar, bind, Math_random; cbv zeta.
  destruct (num_gt _ _); simpl; repeat split; reflexivity.
Qed.

Lemma moveNode_position dt w h node k :
  let node' := fst (moveNode dt w h node k) in
  x node' = bounced (x node) (vx node) dt w /\
  y node' = bounced (y node) (vy node) dt h /\
  isDragging node' = isDragging node /\
  originalVx node' = originalVx node /\ originalVy node' = originalVy node.
Proof.
  unfold moveNode, bounced, bind, Math_random; cbv zeta. simpl.
  case_ifs; simpl; repeat split; reflexivity.
Qed.

Lemma moveNode_velocity dt w h node k :
  let node' := fst (moveNode dt w h node k) in
  let maxVel := APP_CONFIG.NODE_NETWORK.MAX_VELOCITY in
  (Rabs (vx node') = Rabs (vx node) \/
   vx node' = clamp (vx node') (- maxVel) maxVel) /\
  (Rabs (vy node') = Rabs (vy node) \/
   vy node' = clamp (vy node') (- maxVel) maxVel).
Proof.
  unfold moveNode, bind, Math_random; cbv zeta. simpl.
  assert (Hneg : forall v, Rabs (v * -1) = Rabs v).
  { intros v. replace (v * -1) with (- v) by ring. apply Rabs_Ropp. }
  assert (Hcl : forall v m, 0 <= m -> clamp v (- m) m = clamp (clamp v (- m) m) (- m) m).
  { intros v m Hm. symmetry. apply clamp_id. apply clamp_range. lra. }
  assert (Hm : 0 <= APP_CONFIG.NODE_NETWORK.MAX_VELOCITY)
    by (unfold APP_CONFIG.NODE_NETWORK.MAX_VELOCITY; lra).
  case_ifs; simpl; split; auto.
Qed.

(** The walls reflect: in an update without a change of direction the
    velocity component of an axis is negated exactly when the
    coordinate has reached or passed a wall. *)
Lemma moveNode_reflects dt w h node k :
  num_lt (rnd k) APP_CONFIG.NODE_NETWORK.DIRECTION_CHANGE_PROBABILITY = false ->
  let x' := x node + vx node * dt * APP_CONFIG.NODE_NETWORK.MOVEMENT_SPEED in
  let y' := y node + vy node * dt * APP_CONFIG.NODE_NETWORK.MOVEMENT_SPEED in
  let node' := fst (moveNode dt w h node k) in
  vx node' = (if num_le x' 0 || num_ge x' w then - vx node else vx node) /\
  vy node' = (if num_le y' 0 || num_ge y' h then - vy node else vy node).
Proof.
  intros H. unfold moveNode, bind, Math_random; cbv zeta. simpl. rewrite H.
  case_ifs; simpl; split; ring.
Qed.

End Simulation.

(* ================================================================== *)
(** * Scroll handler *)
(* ================================================================== *)

(** The body of the throttled scroll handler, given [window.scrollY]. *)
Definition handleScroll (this : Animation) (scrollY : R) : Animation :=
  let currentScrollY := scrollY in
  let scrollVelocity := Rabs (currentScrollY - lastScrollY this) in
  (* Adjust frame skip based on scroll velocity *)
  let frameSkipMax :=
    if num_gt scrollVelocity APP_CONFIG.PERFORMANCE.FRAME_SKIP_THRESHOLD then 4%Z
    else if num_gt scrollVelocity 5 then 2%Z else 1%Z in
  set_scroll this frameSkipMax currentScrollY scrollVelocity.

(* ================================================================== *)
(** * Pointer and touch handlers *)
(* ================================================================== *)

(** The coordinates a [MouseEvent] and a [Touch] both carry. *)
Record ClientXY := mkClientXY { clientX : R; clientY : R }.
Definition MouseEvent := ClientXY.
Definition Touch := ClientXY.
Record TouchEvent := mkTouchEvent { touches : list Touch }.

Definition tolerance : R := 25.

(** [for (const node of this.nodes)]: the first node within the
    tolerance, as its index. *)
Fixpoint findNodeFrom (l : list Node) (i : nat) (x_ y_ : R) : option nat :=
  match l with
  | [] => None
  | node :: l' =>
      let dist := sqrt ((x_ - x node) ^ 2 + (y_ - y node) ^ 2) in
      if num_le dist tolerance then Some i
      else findNodeFrom l' (S i) x_ y_
  end.

Definition findNodeAtPosition (this : Animation) (x_ y_ : R) : option nat :=
  findNodeFrom (nodes this) 0 x_ y_.

(** The writes of a press handler to the node it has found. *)
Definition grabNode (clickedNode : Node) : Node :=
  (* Store original velocity to restore later *)
  let node := set_originalVx clickedNode (Some (vx clickedNode)) in
  let node := set_originalVy node (Some (vy node)) in
  let node := set_isDragging node (Some true) in
  (* Stop the node's movement while dragging *)
  let node := set_vx node 0 in
  set_vy node 0.

(** The statements of a press handler once a node has been found. *)
Definition beginDrag (this : Animation) (clickedNode : nat) (x_ y_ : R)
  : Animation :=
  match nodes this !! clickedNode with
  | Some node =>
      let this := set_drag this true (Some clickedNode) in
      let this := set_mouseOffset this (mkPoint (x_ - x node) (y_ - y node)) in
      modifyNode this clickedNode grabNode
  | None => this
  end.

Definition handleMouseDown (this : Animation) (event : MouseEvent)
    (rect : DOMRect) : Animation :=
  let x_ := clientX event - rect_left rect in
  let y_ := clientY event - rect_top rect in
  match findNodeAtPosition this x_ y_ with
  | Some clickedNode =>
      set_cursor (beginDrag this clickedNode x_ y_) cursor_grabbing
  | None => this
  end.

Definition handleTouchStart (this : Animation) (event : TouchEvent)
    (rect : DOMRect) : Animation :=
  if (length (touches event) =? 1)%nat then
    match touches event !! 0%nat with
    | None => this
    | Some touch =>
        let x_ := clientX touch - rect_left rect in
        let y_ := clientY touch - rect_top rect in
        match findNodeAtPosition this x_ y_ with
        | Some clickedNode => beginDrag this clickedNode x_ y_
        | None => this
        end
    end
  else this.

(** The dragged node follows the pointer, kept within the canvas. *)
Definition dragTo (this : Animation) (dragged : nat) (x_ y_ devicePixelRatio : R)
  : Animation :=
  let canvasWidth := canvasWidth this devicePixelRatio in
  let canvasHeight := canvasHeight this devicePixelRatio in
  modifyNode this dragged (fun node =>
    let node := set_x node (x_ - px (mouseOffset this)) in
    let node := set_y node (y_ - py (mouseOffset this)) in
    let node := set_x node (clamp (x node) 0 canvasWidth) in
    set_y node (clamp (y node) 0 canvasHeight)).

Definition handleMouseMove (this : Animation) (event : MouseEvent)
    (rect : DOMRect) (devicePixelRatio : R) : Animation :=
  let x_ := clientX event - rect_left rect in
  let y_ := clientY event - rect_top rect in
  let this := set_mousePosition this (mkPoint x_ y_) in
  match this_isDragging this, draggedNode this with
  | true, Some dragged => dragTo this dragged x_ y_ devicePixelRatio
  | _, _ =>
      (* Check if mouse is over a node for cursor feedback *)
      match findNodeAtPosition this x_ y_ with
      | Some _ => set_cursor this cursor_grab
      | None => set_cursor this cursor_default
      end
  end.

Definition handleTouchMove (this : Animation) (event : TouchEvent)
    (rect : DOMRect) (devicePixelRatio : R) : Animation :=
  match (length (touches event) =? 1)%nat, this_isDragging this,
        draggedNode this with
  | true, true, Some dragged =>
      match touches event !! 0%nat with
      | None => this
      | Some touch =>
          let x_ := clientX touch - rect_left rect in
          let y_ := clientY touch - rect_top rect in
          dragTo this dragged x_ y_ devicePixelRatio
      end
  | _, _, _ => this
  end.

Section Release.

Variable rnd : nat -> R.

(** The statements of a release handler on the dragged node. *)
Definition releaseNode (node : Node) : Gen Node :=
  (* Restore original velocity or give a small random velocity *)
  let* v := num_or_else (originalVx node)
              (let* u := Math_random rnd in ret ((u - 5 / 10) * (5 / 10))) in
  let node := set_vx node v in
  let* v := num_or_else (originalVy node)
              (let* u := Math_random rnd in ret ((u - 5 / 10) * (5 / 10))) in
  let node := set_vy node v in
  (* Clean up drag state *)
  let node := set_isDragging node (Some false) in
  let node := set_originalVx node None in
  ret (set_originalVy node None).

Definition endDrag (this : Animation) : Gen Animation :=
  let* this :=
    match this_isDragging this, draggedNode this with
    | true, Some dragged =>
        match nodes this !! dragged with
        | Some node =>
            let* node := releaseNode node in
            ret (set_nodes this (<[dragged := node]> (nodes this)))
        | None => ret this
        end
    | _, _ => ret this
    end in
  ret (set_drag this false None).

(** Listener of [mouseup] and of [mouseleave]. *)
Definition handleMouseUp (this : Animation) : Gen Animation :=
  let* this := endDrag this in
  ret (set_cursor this cursor_default).

Definition handleTouchEnd (this : Animation) : Gen Animation :=
  endDrag this.

(** [getMetrics().draggedNodeCount]. *)
Definition draggedNodeCount (this : Animation) : nat :=
  length (List.filter (fun n => truthy (isDragging n)) (nodes this)).

(** ** The callbacks of the component as events *)

(** What the browser may deliver to the component once it is set up.
    [Frame] is the part of [animate] behind the frame-skip test:
    [updateNodes(deltaTime)] followed by [updateConnections()];
    [ResizeObserved] is the callback of the [ResizeObserver]. *)
Inductive Event :=
  | Frame (deltaTime now devicePixelRatio : R)
  | Resize (rect : DOMRect) (devicePixelRatio : R)
  | ResizeObserved (rect : DOMRect) (devicePixelRatio : R)
  | Scroll (scrollY : R)
  | MouseDown (event : MouseEvent) (rect : DOMRect)
  | MouseMove (event : MouseEvent) (rect : DOMRect) (devicePixelRatio : R)
  | MouseUp
  | MouseLeave
  | TouchStart (event : TouchEvent) (rect : DOMRect)
  | TouchMove (event : TouchEvent) (rect : DOMRect) (devicePixelRatio : R)
  | TouchEnd.

Definition dispatch (this : Animation) (e : Event) : Gen Animation :=
  match e with
  | Frame deltaTime now dpr =>
      let* this := updateNodes rnd this deltaTime now dpr in
      ret (updateConnections this)
  | Resize rect dpr => ret (handleResize this rect dpr)
  | ResizeObserved rect dpr => ret (updateCanvasSize this rect dpr)
  | Scroll scrollY => ret (handleScroll this scrollY)
  | MouseDown event rect => ret (handleMouseDown this event rect)
  | MouseMove event rect dpr => ret (handleMouseMove this event rect dpr)
  | MouseUp => handleMouseUp this
  | MouseLeave => handleMouseUp this
  | TouchStart event rect => ret (handleTouchStart this event rect)
  | TouchMove event rect dpr => ret (handleTouchMove this event rect dpr)
  | TouchEnd => handleTouchEnd this
  end.

(** The callbacks run to completion one after the other. *)
Fixpoint run (this : Animation) (events : list Event) : Gen Animation :=
  match events with
  | [] => ret this
  | e :: events' =>
      let* this := dispatch this e in
      run this events'
  end.

End Release.

(* ================================================================== *)
(** * Evaluating numeric tests on concrete inputs *)
(* ================================================================== *)

Ltac unfold_config :=
  unfold APP_CONFIG.PERFORMANCE.FRAME_SKIP_THRESHOLD,
    APP_CONFIG.NODE_NETWORK.MAX_CONNECTION_DISTANCE,
    APP_CONFIG.NODE_NETWORK.CHARACTER_SPACING,
    APP_CONFIG.NODE_NETWORK.MOVEMENT_SPEED,
    APP_CONFIG.NODE_NETWORK.MAX_VELOCITY,
    APP_CONFIG.NODE_NETWORK.DIRECTION_CHANGE_PROBABILITY,
    APP_CONFIG.NODE_NETWORK.CHARACTER_UPDATE_INTERVAL.MIN,
    APP_CONFIG.NODE_NETWORK.CHARACTER_UPDATE_INTERVAL.MAX, tolerance in *.

(** Replaces each test between concrete numbers by its truth value. *)
Ltac num_decide :=
  unfold num_gt, num_ge; unfold_config;
  repeat match goal with
  | |- context [num_lt ?a ?b] =>
      first [ rewrite (proj2 (num_lt_true a b)) by lra
            | rewrite (proj2 (num_lt_false a b)) by lra ]
  | |- context [num_le ?a ?b] =>
      first [ rewrite (proj2 (num_le_true a b)) by lra
            | rewrite (proj2 (num_le_false a b)) by lra ]
  | |- context [num_or ?a ?b] =>
      first [ rewrite (num_or_nonzero a b) by lra
            | replace (num_or a b) with b
                by (symmetry; replace a with 0 by lra; apply num_or_zero) ]
  end.

Lemma Rabs_eval_pos v : 0 <= v -> Rabs v = v.
Proof. intros; apply Rabs_pos_eq; auto. Qed.

(* ================================================================== *)
(** * The frame-skip threshold (C7) *)
(* ================================================================== *)

(** C7. The scroll handler measures the scroll velocity as the absolute
    difference of two successive [scrollY] samples and sets the
    frame-skip threshold to 4 above 20, to 2 above 5 and up to 20, and
    to 1 up to 5; the threshold is monotone in the velocity. *)
Theorem handleScroll_frameSkipMax_step (this this' : Animation) (scrollY scrollY' : R) :
  let v := scrollVelocity (handleScroll this scrollY) in
  let v' := scrollVelocity (handleScroll this' scrollY') in
  let threshold := frameSkipMax (handleScroll this scrollY) in
  let threshold' := frameSkipMax (handleScroll this' scrollY') in
  v = Rabs (scrollY - lastScrollY this) /\
  (v > 20 -> threshold = 4%Z) /\
  (5 < v <= 20 -> threshold = 2%Z) /\
  (v <= 5 -> threshold = 1%Z) /\
  (v <= v' -> (threshold <= threshold')%Z).
Proof.
  unfold handleScroll; cbv zeta; simpl.
  unfold num_gt, APP_CONFIG.PERFORMANCE.FRAME_SKIP_THRESHOLD.
  split; [reflexivity|].
  num_cases; repeat split; intros; try reflexivity; try lra; try lia.
Qed.

(** C7 on a page at rest at the top that is scrolled by 30 pixels. *)
Lemma handleScroll_frameSkipMax_step_witness :
  frameSkipMax (handleScroll threeNodes 30) = 4%Z /\
  frameSkipMax (handleScroll threeNodes 10) = 2%Z /\
  frameSkipMax (handleScroll threeNodes 5) = 1%Z /\
  (frameSkipMax (handleScroll threeNodes 5) <=
   frameSkipMax (handleScroll threeNodes 10))%Z.
Proof.
  assert (A : forall s, 0 <= s ->
            scrollVelocity (handleScroll threeNodes s) = s).
  { intros s Hs. simpl. rewrite Rabs_eval_pos; lra. }
  split; [|split; [|split]].
  - apply (handleScroll_frameSkipMax_step threeNodes threeNodes 30 30).
    rewrite A; lra.
  - apply (handleScroll_frameSkipMax_step threeNodes threeNodes 10 10).
    rewrite A; lra.
  - apply (handleScroll_frameSkipMax_step threeNodes threeNodes 5 5).
    rewrite A; lra.
  - apply (handleScroll_frameSkipMax_step threeNodes threeNodes 5 10).
    rewrite !A; lra.
Defined.

(* ================================================================== *)
(** * The per-frame update: positions and velocities (C2, C3, C4) *)
(* ================================================================== *)

Definition velocityBounded (n : Node) : Prop :=
  Rabs (vx n) <= APP_CONFIG.NODE_NETWORK.MAX_VELOCITY /\
  Rabs (vy n) <= APP_CONFIG.NODE_NETWORK.MAX_VELOCITY.

(** The velocity saved by a press handler is within the bound too. *)
Definition savedVelocityBounded (n : Node) : Prop :=
  (forall v, originalVx n = Some v ->
             Rabs v <= APP_CONFIG.NODE_NETWORK.MAX_VELOCITY) /\
  (forall v, originalVy n = Some v ->
             Rabs v <= APP_CONFIG.NODE_NETWORK.MAX_VELOCITY).

Definition velocityInvariant (n : Node) : Prop :=
  velocityBounded n /\ savedVelocityBounded n.

Lemma bounced_range p v dt bound :
  0 <= bound -> 0 <= bounced p v dt bound <= bound.
Proof.
  intros Hb. unfold bounced; cbv zeta.
  destruct (num_le _ 0 || num_ge _ bound) eqn:E.
  - apply clamp_range; exact Hb.
  - apply orb_false_iff in E as [E1 E2].
    apply num_le_false in E1. apply num_ge_false in E2. lra.
Qed.

Lemma bounced_zero_deltaTime p v bound :
  0 <= p <= bound -> bounced p v 0 bound = p.
Proof.
  intros Hp. unfold bounced; cbv zeta.
  replace (p + v * 0 * APP_CONFIG.NODE_NETWORK.MOVEMENT_SPEED) with p by ring.
  destruct (num_le p 0 || num_ge p bound); auto. apply clamp_id; exact Hp.
Qed.

Lemma clamp_abs v m : 0 <= m -> Rabs (clamp v (- m) m) <= m.
Proof.
  intros Hm. pose proof (clamp_range v (- m) m). apply Rabs_le. lra.
Qed.

Section UpdateProperties.

Variable rnd : nat -> R.

Lemma fst_bind {A B : Type} (m : Gen A) (f : A -> Gen B) (k : nat) :
  bind m f k = f (fst (m k)) (snd (m k)).
Proof. unfold bind. destruct (m k); reflexivity. Qed.

(** What [updateNodes] does to one node. *)
Lemma updateNode_spec dt now w h node k :
  let node' := fst (updateNode rnd dt now w h node k) in
  let maxVel := APP_CONFIG.NODE_NETWORK.MAX_VELOCITY in
  isDragging node' = isDragging node /\
  originalVx node' = originalVx node /\
  originalVy node' = originalVy node /\
  (if truthy (isDragging node)
   then x node' = x node /\ y node' = y node /\
        vx node' = vx node /\ vy node' = vy node
   else x node' = bounced (x node) (vx node) dt w /\
        y node' = bounced (y node) (vy node) dt h /\
        (Rabs (vx node') = Rabs (vx node) \/
         vx node' = clamp (vx node') (- maxVel) maxVel) /\
        (Rabs (vy node') = Rabs (vy node) \/
         vy node' = clamp (vy node') (- maxVel) maxVel)).
Proof.
  cbv zeta. unfold updateNode. rewrite fst_bind.
  destruct (truthy (isDragging node)) eqn:Ed; cbn [negb].
  - pose proof (refreshChar_motion rnd now node k) as
      (? & ? & ? & ? & ? & ? & ?). simpl. repeat split; assumption.
  - pose proof (moveNode_position rnd dt w h node k) as (Px & Py & Pd & Po & Po').
    pose proof (moveNode_velocity rnd dt w h node k) as (Vx & Vy).
    cbv zeta in *.
    pose proof (refreshChar_motion rnd now
                  (fst (moveNode rnd dt w h node k))
                  (snd (moveNode rnd dt w h node k)))
      as (Rx & Ry & Rvx & Rvy & Rd & Ro & Ro').
    cbv zeta in *.
    rewrite Rx, Ry, Rvx, Rvy, Rd, Ro, Ro'. repeat split; assumption.
Qed.

Lemma updateNode_inBounds dt now w h node k :
  inBounds w h node -> inBounds w h (fst (updateNode rnd dt now w h node k)).
Proof.
  intros [Hx Hy].
  pose proof (updateNode_spec dt now w h node k) as (_ & _ & _ & H).
  cbv zeta in H. unfold inBounds.
  destruct (truthy (isDragging node)).
  - destruct H as (-> & -> & _). auto.
  - destruct H as (-> & -> & _). split; apply bounced_range; lra.
Qed.

Lemma updateNode_velocityInvariant dt now w h node k :
  velocityInvariant node ->
  velocityInvariant (fst (updateNode rnd dt now w h node k)).
Proof.
  intros [[Hx Hy] [Sx Sy]].
  pose proof (updateNode_spec dt now w h node k) as (_ & Ox & Oy & H).
  cbv zeta in H.
  assert (Hm : 0 <= APP_CONFIG.NODE_NETWORK.MAX_VELOCITY)
    by (unfold APP_CONFIG.NODE_NETWORK.MAX_VELOCITY; lra).
  split; [|split; [rewrite Ox | rewrite Oy]; assumption].
  unfold velocityBounded.
  destruct (truthy (isDragging node)).
  - destruct H as (_ & _ & -> & ->). auto.
  - destruct H as (_ & _ & [Vx | Vx] & [Vy | Vy]);
      split; try (rewrite Vx; assumption); try (rewrite Vy; assumption);
      try (rewrite Vx; apply clamp_abs; exact Hm);
      try (rewrite Vy; apply clamp_abs; exact Hm).
Qed.

Lemma updateNode_velocityBounded dt now w h node k :
  velocityBounded node ->
  velocityBounded (fst (updateNode rnd dt now w h node k)).
Proof.
  intros Hv.
  pose proof (updateNode_spec dt now w h node k) as (_ & _ & _ & H).
  cbv zeta in H.
  assert (Hm : 0 <= APP_CONFIG.NODE_NETWORK.MAX_VELOCITY)
    by (unfold APP_CONFIG.NODE_NETWORK.MAX_VELOCITY; lra).
  destruct Hv as [Hx Hy]. unfold velocityBounded.
  destruct (truthy (isDragging node)).
  - destruct H as (_ & _ & -> & ->). auto.
  - destruct H as (_ & _ & [Vx | Vx] & [Vy | Vy]);
      split; try (rewrite Vx; assumption); try (rewrite Vy; assumption);
      try (rewrite Vx; apply clamp_abs; exact Hm);
      try (rewrite Vy; apply clamp_abs; exact Hm).
Qed.

(** A projection of the elements that the body leaves alone is left
    alone by the loop. *)
Lemma forEach_map_preserved {A B : Type} (P : A -> Prop) (proj : A -> B)
    (f : A -> Gen A) (l : list A) (k : nat) :
  (forall a k0, P a -> proj (fst (f a k0)) = proj a) ->
  Forall P l -> map proj (fst (forEach f l k)) = map proj l.
Proof.
  intros Hf; revert k; induction l as [|a l IH]; intros k Hl; simpl; auto.
  inversion Hl as [|? ? Ha Hl']; subst.
  unfold bind. pose proof (Hf a k Ha) as Hb. destruct (f a k) as [b' k1].
  specialize (IH k1 Hl'). destruct (forEach f l k1) as [l'' k2].
  simpl in *. congruence.
Qed.

Lemma updateNodes_nodes this dt now dpr k :
  nodes (fst (updateNodes rnd this dt now dpr k)) =
  fst (forEach (updateNode rnd dt now (canvasWidth this dpr) (canvasHeight this dpr))
               (nodes this) k).
Proof.
  unfold updateNodes; cbv zeta. rewrite fst_bind. reflexivity.
Qed.

(** The per-frame update keeps every node on the canvas. *)
Lemma updateNodes_inBounds this dt now dpr k :
  let w := canvasWidth this dpr in
  let h := canvasHeight this dpr in
  Forall (inBounds w h) (nodes this) ->
  Forall (inBounds w h) (nodes (fst (updateNodes rnd this dt now dpr k))).
Proof.
  cbv zeta. intros H. rewrite updateNodes_nodes.
  apply forEach_Forall; auto. intros a k0. apply updateNode_inBounds.
Qed.

End UpdateProperties.

(* ================================================================== *)
(** * Time deltas that are zero or negative (C4) *)
(* ================================================================== *)

(** A node at (100, 300) drifting to the right, with [vx = 0.5]. *)
Definition driftingNode : Animation :=
  animationOf [mkNode 100 300 (1 / 2) 0 QuestionMark (mkRGB 0 0 0) 0 None None None]
              150.

(** Every draw of the oracle is one half: no change of direction. *)
Definition rndHalf : nat -> R := fun _ => 1 / 2.

(** C4, refuted as stated: a time delta of -100 is integrated as it is,
    and moves the node from x = 100 back to x = 99. *)
Lemma updateNodes_negative_deltaTime_moves :
  -100 <= 0 /\
  map Node_point (nodes driftingNode) = [mkPoint 100 300] /\
  map Node_point (nodes (fst (updateNodes rndHalf driftingNode (-100) 0 1 0%nat)))
  = [mkPoint 99 300] /\
  map Node_point (nodes (fst (updateNodes rndHalf driftingNode (-100) 0 1 0%nat)))
  <> map Node_point (nodes driftingNode).
Proof.
  assert (E : map Node_point
                (nodes (fst (updateNodes rndHalf driftingNode (-100) 0 1 0%nat)))
              = [mkPoint 99 300]).
  { rewrite updateNodes_nodes. simpl nodes. unfold canvasWidth, canvasHeight.
    simpl width. simpl height. cbn [forEach]. rewrite !fst_bind. simpl.
    pose proof (updateNode_spec rndHalf (-100) 0 (800 / num_or 1 1)
                  (600 / num_or 1 1)
                  (mkNode 100 300 (1 / 2) 0 QuestionMark (mkRGB 0 0 0) 0
                          None None None) 0%nat) as (_ & _ & _ & Hx & Hy & _).
    simpl in Hx, Hy. unfold Node_point. rewrite Hx, Hy.
    unfold bounced; cbv zeta. num_decide. simpl. num_decide. simpl.
    f_equal. f_equal; lra. }
  split; [lra|]. split; [reflexivity|]. split; [exact E|].
  rewrite E. simpl. intros [= H]. lra.
Qed.

(** C4 as amended.  With a time delta of zero the update leaves the
    position of every node that is on the canvas unchanged.  A negative
    time delta is not clamped: whatever the time delta, a node that is
    not dragged goes to its old position plus velocity times time delta
    times the movement speed, reflected at the walls, and a dragged node
    stays where it is. *)
Theorem updateNodes_zero_deltaTime (rnd : nat -> R) (this : Animation)
    (deltaTime now dpr : R) (k : nat) :
  let w := canvasWidth this dpr in
  let h := canvasHeight this dpr in
  (Forall (inBounds w h) (nodes this) ->
   map Node_point (nodes (fst (updateNodes rnd this 0 now dpr k)))
   = map Node_point (nodes this)) /\
  (forall i node',
      nodes (fst (updateNodes rnd this deltaTime now dpr k)) !! i = Some node' ->
      exists node, nodes this !! i = Some node /\
        if truthy (isDragging node)
        then x node' = x node /\ y node' = y node
        else x node' = bounced (x node) (vx node) deltaTime w /\
             y node' = bounced (y node) (vy node) deltaTime h).
Proof.
  cbv zeta. split.
  - intros H. rewrite updateNodes_nodes.
    apply forEach_map_preserved with (P := inBounds (canvasWidth this dpr)
                                                    (canvasHeight this dpr)); auto.
    intros a k0 [Hx Hy].
    pose proof (updateNode_spec rnd 0 now (canvasWidth this dpr)
                  (canvasHeight this dpr) a k0) as (_ & _ & _ & Hs).
    cbv zeta in Hs. unfold Node_point.
    destruct (truthy (isDragging a)).
    + destruct Hs as (-> & -> & _). reflexivity.
    + destruct Hs as (-> & -> & _).
      rewrite !bounced_zero_deltaTime by assumption. reflexivity.
  - intros i node' Hi. rewrite updateNodes_nodes in Hi.
    apply forEach_lookup in Hi as (node & k0 & Hn & ->).
    exists node. split; [exact Hn|].
    pose proof (updateNode_spec rnd deltaTime now (canvasWidth this dpr)
                  (canvasHeight this dpr) node k0) as (_ & _ & _ & Hs).
    cbv zeta in Hs.
    destruct (truthy (isDragging node)); tauto.
Qed.

(** C4 as amended, on the drifting node. *)
Lemma updateNodes_zero_deltaTime_witness :
  map Node_point (nodes (fst (updateNodes rndHalf driftingNode 0 0 1 0%nat)))
  = map Node_point (nodes driftingNode).
Proof.
  apply (updateNodes_zero_deltaTime rndHalf driftingNode 0 0 1 0%nat).
  simpl. constructor; [|constructor].
  unfold inBounds, canvasWidth, canvasHeight. simpl. num_decide. lra.
Defined.

(* ================================================================== *)
(** * Nodes stay on the canvas (C2) *)
(* ================================================================== *)

(** C2 on a canvas laid out 40 by 40 and a node at (10, 10): the node
    is on the canvas before the resize handler runs, and at (-10, -10),
    off the canvas, after it. *)
Theorem handleResize_small_canvas_off_canvas :
  let before := animationOf [nodeAt 10 10] 150 in
  let after := handleResize before rect40 1 in
  canvasWidth after 1 = 40 /\ canvasHeight after 1 = 40 /\
  Forall (inBounds 40 40) (nodes before) /\
  map Node_point (nodes after) = [mkPoint (-10) (-10)] /\
  ~ Forall (inBounds 40 40) (nodes after).
Proof.
  cbv zeta.
  assert (Hside : 40 * num_or 1 1 = IZR 40)
    by (rewrite (num_or_nonzero 1 1) by lra; lra).
  assert (Cw : canvasWidth
                 (updateCanvasSize (animationOf [nodeAt 10 10] 150) rect40 1) 1
               = 40).
  { rewrite canvasWidth_updateCanvasSize.
    apply (canvasSide_whole _ _ 40); [apply num_or_1_nonzero | exact Hside]. }
  assert (Ch : canvasHeight
                 (updateCanvasSize (animationOf [nodeAt 10 10] 150) rect40 1) 1
               = 40).
  { rewrite canvasHeight_updateCanvasSize.
    apply (canvasSide_whole _ _ 40); [apply num_or_1_nonzero | exact Hside]. }
  assert (E : map Node_point (nodes (handleResize (animationOf [nodeAt 10 10] 150) rect40 1))
              = [mkPoint (-10) (-10)]).
  { unfold handleResize, repositionNodes; cbv zeta.
    rewrite Cw, Ch.
    simpl. unfold Node_point; simpl.
    rewrite !clamp_inverted by lra. f_equal. f_equal; lra. }
  split; [|split; [|split; [|split]]].
  - exact Cw.
  - exact Ch.
  - constructor; [|constructor]. unfold inBounds; simpl. lra.
  - exact E.
  - intros H.
    destruct (nodes (handleResize (animationOf [nodeAt 10 10] 150) rect40 1))
      as [|n l]; [discriminate E|].
    inversion H as [|? ? [Hx _] _]; subst.
    unfold Node_point in E. simpl in E. injection E as Ex _ _. lra.
Qed.

(** Apart from the resize handler on a canvas under 50 pixels, the
    bound holds: the per-frame update keeps nodes on the canvas
    ([updateNodes_inBounds]), and so does the resize handler when the
    canvas that it has resized is at least 50 wide and high. *)
Lemma handleResize_inBounds this rect dpr :
  let resized := handleResize this rect dpr in
  50 <= canvasWidth resized dpr -> 50 <= canvasHeight resized dpr ->
  Forall (inBounds (canvasWidth resized dpr) (canvasHeight resized dpr))
         (nodes resized).
Proof.
  cbv zeta. intros Hw Hh. apply Forall_forall. intros n Hn%list_elem_of_In.
  unfold handleResize in *.
  apply repositionNodes_inBounds in Hn; assumption.
Qed.

(* ================================================================== *)
(** * Velocities stay within the bound (C3) *)
(* ================================================================== *)

Lemma modifyNode_Forall (P : Node -> Prop) this i f :
  (forall n, P n -> P (f n)) ->
  Forall P (nodes this) -> Forall P (nodes (modifyNode this i f)).
Proof.
  intros Hf H. unfold modifyNode.
  destruct (nodes this !! i) as [n|] eqn:E; [|exact H].
  simpl. apply Forall_insert; [exact H|].
  apply Hf. eapply Forall_lookup_1; eauto.
Qed.

Lemma Rabs_0_le_maxVelocity : Rabs 0 <= APP_CONFIG.NODE_NETWORK.MAX_VELOCITY.
Proof. rewrite Rabs_R0. unfold APP_CONFIG.NODE_NETWORK.MAX_VELOCITY. lra. Qed.

Lemma beginDrag_velocityInvariant this i x_ y_ :
  Forall velocityInvariant (nodes this) ->
  Forall velocityInvariant (nodes (beginDrag this i x_ y_)).
Proof.
  intros H. unfold beginDrag.
  destruct (nodes this !! i) as [n|] eqn:E; [|exact H].
  apply modifyNode_Forall; [|exact H].
  intros m [[Hx Hy] _]. repeat split; simpl;
    try apply Rabs_0_le_maxVelocity; intros v [= <-]; assumption.
Qed.

Lemma dragTo_velocityInvariant this i x_ y_ dpr :
  Forall velocityInvariant (nodes this) ->
  Forall velocityInvariant (nodes (dragTo this i x_ y_ dpr)).
Proof.
  intros H. unfold dragTo; cbv zeta.
  apply modifyNode_Forall; [|exact H].
  intros m [[Hx Hy] [Sx Sy]]. repeat split; simpl; assumption.
Qed.

Lemma repositionNodes_velocityInvariant this dpr :
  Forall velocityInvariant (nodes this) ->
  Forall velocityInvariant (nodes (repositionNodes this dpr)).
Proof.
  intros H. unfold repositionNodes; simpl.
  apply Forall_fmap. eapply Forall_impl; [exact H|].
  intros m [[Hx Hy] [Sx Sy]]. repeat split; simpl; assumption.
Qed.

Section VelocityBound.

Variable rnd : nat -> R.
Hypothesis rnd_range : forall k, 0 <= rnd k < 1.

(** A fresh velocity component [(Math.random() - 0.5) * maxSpeed] with
    [maxSpeed = 0.5]. *)
Lemma fresh_component_bounded k :
  Rabs ((rnd k - 5 / 10) * (5 / 10)) <= APP_CONFIG.NODE_NETWORK.MAX_VELOCITY.
Proof.
  pose proof (rnd_range k). unfold APP_CONFIG.NODE_NETWORK.MAX_VELOCITY.
  apply Rabs_le. lra.
Qed.

Lemma num_or_else_fresh_bounded (saved : option R) k :
  (forall v, saved = Some v -> Rabs v <= APP_CONFIG.NODE_NETWORK.MAX_VELOCITY) ->
  Rabs (fst (num_or_else saved
               (let* u := Math_random rnd in ret ((u - 5 / 10) * (5 / 10))) k))
  <= APP_CONFIG.NODE_NETWORK.MAX_VELOCITY.
Proof.
  intros H. unfold num_or_else.
  destruct saved as [v|]; [destruct (Req_dec_T v 0)|]; simpl;
    auto using fresh_component_bounded.
Qed.

Lemma releaseNode_velocityInvariant node k :
  velocityInvariant node -> velocityInvariant (fst (releaseNode rnd node k)).
Proof.
  intros [_ [Sx Sy]]. unfold releaseNode. rewrite !fst_bind. simpl.
  repeat split; simpl; try discriminate;
    apply num_or_else_fresh_bounded; assumption.
Qed.

Lemma endDrag_velocityInvariant this k :
  Forall velocityInvariant (nodes this) ->
  Forall velocityInvariant (nodes (fst (endDrag rnd this k))).
Proof.
  intros H. unfold endDrag. rewrite fst_bind. simpl.
  destruct (this_isDragging this); [|exact H].
  destruct (draggedNode this) as [i|]; [|exact H].
  destruct (nodes this !! i) as [n|] eqn:E; [|exact H].
  rewrite fst_bind. simpl. apply Forall_insert; [exact H|].
  apply releaseNode_velocityInvariant. eapply Forall_lookup_1; eauto.
Qed.

Lemma initializeLoop_velocityInvariant count w h k :
  Forall velocityInvariant (fst (initializeLoop rnd count w h k)).
Proof.
  revert k; induction count as [|count IH]; intros k; simpl.
  - constructor.
  - rewrite !fst_bind. simpl. constructor; [|apply IH].
    repeat split; simpl; try discriminate; apply fresh_component_bounded.
Qed.

Lemma dispatch_velocityInvariant this e k :
  Forall velocityInvariant (nodes this) ->
  Forall velocityInvariant (nodes (fst (dispatch rnd this e k))).
Proof.
  intros H. destruct e; cbn [dispatch]; try exact H.
  - rewrite fst_bind. simpl. rewrite updateNodes_nodes.
    apply forEach_Forall; [|exact H].
    intros a k0. apply updateNode_velocityInvariant.
  - unfold handleResize. apply repositionNodes_velocityInvariant. exact H.
  - unfold handleMouseDown; cbv zeta.
    destruct (findNodeAtPosition _ _ _); [|exact H].
    simpl. apply beginDrag_velocityInvariant. exact H.
  - unfold handleMouseMove; cbv zeta. simpl.
    destruct (this_isDragging this), (draggedNode this);
      try (destruct (findNodeAtPosition _ _ _); exact H).
    apply dragTo_velocityInvariant. exact H.
  - unfold handleMouseUp. rewrite fst_bind. simpl.
    apply endDrag_velocityInvariant. exact H.
  - unfold handleMouseUp. rewrite fst_bind. simpl.
    apply endDrag_velocityInvariant. exact H.
  - unfold handleTouchStart.
    destruct (length (touches event) =? 1)%nat; [|exact H].
    destruct (touches event !! 0%nat); [|exact H]. cbv zeta.
    destruct (findNodeAtPosition _ _ _); [|exact H].
    apply beginDrag_velocityInvariant. exact H.
  - unfold handleTouchMove.
    destruct (length (touches event) =? 1)%nat, (this_isDragging this),
      (draggedNode this); try exact H.
    destruct (touches event !! 0%nat); [|exact H]. cbv zeta.
    apply dragTo_velocityInvariant. exact H.
  - apply endDrag_velocityInvariant. exact H.
Qed.

Lemma run_velocityInvariant events this k :
  Forall velocityInvariant (nodes this) ->
  Forall velocityInvariant (nodes (fst (run rnd this events k))).
Proof.
  revert this k; induction events as [|e events IH]; intros this k H; simpl.
  - exact H.
  - rewrite fst_bind. apply IH. apply dispatch_velocityInvariant. exact H.
Qed.

End VelocityBound.

(** C3. The per-frame update keeps both velocity components of every
    node within [MAX_VELOCITY] in absolute value when they were so
    before; and with draws of [Math.random()] in [0, 1) the bound holds
    after initialisation and after any sequence of frames, presses,
    moves, releases, resizes and scrolls, so that it holds on the paths
    without a clamp as well. *)
Theorem velocity_bound_preserved (rnd : nat -> R) :
  (forall this deltaTime now dpr k,
      Forall velocityBounded (nodes this) ->
      Forall velocityBounded
             (nodes (fst (updateNodes rnd this deltaTime now dpr k)))) /\
  ((forall k, 0 <= rnd k < 1) ->
   forall this nodeCount dpr k events k',
     let initial := fst (initializeNodes rnd this nodeCount dpr k) in
     Forall velocityBounded (nodes initial) /\
     Forall velocityBounded (nodes (fst (run rnd initial events k')))).
Proof.
  split.
  - intros this dt now dpr k H. rewrite updateNodes_nodes.
    apply forEach_Forall; [|exact H].
    intros a k0. apply updateNode_velocityBounded.
  - intros Hr this nodeCount dpr k events k' initial.
    assert (Hi : Forall velocityInvariant (nodes initial)).
    { subst initial. unfold initializeNodes. rewrite fst_bind. simpl.
      apply initializeLoop_velocityInvariant. exact Hr. }
    split.
    + eapply Forall_impl; [exact Hi|]. intros n [Hn _]. exact Hn.
    + eapply Forall_impl;
        [apply run_velocityInvariant; [exact Hr | exact Hi]|].
      intros n [Hn _]. exact Hn.
Qed.

(** C3 on the drifting node and on three nodes initialised with every
    draw equal to one half, then pressed, updated and released. *)
Lemma velocity_bound_preserved_witness :
  Forall velocityBounded
         (nodes (fst (updateNodes rndHalf driftingNode 16 0 1 0%nat))) /\
  Forall velocityBounded
         (nodes (fst (run rndHalf
                        (fst (initializeNodes rndHalf threeNodes 3 1 0%nat))
                        [MouseDown (mkClientXY 400 300) (mkDOMRect 0 0 800 600);
                         Frame 16 0 1; MouseUp] 24%nat))).
Proof.
  destruct (velocity_bound_preserved rndHalf) as [Hupdate Hrun].
  split.
  - apply Hupdate. constructor; [|constructor].
    unfold velocityBounded, APP_CONFIG.NODE_NETWORK.MAX_VELOCITY; simpl.
    split; apply Rabs_le; lra.
  - apply Hrun. intros k. unfold rndHalf. lra.
Defined.

(* ================================================================== *)
(** * Dragging (C5, C6) *)
(* ================================================================== *)

Lemma sum_of_squares_nonneg a c : 0 <= a ^ 2 + c ^ 2.
Proof. pose proof (pow2_ge_0 a). pose proof (pow2_ge_0 c). lra. Qed.

Lemma findNodeFrom_hit node l i x_ y_ :
  (x_ - x node) ^ 2 + (y_ - y node) ^ 2 <= 625 ->
  findNodeFrom (node :: l) i x_ y_ = Some i.
Proof.
  intros H. cbn [findNodeFrom]. cbv zeta.
  rewrite (proj2 (num_le_true _ _)); [reflexivity|].
  unfold tolerance. apply sqrt_le_iff; [apply sum_of_squares_nonneg | lra | lra].
Qed.

Lemma findNodeFrom_miss node l i x_ y_ :
  625 < (x_ - x node) ^ 2 + (y_ - y node) ^ 2 ->
  findNodeFrom (node :: l) i x_ y_ = findNodeFrom l (S i) x_ y_.
Proof.
  intros H. cbn [findNodeFrom]. cbv zeta.
  rewrite (proj2 (num_le_false _ _)); [reflexivity|].
  unfold tolerance.
  assert (~ sqrt ((x_ - x node) ^ 2 + (y_ - y node) ^ 2) <= 25); [|lra].
  intros Hle. apply sqrt_le_iff in Hle; [lra | apply sum_of_squares_nonneg | lra].
Qed.

(** The index returned by the search is an index of the array. *)
Lemma findNodeFrom_bounds l i x_ y_ j :
  findNodeFrom l i x_ y_ = Some j -> (i <= j < i + length l)%nat.
Proof.
  revert i; induction l as [|node l IH]; intros i; simpl; [discriminate|].
  destruct (num_le _ _).
  - intros [= <-]. lia.
  - intros H%IH. lia.
Qed.

Lemma findNodeAtPosition_lookup this x_ y_ i :
  findNodeAtPosition this x_ y_ = Some i -> is_Some (nodes this !! i).
Proof.
  intros H%findNodeFrom_bounds. apply lookup_lt_is_Some. lia.
Qed.

Definition twoNodes : Animation :=
  animationOf [nodeAt 100 100; nodeAt 300 300] 150.

(** The canvas fills an 800 by 600 window. *)
Definition windowRect : DOMRect := mkDOMRect 0 0 800 600.

(** A mouse press on node 0 followed, with no release in between, by a
    touch on node 1. *)
Definition pressTwice : list Event :=
  [MouseDown (mkClientXY 100 100) windowRect;
   TouchStart (mkTouchEvent [mkClientXY 300 300]) windowRect].

Lemma num_le_sqrt_tolerance_true v :
  0 <= v <= 625 -> num_le (sqrt v) tolerance = true.
Proof.
  intros H. apply num_le_true. unfold tolerance. apply sqrt_le_iff; lra.
Qed.

Lemma num_le_sqrt_tolerance_false v :
  625 < v -> num_le (sqrt v) tolerance = false.
Proof.
  intros H. apply num_le_false. unfold tolerance.
  assert (~ sqrt v <= 25); [|lra].
  intros Hle. apply sqrt_le_iff in Hle; lra.
Qed.

Lemma num_or_else_zero m : num_or_else (Some 0) m = m.
Proof. unfold num_or_else. destruct (Req_dec_T 0 0); [reflexivity | lra]. Qed.

Lemma num_or_else_nonzero v m : v <> 0 -> num_or_else (Some v) m = ret v.
Proof. intros H. unfold num_or_else. destruct (Req_dec_T v 0); tauto. Qed.

(** C5 at a mouse press on node 0 followed, before any release, by a
    touch on node 1: both nodes are marked as dragged, and the release
    handlers that follow free node 1 only, node 0 staying marked. *)
Theorem press_during_drag_marks_two_nodes :
  let pressed := fst (run rndHalf twoNodes pressTwice 0%nat) in
  let released := fst (run rndHalf pressed [TouchEnd; MouseUp] 0%nat) in
  draggedNodeCount twoNodes = 0%nat /\
  map (fun n => truthy (isDragging n)) (nodes pressed) = [true; true] /\
  draggedNodeCount pressed = 2%nat /\
  draggedNode pressed = Some 1%nat /\
  map (fun n => truthy (isDragging n)) (nodes released) = [true; false] /\
  draggedNodeCount released = 1%nat /\
  this_isDragging released = false /\
  draggedNode released = None.
Proof.
  cbv zeta.
  assert (E : nodes (fst (run rndHalf twoNodes pressTwice 0%nat)) =
              [mkNode 100 100 0 0 QuestionMark (mkRGB 0 0 0) 0
                      (Some true) (Some 0) (Some 0);
               mkNode 300 300 0 0 QuestionMark (mkRGB 0 0 0) 0
                      (Some true) (Some 0) (Some 0)] /\
              draggedNode (fst (run rndHalf twoNodes pressTwice 0%nat)) = Some 1%nat /\
              this_isDragging (fst (run rndHalf twoNodes pressTwice 0%nat)) = true).
  { unfold pressTwice. cbn [run]. rewrite !fst_bind. cbn [dispatch ret fst snd].
    unfold handleMouseDown. cbv zeta. unfold findNodeAtPosition.
    cbn [twoNodes animationOf nodes clientX clientY windowRect rect_left rect_top].
    rewrite findNodeFrom_hit by (simpl; lra).
    unfold beginDrag at 1. cbn.
    rewrite num_le_sqrt_tolerance_false by lra.
    rewrite num_le_sqrt_tolerance_true by lra.
    cbn. auto. }
  destruct E as (En & Ed & Eb).
  split; [reflexivity|].
  split; [rewrite En; reflexivity|].
  split; [unfold draggedNodeCount; rewrite En; reflexivity|].
  split; [exact Ed|].
  assert (R : nodes (fst (run rndHalf (fst (run rndHalf twoNodes pressTwice 0%nat))
                             [TouchEnd; MouseUp] 0%nat)) =
              [mkNode 100 100 0 0 QuestionMark (mkRGB 0 0 0) 0
                      (Some true) (Some 0) (Some 0);
               mkNode 300 300 ((rndHalf 0%nat - 5 / 10) * (5 / 10))
                      ((rndHalf 1%nat - 5 / 10) * (5 / 10))
                      QuestionMark (mkRGB 0 0 0) 0
                      (Some false) None None] /\
              draggedNode (fst (run rndHalf (fst (run rndHalf twoNodes pressTwice 0%nat))
                             [TouchEnd; MouseUp] 0%nat)) = None /\
              this_isDragging (fst (run rndHalf (fst (run rndHalf twoNodes pressTwice 0%nat))
                             [TouchEnd; MouseUp] 0%nat)) = false).
  { cbn [run]. rewrite !fst_bind. cbn [dispatch ret fst snd].
    unfold handleTouchEnd, handleMouseUp, endDrag.
    rewrite !fst_bind. rewrite Ed, Eb, En. cbn.
    rewrite fst_bind. unfold releaseNode. cbn [originalVx originalVy].
    rewrite !num_or_else_zero. rewrite !fst_bind. cbn.
    destruct (Req_dec_T 0 0) as [_|Hne]; [|exfalso; apply Hne; reflexivity].
    cbn. auto. }
  destruct R as (Rn & Rd & Rb).
  split; [rewrite Rn; reflexivity|].
  split; [unfold draggedNodeCount; rewrite Rn; reflexivity|].
  split; [exact Rb | exact Rd].
Qed.

(** ** Where the single-drag invariant does hold *)

(** Every node marked as dragged is the node the component drags. *)
Definition singleDrag (this : Animation) : Prop :=
  forall j n, nodes this !! j = Some n -> truthy (isDragging n) = true ->
              this_isDragging this = true /\ draggedNode this = Some j.

Definition isPress (e : Event) : bool :=
  match e with
  | MouseDown _ _ | TouchStart _ _ => true
  | _ => false
  end.

Lemma filter_at_most_one {A : Type} (p : A -> bool) (l : list A) (i : nat) :
  (forall j a, l !! j = Some a -> p a = true -> j = i) ->
  (length (List.filter p l) <= 1)%nat.
Proof.
  revert i; induction l as [|a l IH]; intros i H; simpl; [lia|].
  destruct (p a) eqn:Ea; simpl.
  - assert (Hi : 0%nat = i) by (apply (H 0%nat a); auto).
    assert (Hn : List.filter p l = []).
    { destruct (List.filter p l) as [|c r] eqn:Ef; [reflexivity|].
      assert (Hc : In c (List.filter p l)) by (rewrite Ef; left; reflexivity).
      apply filter_In in Hc as [Hc Hp].
      apply list_elem_of_In, list_elem_of_lookup in Hc as [j Hj].
      specialize (H (S j) c Hj Hp). lia. }
    rewrite Hn. simpl. lia.
  - apply (IH (pred i)). intros j c Hj Hp.
    specialize (H (S j) c Hj Hp). lia.
Qed.

Lemma singleDrag_count this : singleDrag this -> (draggedNodeCount this <= 1)%nat.
Proof.
  intros H. unfold draggedNodeCount.
  destruct (draggedNode this) as [i|] eqn:Ed.
  - apply (filter_at_most_one _ _ i). intros j n Hj Hp.
    destruct (H j n Hj Hp) as [_ Hd]. congruence.
  - apply (filter_at_most_one _ _ 0%nat). intros j n Hj Hp.
    destruct (H j n Hj Hp) as [_ Hd]. congruence.
Qed.

Lemma draggedNodeCount_zero this j n :
  draggedNodeCount this = 0%nat -> nodes this !! j = Some n ->
  truthy (isDragging n) = false.
Proof.
  unfold draggedNodeCount. intros H Hj.
  destruct (truthy (isDragging n)) eqn:E; [|reflexivity].
  assert (Hin : In n (List.filter (fun n => truthy (isDragging n)) (nodes this))).
  { apply filter_In. split; [|exact E].
    apply list_elem_of_In. eapply list_elem_of_lookup_2; eauto. }
  destruct (List.filter _ (nodes this)); [destruct Hin | discriminate H].
Qed.

Lemma beginDrag_singleDrag this i x_ y_ :
  draggedNodeCount this = 0%nat -> singleDrag (beginDrag this i x_ y_).
Proof.
  intros Hz. unfold beginDrag.
  destruct (nodes this !! i) as [n|] eqn:E.
  - intros j m Hj Hm. unfold modifyNode in *. simpl in *. rewrite E in *.
    simpl in *. split; [reflexivity|].
    destruct (decide (i = j)) as [->|Hne]; [reflexivity|].
    rewrite list_lookup_insert_ne in Hj by exact Hne.
    rewrite (draggedNodeCount_zero this j m Hz Hj) in Hm. discriminate.
  - intros j m Hj Hm.
    rewrite (draggedNodeCount_zero this j m Hz Hj) in Hm. discriminate.
Qed.

Lemma modifyNode_singleDrag this i f :
  (forall n, isDragging (f n) = isDragging n) ->
  singleDrag this -> singleDrag (modifyNode this i f).
Proof.
  intros Hf H j m Hj Hm. unfold modifyNode in *.
  destruct (nodes this !! i) as [n|] eqn:E; [|apply (H j m Hj Hm)].
  simpl in *. destruct (decide (i = j)) as [->|Hne].
  - rewrite list_lookup_insert_eq in Hj by (eapply lookup_lt_Some; eauto).
    injection Hj as <-. rewrite Hf in Hm. apply (H j n E Hm).
  - rewrite list_lookup_insert_ne in Hj by exact Hne. apply (H j m Hj Hm).
Qed.

Lemma endDrag_singleDrag rnd this k :
  singleDrag this -> singleDrag (fst (endDrag rnd this k)).
Proof.
  intros H j m Hj Hm. exfalso.
  unfold endDrag in Hj. rewrite fst_bind in Hj. simpl in Hj.
  destruct (this_isDragging this) eqn:Eb.
  - destruct (draggedNode this) as [i|] eqn:Ed.
    + destruct (nodes this !! i) as [n|] eqn:En.
      * rewrite fst_bind in Hj. simpl in Hj.
        destruct (decide (i = j)) as [->|Hne].
        -- rewrite list_lookup_insert_eq in Hj by (eapply lookup_lt_Some; eauto).
           injection Hj as <-. unfold releaseNode in Hm.
           rewrite !fst_bind in Hm. simpl in Hm. discriminate.
        -- rewrite list_lookup_insert_ne in Hj by exact Hne.
           destruct (H j m Hj Hm) as [_ Hd]. congruence.
      * simpl in Hj. destruct (H j m Hj Hm) as [_ Hd].
        assert (i = j) by congruence. subst. congruence.
    + simpl in Hj. destruct (H j m Hj Hm) as [_ Hd]. congruence.
  - assert (Hj' : nodes this !! j = Some m).
    { destruct (draggedNode this); exact Hj. }
    destruct (H j m Hj' Hm) as [Hb _]. congruence.
Qed.

Lemma updateNodes_singleDrag rnd this dt now dpr k :
  singleDrag this -> singleDrag (fst (updateNodes rnd this dt now dpr k)).
Proof.
  intros H j m Hj Hm.
  assert (Hs : this_isDragging (fst (updateNodes rnd this dt now dpr k))
               = this_isDragging this /\
               draggedNode (fst (updateNodes rnd this dt now dpr k))
               = draggedNode this).
  { unfold updateNodes; cbv zeta. rewrite fst_bind. simpl. auto. }
  destruct Hs as [-> ->].
  rewrite updateNodes_nodes in Hj.
  apply forEach_lookup in Hj as (n & k0 & Hn & ->).
  destruct (updateNode_spec rnd dt now (canvasWidth this dpr)
              (canvasHeight this dpr) n k0) as (Hd & _).
  cbv zeta in Hd. rewrite Hd in Hm. apply (H j n Hn Hm).
Qed.

Lemma repositionNodes_singleDrag this dpr :
  singleDrag this -> singleDrag (repositionNodes this dpr).
Proof.
  intros H j m Hj Hm. unfold repositionNodes in Hj. simpl in Hj.
  rewrite list_lookup_fmap in Hj.
  destruct (nodes this !! j) as [n|] eqn:En; [|discriminate Hj].
  simpl in Hj. injection Hj as <-. simpl in Hm. apply (H j n En Hm).
Qed.

(** Every callback keeps the invariant, a press handler provided that
    no node is being dragged when it runs. *)
Lemma dispatch_singleDrag rnd this e k :
  singleDrag this ->
  (isPress e = true -> draggedNodeCount this = 0%nat) ->
  singleDrag (fst (dispatch rnd this e k)).
Proof.
  intros H Hp. destruct e; cbn [dispatch]; try exact H.
  - rewrite fst_bind. simpl. apply updateNodes_singleDrag. exact H.
  - unfold handleResize. apply repositionNodes_singleDrag. exact H.
  - unfold handleMouseDown; cbv zeta.
    destruct (findNodeAtPosition _ _ _); [|exact H].
    apply beginDrag_singleDrag. apply Hp. reflexivity.
  - unfold handleMouseMove; cbv zeta. simpl.
    destruct (this_isDragging this) eqn:Eb, (draggedNode this) eqn:Ed;
      try (destruct (findNodeAtPosition _ _ _); exact H).
    unfold dragTo; cbv zeta.
    apply modifyNode_singleDrag; [reflexivity|].
    intros j m Hj Hm. apply (H j m Hj Hm).
  - unfold handleMouseUp. rewrite fst_bind. simpl.
    apply endDrag_singleDrag. exact H.
  - unfold handleMouseUp. rewrite fst_bind. simpl.
    apply endDrag_singleDrag. exact H.
  - unfold handleTouchStart.
    destruct (length (touches event) =? 1)%nat; [|exact H].
    destruct (touches event !! 0%nat); [|exact H]. cbv zeta.
    destruct (findNodeAtPosition _ _ _); [|exact H].
    apply beginDrag_singleDrag. apply Hp. reflexivity.
  - unfold handleTouchMove.
    destruct (length (touches event) =? 1)%nat, (this_isDragging this),
      (draggedNode this); try exact H.
    destruct (touches event !! 0%nat); [|exact H]. cbv zeta.
    unfold dragTo; cbv zeta. apply modifyNode_singleDrag; [reflexivity|exact H].
  - apply endDrag_singleDrag. exact H.
Qed.

(** A run in which every press arrives while no node is dragged. *)
Fixpoint pressesWhenIdle (rnd : nat -> R) (this : Animation)
    (events : list Event) (k : nat) : Prop :=
  match events with
  | [] => True
  | e :: events' =>
      (isPress e = true -> draggedNodeCount this = 0%nat) /\
      pressesWhenIdle rnd (fst (dispatch rnd this e k)) events'
                      (snd (dispatch rnd this e k))
  end.

(** With presses arriving only while no node is dragged, at most one
    node is marked as dragged at any time. *)
Lemma run_singleDrag rnd events this k :
  singleDrag this -> pressesWhenIdle rnd this events k ->
  (draggedNodeCount (fst (run rnd this events k)) <= 1)%nat.
Proof.
  revert this k; induction events as [|e events IH]; intros this k H Hp; simpl.
  - apply singleDrag_count. exact H.
  - destruct Hp as [Hp Hrest]. rewrite fst_bind. apply IH.
    + apply dispatch_singleDrag; assumption.
    + exact Hrest.
Qed.

(** ** Press, then release (C6) *)

(** Where a press event lands on the canvas. *)
Definition pressPoint (e : Event) : option (R * R) :=
  match e with
  | MouseDown event rect =>
      Some (clientX event - rect_left rect, clientY event - rect_top rect)
  | TouchStart event rect =>
      match touches event with
      | [touch] =>
          Some (clientX touch - rect_left rect, clientY touch - rect_top rect)
      | _ => None
      end
  | _ => None
  end.

Definition isRelease (e : Event) : bool :=
  match e with
  | MouseUp | MouseLeave | TouchEnd => true
  | _ => false
  end.

Lemma beginDrag_state this i x_ y_ node :
  nodes this !! i = Some node ->
  nodes (beginDrag this i x_ y_) = <[i := grabNode node]> (nodes this) /\
  this_isDragging (beginDrag this i x_ y_) = true /\
  draggedNode (beginDrag this i x_ y_) = Some i.
Proof.
  intros H. unfold beginDrag. rewrite H. cbv zeta.
  unfold modifyNode. simpl. rewrite H. simpl. auto.
Qed.

(** A press that finds node [i] grabs it, by mouse or by touch. *)
Lemma press_state rnd this press x_ y_ i node k :
  pressPoint press = Some (x_, y_) ->
  findNodeAtPosition this x_ y_ = Some i ->
  nodes this !! i = Some node ->
  let pressed := fst (dispatch rnd this press k) in
  snd (dispatch rnd this press k) = k /\
  nodes pressed = <[i := grabNode node]> (nodes this) /\
  this_isDragging pressed = true /\
  draggedNode pressed = Some i.
Proof.
  intros Hp Hf Hn. cbv zeta.
  destruct press; try discriminate Hp; cbn [dispatch ret fst snd].
  - injection Hp as <- <-. unfold handleMouseDown. cbv zeta. rewrite Hf.
    pose proof (beginDrag_state this i
                  (clientX event - rect_left rect)
                  (clientY event - rect_top rect) node Hn) as (? & ? & ?).
    simpl. auto.
  - simpl in Hp. destruct (touches event) as [|touch [|? ?]] eqn:Et;
      try discriminate Hp.
    injection Hp as <- <-. unfold handleTouchStart. rewrite Et. simpl.
    unfold findNodeAtPosition in Hf. fold (findNodeAtPosition this
      (clientX touch - rect_left rect) (clientY touch - rect_top rect)).
    unfold findNodeAtPosition. rewrite Hf.
    pose proof (beginDrag_state this i
                  (clientX touch - rect_left rect)
                  (clientY touch - rect_top rect) node Hn) as (? & ? & ?).
    auto.
Qed.



(** Releasing a node that has just been grabbed: each component of the
    velocity is the one it had before the press when that was not zero,
    and a fresh draw otherwise. *)
Lemma releaseNode_grabNode rnd node k :
  let node' := fst (releaseNode rnd (grabNode node) k) in
  let fresh := fun j => (rnd j - 5 / 10) * (5 / 10) in
  x node' = x node /\ y node' = y node /\
  (vx node <> 0 -> vx node' = vx node) /\
  (vy node <> 0 -> vy node' = vy node) /\
  (vx node = 0 -> vx node' = fresh k) /\
  (vy node = 0 -> vy node' = fresh k \/ vy node' = fresh (S k)) /\
  isDragging node' = Some false /\
  originalVx node' = None /\ originalVy node' = None.
Proof.
  cbv zeta. unfold releaseNode. rewrite !fst_bind. simpl.
  unfold num_or_else.
  destruct (Req_dec_T (vx node) 0) as [Zx|Nx];
  destruct (Req_dec_T (vy node) 0) as [Zy|Ny]; simpl;
    repeat split; intros; auto; try contradiction.
Qed.









(** A node at (200, 200) moving at (0.3, 0): the second component of
    its velocity is zero. *)
Definition slidingNode : Animation :=
  animationOf [mkNode 200 200 (3 / 10) 0 QuestionMark (mkRGB 0 0 0) 0
                      None None None] 150.


(* ================================================================== *)
(** * shared/utils/animation.ts: [AnimationFrameManager] (C8) *)
(* ================================================================== *)

Module AnimationFrameManager.

(** A [FrameRequestCallback] of a client, named by a number; what it
    does when it runs is recorded as an entry of a log. *)
Definition Callback := nat.

(** What the window has been asked to call at the next frame: the
    closure built by [requestFrame] for a client callback, or a callback
    that other code has registered with the window directly. *)
Inductive Scheduled :=
  | Wrapper (callback : Callback)
  | Foreign (callback : Callback).

(** [window.requestAnimationFrame] and [window.cancelAnimationFrame]:
    handles are counted from 1, so that 0 is never a handle. *)
Record Window := mkWindow {
  lastHandle : nat;
  pending : gmap nat Scheduled
}.

Definition requestAnimationFrame (w : Window) (c : Scheduled) : nat * Window :=
  let handle := S (lastHandle w) in
  (handle, mkWindow handle (<[handle := c]> (pending w))).

Definition cancelAnimationFrame (w : Window) (handle : nat) : Window :=
  mkWindow (lastHandle w) (delete handle (pending w)).

(** A client callback has been called with a time stamp. *)
Record Invocation := mkInvocation { invoked : Callback; timestamp : R }.

Record State := mkState {
  window : Window;
  activeAnimations : gset nat;
  isDestroyed : bool;
  log : list Invocation
}.

Definition requestFrame (s : State) (callback : Callback) : nat * State :=
  if isDestroyed s then (0%nat, s)
  else
    let (id, w) := requestAnimationFrame (window s) (Wrapper callback) in
    (id, mkState w ({[id]} ∪ activeAnimations s) (isDestroyed s) (log s)).

(** The closure [(timestamp) => { ... }] of [requestFrame], run by the
    window for handle [id]. *)
Definition wrapper (s : State) (id : nat) (callback : Callback) (t : R) : State :=
  let s := mkState (window s) (activeAnimations s ∖ {[id]}) (isDestroyed s) (log s) in
  if negb (isDestroyed s)
  then mkState (window s) (activeAnimations s) (isDestroyed s)
               (log s ++ [mkInvocation callback t])
  else s.

Definition cancelFrame (s : State) (id : nat) : State :=
  mkState (cancelAnimationFrame (window s) id) (activeAnimations s ∖ {[id]})
          (isDestroyed s) (log s).

Definition cancelAllFrames (s : State) : State :=
  let w := foldr (fun id w => cancelAnimationFrame w id) (window s)
                 (elements (activeAnimations s)) in
  mkState w ∅ (isDestroyed s) (log s).

Definition getActiveCount (s : State) : nat := size (activeAnimations s).

Definition destroy (s : State) : State :=
  let s := mkState (window s) (activeAnimations s) true (log s) in
  cancelAllFrames s.

(** The window runs the callback scheduled under a handle, if there is
    one, after taking it off its list. *)
Definition fire (s : State) (handle : nat) (t : R) : State :=
  match pending (window s) !! handle with
  | None => s
  | Some c =>
      let s := mkState (cancelAnimationFrame (window s) handle)
                       (activeAnimations s) (isDestroyed s) (log s) in
      match c with
      | Wrapper callback => wrapper s handle callback t
      | Foreign _ => s
      end
  end.

(** What may happen to a manager, one step at a time: calls of its
    methods by its owner, frames delivered by the window, and other
    code using the window directly. *)
Inductive Op :=
  | RequestFrame (callback : Callback)
  | CancelFrame (id : nat)
  | CancelAllFrames
  | Destroy
  | Fire (handle : nat) (t : R)
  | ForeignRequest (callback : Callback)
  | ForeignCancel (handle : nat).

Definition step (s : State) (o : Op) : State :=
  match o with
  | RequestFrame callback => snd (requestFrame s callback)
  | CancelFrame id => cancelFrame s id
  | CancelAllFrames => cancelAllFrames s
  | Destroy => destroy s
  | Fire handle t => fire s handle t
  | ForeignRequest callback =>
      mkState (snd (requestAnimationFrame (window s) (Foreign callback)))
              (activeAnimations s) (isDestroyed s) (log s)
  | ForeignCancel handle =>
      mkState (cancelAnimationFrame (window s) handle)
              (activeAnimations s) (isDestroyed s) (log s)
  end.

Definition run (s : State) (ops : list Op) : State := foldl step s ops.

(** [new AnimationFrameManager()] in a window that has not been asked
    for a frame yet. *)
Definition create : State := mkState (mkWindow 0 ∅) ∅ false [].

(** Every closure of the manager that the window still holds is
    tracked in [activeAnimations], and handles are not reused. *)
Definition tracked (s : State) : Prop :=
  (forall id callback,
      pending (window s) !! id = Some (Wrapper callback) ->
      id ∈ activeAnimations s) /\
  (forall id, is_Some (pending (window s) !! id) ->
              (id <= lastHandle (window s))%nat).

(** No closure of the manager is scheduled. *)
Definition nothingScheduled (s : State) : Prop :=
  forall id callback, pending (window s) !! id <> Some (Wrapper callback).

Lemma cancel_list_lookup (l : list nat) (w : Window) (id : nat) :
  pending (foldr (fun id w => cancelAnimationFrame w id) w l) !! id =
  if decide (id ∈ l) then None else pending w !! id.
Proof.
  induction l as [|a l IH]; simpl.
  - reflexivity.
  - destruct (decide (a = id)) as [->|Hne].
    + rewrite lookup_delete_eq. destruct (decide (id ∈ id :: l)) as [|Hn]; auto.
      exfalso. apply Hn. left.
    + rewrite lookup_delete_ne by exact Hne. rewrite IH.
      destruct (decide (id ∈ l)), (decide (id ∈ a :: l)) as [Hin|Hn]; auto.
      * exfalso. apply Hn. right. assumption.
      * apply elem_of_cons in Hin as [->|]; tauto.
Qed.

Lemma cancel_list_lastHandle (l : list nat) (w : Window) :
  lastHandle (foldr (fun id w => cancelAnimationFrame w id) w l) = lastHandle w.
Proof. induction l; simpl; auto. Qed.

Lemma cancelAllFrames_lookup s id :
  pending (window (cancelAllFrames s)) !! id =
  if decide (id ∈ activeAnimations s) then None else pending (window s) !! id.
Proof.
  unfold cancelAllFrames; simpl. rewrite cancel_list_lookup.
  destruct (decide (id ∈ elements (activeAnimations s))) as [H|H],
           (decide (id ∈ activeAnimations s)) as [H'|H']; auto;
    rewrite elem_of_elements in H; tauto.
Qed.

Lemma tracked_create : tracked create.
Proof.
  split; simpl.
  - intros id cb. rewrite lookup_empty. discriminate.
  - intros id. rewrite lookup_empty. intros [? ?]; discriminate.
Qed.

Lemma tracked_step s o : tracked s -> tracked (step s o).
Proof.
  intros [Ht Hh]. destruct o; simpl.
  - unfold requestFrame. destruct (isDestroyed s); [split; assumption|].
    simpl. split; simpl.
    + intros id cb. rewrite lookup_insert. case_decide.
      * intros _. subst. set_solver.
      * intros H'. apply Ht in H'. set_solver.
    + intros id. rewrite lookup_insert. case_decide; [lia|].
      intros H'%Hh. lia.
  - split; simpl.
    + intros id' cb. rewrite lookup_delete. case_decide; [discriminate|].
      intros H'%Ht. set_solver.
    + intros id'. rewrite lookup_delete. case_decide.
      * intros [? ?]; discriminate.
      * apply Hh.
  - split.
    + intros id cb. rewrite cancelAllFrames_lookup. case_decide; [discriminate|].
      intros H'%Ht. contradiction.
    + intros id. rewrite cancelAllFrames_lookup.
      unfold cancelAllFrames; simpl. rewrite cancel_list_lastHandle.
      case_decide; [intros [? ?]; discriminate | apply Hh].
  - unfold destroy. split.
    + intros id cb. rewrite cancelAllFrames_lookup. simpl.
      case_decide; [discriminate|]. intros H'%Ht. contradiction.
    + intros id. rewrite cancelAllFrames_lookup.
      unfold cancelAllFrames; simpl. rewrite cancel_list_lastHandle.
      case_decide; [intros [? ?]; discriminate | apply Hh].
  - unfold fire. destruct (pending (window s) !! handle) as [c|] eqn:E;
      [|split; assumption].
    destruct c as [cb|cb]; unfold wrapper; simpl.
    + destruct (isDestroyed s); simpl; split; simpl.
      * intros id cb'. rewrite lookup_delete. case_decide; [discriminate|].
        intros H'%Ht. set_solver.
      * intros id. rewrite lookup_delete.
        case_decide; [intros [? ?]; discriminate | apply Hh].
      * intros id cb'. rewrite lookup_delete. case_decide; [discriminate|].
        intros H'%Ht. set_solver.
      * intros id. rewrite lookup_delete.
        case_decide; [intros [? ?]; discriminate | apply Hh].
    + split; simpl.
      * intros id cb'. rewrite lookup_delete. case_decide; [discriminate|].
        apply Ht.
      * intros id. rewrite lookup_delete.
        case_decide; [intros [? ?]; discriminate | apply Hh].
  - split; simpl.
    + intros id cb. rewrite lookup_insert. case_decide; [discriminate|]. apply Ht.
    + intros id. rewrite lookup_insert. case_decide; [lia|].
      intros H'%Hh. lia.
  - split; simpl.
    + intros id cb. rewrite lookup_delete. case_decide; [discriminate|]. apply Ht.
    + intros id. rewrite lookup_delete.
      case_decide; [intros [? ?]; discriminate | apply Hh].
Qed.

Lemma tracked_run ops s : tracked s -> tracked (run s ops).
Proof.
  revert s; induction ops as [|o ops IH]; intros s H; simpl; auto.
  apply IH. apply tracked_step. exact H.
Qed.

Lemma run_app s ops1 ops2 : run s (ops1 ++ ops2) = run (run s ops1) ops2.
Proof. unfold run. apply foldl_app. Qed.

Lemma destroy_nothingScheduled s :
  tracked s ->
  nothingScheduled (destroy s) /\ activeAnimations (destroy s) = ∅ /\
  isDestroyed (destroy s) = true /\ log (destroy s) = log s.
Proof.
  intros [Ht _]. repeat split; auto.
  intros id cb H. unfold destroy in H; cbv zeta in H.
  rewrite cancelAllFrames_lookup in H. simpl in H.
  case_decide; [discriminate|]. apply Ht in H. contradiction.
Qed.

(** Once the manager is destroyed a step schedules no closure of the
    manager and calls no client callback. *)
Lemma destroyed_step s o :
  isDestroyed s = true -> nothingScheduled s ->
  isDestroyed (step s o) = true /\ nothingScheduled (step s o) /\
  log (step s o) = log s.
Proof.
  intros Hd Hn. unfold nothingScheduled in *. destruct o; cbn [step].
  - unfold requestFrame. rewrite Hd. simpl. auto.
  - repeat split; auto. simpl. intros id' cb. rewrite lookup_delete.
    case_decide; [discriminate | apply Hn].
  - repeat split; auto. intros id cb. rewrite cancelAllFrames_lookup.
    case_decide; [discriminate | apply Hn].
  - repeat split; auto. intros id cb. unfold destroy; cbv zeta.
    rewrite cancelAllFrames_lookup. simpl.
    case_decide; [discriminate | apply Hn].
  - unfold fire. destruct (pending (window s) !! handle) as [c|] eqn:E; auto.
    destruct c as [cb|cb]; [destruct (Hn _ _ E)|].
    simpl. repeat split; auto. simpl. intros id cb'. rewrite lookup_delete.
    case_decide; [discriminate | apply Hn].
  - repeat split; auto. simpl. intros id cb. rewrite lookup_insert.
    case_decide; [discriminate | apply Hn].
  - repeat split; auto. simpl. intros id cb. rewrite lookup_delete.
    case_decide; [discriminate | apply Hn].
Qed.

Lemma destroyed_run ops s :
  isDestroyed s = true -> nothingScheduled s ->
  isDestroyed (run s ops) = true /\ nothingScheduled (run s ops) /\
  log (run s ops) = log s.
Proof.
  revert s; induction ops as [|o ops IH]; intros s Hd Hn; simpl; auto.
  destruct (destroyed_step s o Hd Hn) as (Hd' & Hn' & Hl).
  destruct (IH _ Hd' Hn') as (? & ? & Hl'). rewrite Hl' , Hl. auto.
Qed.

(** The guard of the closure alone: run on a destroyed manager it calls
    nothing, scheduled or not. *)
Lemma wrapper_destroyed s id callback t :
  isDestroyed s = true -> log (wrapper s id callback t) = log s.
Proof. intros H. unfold wrapper. simpl. rewrite H. reflexivity. Qed.

(** C8. Whatever has happened to a manager before [destroy], right
    after [destroy] the window holds no closure of the manager (each
    has been cancelled) and [activeAnimations] is empty; and whatever
    happens afterwards - frames delivered by the window, further calls
    of the manager's methods - no client callback is called any more,
    [requestFrame] returns 0 and leaves the manager and the window as
    they are, and the closure of a request made before [destroy] calls
    nothing. *)
Theorem destroy_stops_callbacks (before after : list Op) :
  let s1 := run create (before ++ [Destroy]) in
  let s2 := run s1 after in
  nothingScheduled s1 /\ activeAnimations s1 = ∅ /\
  log s1 = log (run create before) /\
  log s2 = log s1 /\
  nothingScheduled s2 /\
  (forall callback, requestFrame s2 callback = (0%nat, s2)) /\
  (forall id callback t, log (wrapper s2 id callback t) = log s2) /\
  (forall handle t, log (fire s2 handle t) = log s2).
Proof.
  cbv zeta. rewrite run_app. simpl.
  pose proof (tracked_run before create tracked_create) as Ht.
  destruct (destroy_nothingScheduled _ Ht) as (Hn & Ha & Hd & Hl).
  destruct (destroyed_run after _ Hd Hn) as (Hd2 & Hn2 & Hl2).
  repeat split; auto.
  - intros cb. unfold requestFrame. rewrite Hd2. reflexivity.
  - intros id cb t. apply wrapper_destroyed. exact Hd2.
  - intros handle t.
    destruct (destroyed_step _ (Fire handle t) Hd2 Hn2) as (_ & _ & H). exact H.
Qed.

(** Two frames requested, the first delivered, the manager destroyed,
    then the second frame due, a new request and its frame: callback 7
    has run once, callback 8 and callback 9 never. *)
Example destroy_stops_callbacks_run :
  let s := run create [RequestFrame 7%nat; RequestFrame 8%nat; Fire 1%nat 16;
                       Destroy; Fire 2%nat 32; RequestFrame 9%nat;
                       Fire 3%nat 48] in
  log s = [mkInvocation 7%nat 16] /\ getActiveCount s = 0%nat /\
  pending (window s) = ∅ /\
  fst (requestFrame s 9%nat) = 0%nat.
Proof.
  cbv zeta. repeat split; vm_compute; reflexivity.
Qed.

End AnimationFrameManager.

(* ================================================================== *)
(** * Rendering a connection (C9) *)
(* ================================================================== *)

(** One [fillText] call of the connection renderer, with the
    [fillStyle] [rgba(gray, gray, gray, alpha)] in force when it is
    made. *)
Record FillText := mkFillText {
  grayValue : Z;
  alpha : R;
  text : Glyph;
  text_x : R;
  text_y : R
}.

(** A loop whose body draws random numbers and yields a value per turn. *)
Fixpoint mapGen {A B : Type} (f : A -> Gen B) (l : list A) : Gen (list B) :=
  match l with
  | [] => ret []
  | a :: l' =>
      let* c := f a in
      let* rest := mapGen f l' in
      ret (c :: rest)
  end.

Section Render.

Variable rnd : nat -> R.

(** The body of the loop of [renderConnection] at step [i]. *)
Definition renderStep (nodeA : Node) (strength dx dy : R) (steps i : Z)
  : Gen FillText :=
  let progress := IZR i / IZR steps in
  let x_ := x nodeA + dx * IZR i in
  let y_ := y nodeA + dy * IZR i in
  (* Gray gradient based on position and strength *)
  let grayValue :=
    Int_part (80 + (strength * progress * (1 - progress) * 4) * 100) in
  let alpha := strength * (4 / 10) in
  let* c := randomNoiseChar rnd in
  ret (mkFillText grayValue alpha c x_ y_).

(** [renderConnection]: the [fillText] calls it makes, in order.
    The loop [for (let i = 1; i < steps; i++)] runs over
    [1, 2, ..., steps - 1]. *)
Definition renderConnection (nodes : list Node) (connection : Connection)
  : Gen (list FillText) :=
  match (nodes !! nodeA connection : option Node),
        (nodes !! nodeB connection : option Node) with
  | Some nodeA, Some nodeB =>
      let strength := strength connection in
      let dist := distance nodeA nodeB in
      let steps := Int_part (dist / APP_CONFIG.NODE_NETWORK.CHARACTER_SPACING) in
      if (steps <? 2)%Z then ret []
      else
        let dx := (x nodeB - x nodeA) / IZR steps in
        let dy := (y nodeB - y nodeA) / IZR steps in
        mapGen (renderStep nodeA strength dx dy steps) (seqZ 1 (steps - 1))
  | _, _ => ret []
  end.

(** [renderConnections]. *)
Definition renderConnections (this : Animation) : Gen (list FillText) :=
  let* calls := mapGen (renderConnection (nodes this)) (connections this) in
  ret (concat calls).

Lemma randomNoiseChar_cursor k : snd (randomNoiseChar rnd k) = S k.
Proof. reflexivity. Qed.

Lemma mapGen_length {A B : Type} (f : A -> Gen B) (l : list A) (k : nat) :
  length (fst (mapGen f l k)) = length l.
Proof.
  revert k; induction l as [|a l IH]; intros k; simpl; auto.
  rewrite !fst_bind. simpl. rewrite IH. reflexivity.
Qed.

(** When every turn takes one draw, turn [j] runs at cursor [k + j]. *)
Lemma mapGen_lookup {A B : Type} (f : A -> Gen B) (l : list A) (k j : nat) :
  (forall a k0, snd (f a k0) = S k0) ->
  fst (mapGen f l k) !! j = (fun a => fst (f a (k + j)%nat)) <$> (l !! j).
Proof.
  intros Hf. revert k j; induction l as [|a l IH]; intros k j; simpl.
  - reflexivity.
  - rewrite !fst_bind. simpl. destruct j as [|j]; simpl.
    + rewrite Nat.add_0_r. reflexivity.
    + rewrite IH, Hf. replace (k + S j)%nat with (S k + j)%nat by lia.
      reflexivity.
Qed.

End Render.

(** The steps of a connection of a given step count as the
    specification words them: the integers of the half-open interval
    from 1 to [steps - 1]. *)
Definition interiorSteps_spec (steps : Z) : list Z := seqZ 1 (steps - 1 - 1).

(** Two nodes 16 pixels apart, joined by a connection. *)
Definition shortLink : list Node := [nodeAt 0 0; nodeAt 16 0].
Definition shortLinkConnection : Connection :=
  mkConnection 0 1 (1 - 16 / 150).

Lemma Int_part_IZR z : Int_part (IZR z) = z.
Proof. symmetry. apply Int_part_spec. generalize (IZR z). intros v. lra. Qed.

Lemma shortLink_steps :
  Int_part (distance (nodeAt 0 0) (nodeAt 16 0) /
            APP_CONFIG.NODE_NETWORK.CHARACTER_SPACING) = 2%Z.
Proof.
  rewrite distance_same_row by (simpl; lra). simpl.
  unfold APP_CONFIG.NODE_NETWORK.CHARACTER_SPACING.
  replace ((16 - 0) / 8) with (IZR 2) by lra. apply Int_part_IZR.
Qed.

(** C9, refuted as stated: a connection of 16 pixels has a step count
    of 2, for which the interval from 1 to [steps - 1], right end
    excluded, is empty, and the renderer draws one glyph, at the middle
    (8, 0). *)
Lemma renderConnection_draws_last_interior_step :
  Int_part (distance (nodeAt 0 0) (nodeAt 16 0) /
            APP_CONFIG.NODE_NETWORK.CHARACTER_SPACING) = 2%Z /\
  interiorSteps_spec 2 = [] /\
  map (fun c => (text_x c, text_y c))
      (fst (renderConnection rndHalf shortLink shortLinkConnection 0%nat))
  = [(8, 0)] /\
  length (fst (renderConnection rndHalf shortLink shortLinkConnection 0%nat))
  <> length (interiorSteps_spec 2).
Proof.
  pose proof shortLink_steps as Hs.
  assert (E : map (fun c => (text_x c, text_y c))
                (fst (renderConnection rndHalf shortLink shortLinkConnection 0%nat))
              = [(8, 0)]).
  { unfold renderConnection. cbn [shortLink shortLinkConnection nodeA nodeB
                                  lookup list_lookup strength].
    cbv zeta. rewrite Hs. simpl.
    change (IZR (Z.of_nat 0 + 1)) with 1. f_equal. f_equal; lra. }
  split; [exact Hs|]. split; [reflexivity|]. split; [exact E|].
  apply (f_equal length) in E. rewrite length_map in E. rewrite E.
  simpl. discriminate.
Qed.

(** C9 as amended.  A connection whose step count
    [floor(distance / CHARACTER_SPACING)] is below 2 draws nothing.
    Any other connection draws [steps - 1] glyphs, one for each step
    [i] with [1 <= i <= steps - 1]: the glyph of step [i] is a fresh
    random noise character placed at [A + (B - A) / steps * i], its gray
    value is [floor(80 + strength * progress * (1 - progress) * 4 * 100)]
    with [progress = i / steps], and its alpha is [strength * 0.4]. *)
Theorem renderConnection_interior_steps (rnd : nat -> R) (nodes : list Node)
    (c : Connection) (a b : Node) (k : nat) :
  nodes !! nodeA c = Some a ->
  nodes !! nodeB c = Some b ->
  let steps := Int_part (distance a b / APP_CONFIG.NODE_NETWORK.CHARACTER_SPACING) in
  let calls := fst (renderConnection rnd nodes c k) in
  ((steps < 2)%Z -> calls = []) /\
  ((2 <= steps)%Z ->
   length calls = Z.to_nat (steps - 1) /\
   forall i, (1 <= i < steps)%Z ->
     let progress := IZR i / IZR steps in
     calls !! Z.to_nat (i - 1) =
     Some (mkFillText
             (Int_part (80 + (strength c * progress * (1 - progress) * 4) * 100))
             (strength c * (4 / 10))
             (fst (randomNoiseChar rnd (k + Z.to_nat (i - 1))%nat))
             (x a + (x b - x a) / IZR steps * IZR i)
             (y a + (y b - y a) / IZR steps * IZR i))).
Proof.
  intros Ha Hb. cbv zeta. unfold renderConnection. rewrite Ha, Hb. cbv zeta.
  destruct (Z.ltb_spec
              (Int_part (distance a b / APP_CONFIG.NODE_NETWORK.CHARACTER_SPACING)) 2)
    as [Hlt | Hge].
  - split; [reflexivity | lia].
  - split; [lia|]. intros _. split.
    + rewrite mapGen_length, length_seqZ. reflexivity.
    + intros i Hi. rewrite mapGen_lookup by reflexivity.
      rewrite lookup_seqZ_lt by lia. simpl.
      replace (1 + Z.of_nat (Z.to_nat (i - 1)))%Z with i by lia.
      reflexivity.
Qed.

(** C9 as amended, on the connection of 16 pixels: one glyph, at the
    middle, of gray value [floor(80 + strength * 100)]. *)
Lemma renderConnection_interior_steps_witness :
  length (fst (renderConnection rndHalf shortLink shortLinkConnection 0%nat))
  = 1%nat /\
  map alpha (fst (renderConnection rndHalf shortLink shortLinkConnection 0%nat))
  = [(1 - 16 / 150) * (4 / 10)].
Proof.
  pose proof shortLink_steps as Hs.
  destruct (renderConnection_interior_steps rndHalf shortLink shortLinkConnection
              (nodeAt 0 0) (nodeAt 16 0) 0%nat eq_refl eq_refl) as (_ & H).
  cbv zeta in H. rewrite Hs in H. destruct H as (Hl & Hc); [lia|].
  split; [exact Hl|].
  specialize (Hc 1%Z ltac:(lia)). simpl in Hc.
  destruct (fst (renderConnection rndHalf shortLink shortLinkConnection 0%nat))
    as [|c0 [|c1 l]]; try discriminate Hl.
  simpl in Hc. injection Hc as ->. reflexivity.
Defined.

(* ================================================================== *)
(** * The standalone class of [animations/NodeNetworkAnimation.ts] *)
(* ================================================================== *)

(** The older, standalone [NodeNetworkAnimation]: the same simulation
    without dragging, with its constants written in place and its own
    helpers ([getDistance], [TextUtils], [ColorUtils], [MathUtils]). *)
Module Legacy.

Record Node := mkNode {
  x : R;
  y : R;
  vx : R;
  vy : R;
  char : Glyph;
  color : RGB;
  lastCharUpdate : R
}.

Definition set_x (n : Node) (v : R) : Node :=
  mkNode v (y n) (vx n) (vy n) (char n) (color n) (lastCharUpdate n).
Definition set_y (n : Node) (v : R) : Node :=
  mkNode (x n) v (vx n) (vy n) (char n) (color n) (lastCharUpdate n).
Definition set_vx (n : Node) (v : R) : Node :=
  mkNode (x n) (y n) v (vy n) (char n) (color n) (lastCharUpdate n).
Definition set_vy (n : Node) (v : R) : Node :=
  mkNode (x n) (y n) (vx n) v (char n) (color n) (lastCharUpdate n).
Definition set_glyph (n : Node) (c : Glyph) (rgb : RGB) (t : R) : Node :=
  mkNode (x n) (y n) (vx n) (vy n) c rgb t.

Record Animation := mkAnimation {
  canvas_width : R;
  canvas_height : R;
  nodes : list Node;
  connections : list Connection;
  maxConnectionDistance : R;
  frameSkipMax : Z;
  lastScrollY : R;
  scrollVelocity : R
}.

Definition set_nodes (this : Animation) (l : list Node) : Animation :=
  mkAnimation (canvas_width this) (canvas_height this) l (connections this)
    (maxConnectionDistance this) (frameSkipMax this) (lastScrollY this)
    (scrollVelocity this).
Definition set_connections (this : Animation) (l : list Connection) : Animation :=
  mkAnimation (canvas_width this) (canvas_height this) (nodes this) l
    (maxConnectionDistance this) (frameSkipMax this) (lastScrollY this)
    (scrollVelocity this).

Definition canvasWidth (this : Animation) (devicePixelRatio : R) : R :=
  canvas_width this / num_or devicePixelRatio 1.
Definition canvasHeight (this : Animation) (devicePixelRatio : R) : R :=
  canvas_height this / num_or devicePixelRatio 1.

Definition getDistance (nodeA nodeB : Node) : R :=
  sqrt ((x nodeA - x nodeB) ^ 2 + (y nodeA - y nodeB) ^ 2).

(** ** [updateConnections] *)

Definition connectionBetween (nodes : list Node) (maxDistance : R) (i j : nat)
  : list Connection :=
  match (nodes !! i : option Node), (nodes !! j : option Node) with
  | Some nodeA, Some nodeB =>
      let distance := getDistance nodeA nodeB in
      if num_lt distance maxDistance
      then [mkConnection i j (1 - distance / maxDistance)]
      else []
  | _, _ => []
  end.

Definition computeConnections (nodes : list Node) (maxDistance : R)
  : list Connection :=
  flat_map (fun i => flat_map (connectionBetween nodes maxDistance i)
                              (seq (i + 1) (length nodes - (i + 1))))
           (seq 0 (length nodes)).

Definition updateConnections (this : Animation) : Animation :=
  set_connections this
    (computeConnections (nodes this) (maxConnectionDistance this)).

(** ** The scroll handler of [setupScrollOptimization] *)

(** The callback that the scroll listener passes to
    [requestAnimationFrame], given [window.scrollY]. *)
Definition handleScroll (this : Animation) (scrollY : R) : Animation :=
  let currentScrollY := scrollY in
  let scrollVelocity := Rabs (currentScrollY - lastScrollY this) in
  let frameSkipMax :=
    if num_gt scrollVelocity 20 then 4%Z
    else if num_gt scrollVelocity 5 then 2%Z else 1%Z in
  mkAnimation (canvas_width this) (canvas_height this) (nodes this)
    (connections this) (maxConnectionDistance this) frameSkipMax
    currentScrollY scrollVelocity.

(** ** [repositionNodes] *)

Definition repositionNodes (this : Animation) (devicePixelRatio : R) : Animation :=
  let canvasWidth := canvasWidth this devicePixelRatio in
  let canvasHeight := canvasHeight this devicePixelRatio in
  set_nodes this
    (map (fun node =>
            let node := if num_gt (x node) canvasWidth
                        then set_x node (canvasWidth - 50) else node in
            if num_gt (y node) canvasHeight
            then set_y node (canvasHeight - 50) else node)
         (nodes this)).

Section Simulation.

Variable rnd : nat -> R.

(** [MathUtils.randomIntBetween] on integer bounds. *)
Definition randomIntBetween (min max : Z) : Gen Z :=
  let* u := Math_random rnd in
  ret (Int_part (u * IZR (max - min + 1)) + min)%Z.

(** [TextUtils.randomNoiseChar]. *)
Definition randomNoiseChar : Gen Glyph :=
  let* index := randomIntBetween 0 (NOISE_CHARS_length - 1) in
  ret (if ((0 <=? index) && (index <? NOISE_CHARS_length))%Z
       then NoiseChar index else QuestionMark).

(** [ColorUtils.randomRGB]. *)
Definition randomRGB : Gen RGB :=
  let* r := randomIntBetween 0 255 in
  let* g := randomIntBetween 0 255 in
  let* b := randomIntBetween 0 255 in
  ret (mkRGB r g b).

(** The movement part of the body of [updateNodes]. *)
Definition moveNode (deltaTime canvasWidth canvasHeight : R) (node : Node)
  : Gen Node :=
  (* Update position *)
  let node := set_x node (x node + vx node * deltaTime * (2 / 100)) in
  let node := set_y node (y node + vy node * deltaTime * (2 / 100)) in
  (* Bounce off edges *)
  let node :=
    if num_le (x node) 0 || num_ge (x node) canvasWidth
    then let node := set_vx node (vx node * -1) in
         set_x node (Rmax 0 (Rmin canvasWidth (x node)))
    else node in
  let node :=
    if num_le (y node) 0 || num_ge (y node) canvasHeight
    then let node := set_vy node (vy node * -1) in
         set_y node (Rmax 0 (Rmin canvasHeight (y node)))
    else node in
  (* Randomly change direction occasionally *)
  let* u := Math_random rnd in
  if num_lt u (2 / 1000)
  then
    let* u1 := Math_random rnd in
    let node := set_vx node (vx node + (u1 - 5 / 10) * (1 / 10)) in
    let* u2 := Math_random rnd in
    let node := set_vy node (vy node + (u2 - 5 / 10) * (1 / 10)) in
    (* Limit velocity *)
    let maxVel := 8 / 10 in
    let node := set_vx node (Rmax (- maxVel) (Rmin maxVel (vx node))) in
    let node := set_vy node (Rmax (- maxVel) (Rmin maxVel (vy node))) in
    ret node
  else ret node.

(** The glyph part of the body. *)
Definition refreshChar (now : R) (node : Node) : Gen Node :=
  let* u := Math_random rnd in
  if num_gt (now - lastCharUpdate node) (2000 + u * 3000)
  then
    let* c := randomNoiseChar in
    let* rgb := randomRGB in
    ret (set_glyph node c rgb now)
  else ret node.

Definition updateNode (deltaTime now canvasWidth canvasHeight : R) (node : Node)
  : Gen Node :=
  let* node := moveNode deltaTime canvasWidth canvasHeight node in
  refreshChar now node.

Definition updateNodes (this : Animation) (deltaTime now devicePixelRatio : R)
  : Gen Animation :=
  let canvasWidth := canvasWidth this devicePixelRatio in
  let canvasHeight := canvasHeight this devicePixelRatio in
  let* l := forEach (updateNode deltaTime now canvasWidth canvasHeight)
                    (nodes this) in
  ret (set_nodes this l).

(** ** [drawGradientConnection] *)

Definition drawStep (nodeA : Node) (strength dx dy : R) (steps i : Z)
  : Gen FillText :=
  let progress := IZR i / IZR steps in
  let x_ := x nodeA + dx * IZR i in
  let y_ := y nodeA + dy * IZR i in
  let grayValue :=
    Int_part (80 + (strength * progress * (1 - progress) * 4) * 100) in
  let alpha := strength * (4 / 10) in
  let* c := randomNoiseChar in
  ret (mkFillText grayValue alpha c x_ y_).

Definition drawGradientConnection (nodes : list Node) (connection : Connection)
  : Gen (list FillText) :=
  match (nodes !! nodeA connection : option Node),
        (nodes !! nodeB connection : option Node) with
  | Some nodeA, Some nodeB =>
      let strength := strength connection in
      let distance := getDistance nodeA nodeB in
      let steps := Int_part (distance / 8) in
      if (steps <? 2)%Z then ret []
      else
        let dx := (x nodeB - x nodeA) / IZR steps in
        let dy := (y nodeB - y nodeA) / IZR steps in
        mapGen (drawStep nodeA strength dx dy steps) (seqZ 1 (steps - 1))
  | _, _ => ret []
  end.

End Simulation.

(** ** The same properties for the standalone class *)

Lemma legacy_In_computeConnections nodes maxDistance c :
  In c (computeConnections nodes maxDistance) <->
  exists (i j : nat) (a b : Node),
    (i < j)%nat /\ nodes !! i = Some a /\ nodes !! j = Some b /\
    getDistance a b < maxDistance /\
    c = mkConnection i j (1 - getDistance a b / maxDistance).
Proof.
  unfold computeConnections. rewrite in_flat_map. split.
  - intros (i & _ & Hc). apply in_flat_map in Hc as (j & Hj & Hc).
    apply in_seq in Hj. unfold connectionBetween in Hc.
    destruct (nodes !! i) as [a|] eqn:Ea; [|destruct Hc].
    destruct (nodes !! j) as [b|] eqn:Eb; [|destruct Hc].
    cbv zeta in Hc. destruct (num_lt _ _) eqn:E; [|destruct Hc].
    apply num_lt_true in E. destruct Hc as [<- | []].
    exists i, j, a, b. repeat split; auto. lia.
  - intros (i & j & a & b & Hij & Hi & Hj & Hd & ->).
    pose proof (lookup_lt_Some _ _ _ Hi). pose proof (lookup_lt_Some _ _ _ Hj).
    exists i. split; [apply in_seq; lia|].
    apply in_flat_map. exists j. split; [apply in_seq; lia|].
    unfold connectionBetween. rewrite Hi, Hj. cbv zeta.
    rewrite (proj2 (num_lt_true _ _) Hd). left. reflexivity.
Qed.

(** C1 for the standalone class. *)
Lemma legacy_updateConnections_distance_threshold
    (this : Animation) (i j : nat) (a b : Node) :
  (i < j)%nat ->
  nodes this !! i = Some a ->
  nodes this !! j = Some b ->
  let conns := connections (updateConnections this) in
  let maxDistance := maxConnectionDistance this in
  ((exists s, In (mkConnection i j s) conns) <-> getDistance a b < maxDistance) /\
  (forall s, In (mkConnection i j s) conns ->
             s = 1 - getDistance a b / maxDistance /\ 0 < s <= 1).
Proof.
  intros Hij Ha Hb. cbv zeta. simpl. split; [split|].
  - intros [s Hs]. apply legacy_In_computeConnections in Hs
      as (i' & j' & a' & b' & _ & Ha' & Hb' & Hd & [= <- <- _]).
    congruence.
  - intros Hd. exists (1 - getDistance a b / maxConnectionDistance this).
    apply legacy_In_computeConnections. exists i, j, a, b. auto.
  - intros s Hs. apply legacy_In_computeConnections in Hs
      as (i' & j' & a' & b' & _ & Ha' & Hb' & Hd & [= <- <- ->]).
    assert (a' = a) by congruence. assert (b' = b) by congruence. subst.
    split; [reflexivity|]. apply strength_range.
    split; [apply sqrt_pos | exact Hd].
Qed.

(** C7 for the standalone class. *)
Lemma legacy_handleScroll_frameSkipMax_step (this : Animation) (scrollY : R) :
  let v := scrollVelocity (handleScroll this scrollY) in
  let threshold := frameSkipMax (handleScroll this scrollY) in
  v = Rabs (scrollY - lastScrollY this) /\
  (v > 20 -> threshold = 4%Z) /\
  (5 < v <= 20 -> threshold = 2%Z) /\
  (v <= 5 -> threshold = 1%Z).
Proof.
  unfold handleScroll; cbv zeta; simpl. unfold num_gt.
  split; [reflexivity|].
  num_cases; repeat split; intros; try reflexivity; lra.
Qed.

Definition velocityBounded (n : Node) : Prop :=
  Rabs (vx n) <= 8 / 10 /\ Rabs (vy n) <= 8 / 10.

Definition inBounds (w h : R) (n : Node) : Prop :=
  0 <= x n <= w /\ 0 <= y n <= h.

(** The position after integration and reflection. *)
Definition bounced (p v deltaTime bound : R) : R :=
  let p' := p + v * deltaTime * (2 / 100) in
  if num_le p' 0 || num_ge p' bound then Rmax 0 (Rmin bound p') else p'.

Lemma Rmax_Rmin_range lo hi v : lo <= hi -> lo <= Rmax lo (Rmin hi v) <= hi.
Proof.
  intros H. unfold Rmin. destruct (Rle_dec hi v); unfold Rmax;
    match goal with |- context [Rle_dec ?a ?b] => destruct (Rle_dec a b) end;
    lra.
Qed.

Lemma Rmax_Rmin_id lo hi v : lo <= v <= hi -> Rmax lo (Rmin hi v) = v.
Proof.
  intros H. unfold Rmin. destruct (Rle_dec hi v); unfold Rmax;
    match goal with |- context [Rle_dec ?a ?b] => destruct (Rle_dec a b) end;
    lra.
Qed.

Lemma legacy_updateNode_spec rnd dt now w h node k :
  let node' := fst (updateNode rnd dt now w h node k) in
  x node' = bounced (x node) (vx node) dt w /\
  y node' = bounced (y node) (vy node) dt h /\
  (Rabs (vx node') = Rabs (vx node) \/
   vx node' = Rmax (- (8 / 10)) (Rmin (8 / 10) (vx node'))) /\
  (Rabs (vy node') = Rabs (vy node) \/
   vy node' = Rmax (- (8 / 10)) (Rmin (8 / 10) (vy node'))).
Proof.
  cbv zeta. unfold updateNode. rewrite fst_bind.
  assert (Hr : forall n k0,
             let n' := fst (refreshChar rnd now n k0) in
             x n' = x n /\ y n' = y n /\ vx n' = vx n /\ vy n' = vy n).
  { intros n k0. unfold refreshChar, bind, Math_random; cbv zeta.
    destruct (num_gt _ _); simpl; repeat split; reflexivity. }
  destruct (Hr (fst (moveNode rnd dt w h node k))
               (snd (moveNode rnd dt w h node k))) as (-> & -> & -> & ->).
  assert (Hneg : forall v, Rabs (v * -1) = Rabs v).
  { intros v. replace (v * -1) with (- v) by ring. apply Rabs_Ropp. }
  assert (Hcl : forall v, Rmax (- (8 / 10)) (Rmin (8 / 10) v) =
                          Rmax (- (8 / 10)) (Rmin (8 / 10)
                               (Rmax (- (8 / 10)) (Rmin (8 / 10) v)))).
  { intros v. symmetry. apply Rmax_Rmin_id. apply Rmax_Rmin_range. lra. }
  unfold moveNode, bounced, bind, Math_random; cbv zeta. simpl.
  case_ifs; simpl; repeat split; auto.
Qed.

(** C3 for the standalone class. *)
Lemma legacy_updateNodes_velocityBounded rnd this deltaTime now dpr k :
  Forall velocityBounded (nodes this) ->
  Forall velocityBounded (nodes (fst (updateNodes rnd this deltaTime now dpr k))).
Proof.
  intros H. unfold updateNodes; cbv zeta. rewrite fst_bind. simpl.
  apply forEach_Forall; [|exact H].
  intros a k0 [Hx Hy].
  destruct (legacy_updateNode_spec rnd deltaTime now
              (canvasWidth this dpr) (canvasHeight this dpr) a k0)
    as (_ & _ & Vx & Vy). cbv zeta in *.
  assert (Hc : forall v, Rabs (Rmax (- (8 / 10)) (Rmin (8 / 10) v)) <= 8 / 10).
  { intros v. apply Rabs_le.
    pose proof (Rmax_Rmin_range (- (8 / 10)) (8 / 10) v). lra. }
  split.
  - destruct Vx as [-> | ->]; [exact Hx | apply Hc].
  - destruct Vy as [-> | ->]; [exact Hy | apply Hc].
Qed.

(** The standalone class keeps nodes on the canvas during updates. *)
Lemma legacy_updateNodes_inBounds rnd this deltaTime now dpr k :
  let w := canvasWidth this dpr in
  let h := canvasHeight this dpr in
  Forall (inBounds w h) (nodes this) ->
  Forall (inBounds w h) (nodes (fst (updateNodes rnd this deltaTime now dpr k))).
Proof.
  cbv zeta. intros H. unfold updateNodes; cbv zeta. rewrite fst_bind. simpl.
  apply forEach_Forall; [|exact H].
  intros a k0 [Hx Hy].
  destruct (legacy_updateNode_spec rnd deltaTime now
              (canvasWidth this dpr) (canvasHeight this dpr) a k0)
    as (Px & Py & _). cbv zeta in *.
  assert (Hb : forall p v bound, 0 <= bound ->
                 0 <= bounced p v deltaTime bound <= bound).
  { intros p v bound Hbd. unfold bounced; cbv zeta.
    destruct (num_le _ 0 || num_ge _ bound) eqn:E.
    - apply Rmax_Rmin_range; exact Hbd.
    - apply orb_false_iff in E as [E1 E2].
      apply num_le_false in E1. apply num_ge_false in E2. lra. }
  unfold inBounds. rewrite Px, Py. split; apply Hb; lra.
Qed.

(** C4 for the standalone class: with a time delta of zero the nodes
    on the canvas stay where they are. *)
Lemma legacy_updateNodes_zero_deltaTime rnd this now dpr k :
  Forall (inBounds (canvasWidth this dpr) (canvasHeight this dpr)) (nodes this) ->
  map (fun n => (x n, y n)) (nodes (fst (updateNodes rnd this 0 now dpr k)))
  = map (fun n => (x n, y n)) (nodes this).
Proof.
  intros H. unfold updateNodes; cbv zeta. rewrite fst_bind. simpl.
  apply forEach_map_preserved
    with (P := inBounds (canvasWidth this dpr) (canvasHeight this dpr)); auto.
  intros a k0 [Hx Hy].
  destruct (legacy_updateNode_spec rnd 0 now
              (canvasWidth this dpr) (canvasHeight this dpr) a k0)
    as (Px & Py & _). cbv zeta in *. rewrite Px, Py.
  assert (Hz : forall p v bound, 0 <= p <= bound -> bounced p v 0 bound = p).
  { intros p v bound Hp. unfold bounced; cbv zeta.
    replace (p + v * 0 * (2 / 100)) with p by ring.
    destruct (num_le p 0 || num_ge p bound); auto.
    apply Rmax_Rmin_id; exact Hp. }
  rewrite !Hz by assumption. reflexivity.
Qed.

(** C9 for the standalone class: the loop runs over the steps from 1
    to [steps - 1], that one included. *)
Lemma legacy_drawGradientConnection_steps rnd nodes c a b k :
  nodes !! nodeA c = Some a ->
  nodes !! nodeB c = Some b ->
  let steps := Int_part (getDistance a b / 8) in
  let calls := fst (drawGradientConnection rnd nodes c k) in
  ((steps < 2)%Z -> calls = []) /\
  ((2 <= steps)%Z ->
   length calls = Z.to_nat (steps - 1) /\
   forall i, (1 <= i < steps)%Z ->
     let progress := IZR i / IZR steps in
     calls !! Z.to_nat (i - 1) =
     Some (mkFillText
             (Int_part (80 + (strength c * progress * (1 - progress) * 4) * 100))
             (strength c * (4 / 10))
             (fst (randomNoiseChar rnd (k + Z.to_nat (i - 1))%nat))
             (x a + (x b - x a) / IZR steps * IZR i)
             (y a + (y b - y a) / IZR steps * IZR i))).
Proof.
  intros Ha Hb. cbv zeta. unfold drawGradientConnection. rewrite Ha, Hb. cbv zeta.
  destruct (Z.ltb_spec (Int_part (getDistance a b / 8)) 2) as [Hlt | Hge].
  - split; [reflexivity | lia].
  - split; [lia|]. intros _. split.
    + rewrite mapGen_length, length_seqZ. reflexivity.
    + intros i Hi. rewrite mapGen_lookup by reflexivity.
      rewrite lookup_seqZ_lt by lia. simpl.
      replace (1 + Z.of_nat (Z.to_nat (i - 1)))%Z with i by lia.
      reflexivity.
Qed.

End Legacy.

(* ================================================================== *)
(** * Further properties of the helpers of shared/utils/animation.ts *)
(* ================================================================== *)

(** ** [clamp] *)

Lemma clamp_cases (u min max : R) :
  min <= max ->
  clamp u min max =
  if Rle_dec u min then min else if Rle_dec u max then u else max.
Proof.
  intros H. unfold clamp, Rmax.
  destruct (Rle_dec u min); unfold Rmin;
    match goal with |- context [Rle_dec ?a ?b] => destruct (Rle_dec a b) end;
    try reflexivity; try lra.
Qed.

Lemma clamp_below (v min max : R) :
  min <= max -> v <= min -> clamp v min max = min.
Proof.
  intros H Hv. rewrite clamp_cases by exact H.
  destruct (Rle_dec v min); [reflexivity | lra].
Qed.

Lemma clamp_above (v min max : R) :
  min <= max -> max <= v -> clamp v min max = max.
Proof.
  intros H Hv. rewrite clamp_cases by exact H.
  destruct (Rle_dec v min); [lra|].
  destruct (Rle_dec v max); [lra | reflexivity].
Qed.

(** With [min <= max], [clamp] returns a value of [min, max], leaves the
    values of that interval alone, is idempotent and is monotone. *)
Theorem clamp_interval (v w min max : R) :
  min <= max ->
  min <= clamp v min max <= max /\
  (min <= v <= max -> clamp v min max = v) /\
  (v < min -> clamp v min max = min) /\
  (max < v -> clamp v min max = max) /\
  clamp (clamp v min max) min max = clamp v min max /\
  (v <= w -> clamp v min max <= clamp w min max).
Proof.
  intros H.
  assert (Hv := clamp_range v min max H).
  assert (Hw := clamp_range w min max H).
  split; [exact Hv|]. split; [apply clamp_id|].
  split; [|split; [|split]].
  - intros Hlt. apply clamp_below; lra.
  - intros Hlt. apply clamp_above; lra.
  - apply clamp_id. exact Hv.
  - intros Hvw. rewrite !clamp_cases by exact H.
    destruct (Rle_dec v min), (Rle_dec w min), (Rle_dec v max), (Rle_dec w max);
      lra.
Qed.

(** [clamp] on the velocity interval of the simulation. *)
Lemma clamp_interval_witness :
  - (8 / 10) <= clamp (9 / 10) (- (8 / 10)) (8 / 10) <= 8 / 10 /\
  clamp (9 / 10) (- (8 / 10)) (8 / 10) = 8 / 10.
Proof.
  destruct (clamp_interval (9 / 10) 1 (- (8 / 10)) (8 / 10)) as (H1 & _ & _ & H4 & _);
    [lra|].
  split; [exact H1 | apply H4; lra].
Defined.

(** ** [lerp] *)

(** [lerp] returns [start] for a factor of 0 and whenever [start] and
    [end] are the same number; for a factor that is not negative the
    result is on the side of [start] on which [end] lies; and the
    result follows the factor towards [end]: it does not decrease in
    the factor when [start <= end] and does not increase when
    [end <= start]. *)
Theorem lerp_towards_end (start end_ factor factor' : R) :
  lerp start end_ 0 = start /\
  lerp start start factor = start /\
  (0 <= factor ->
   (start <= end_ -> start <= lerp start end_ factor) /\
   (end_ <= start -> lerp start end_ factor <= start)) /\
  (factor <= factor' ->
   (start <= end_ -> lerp start end_ factor <= lerp start end_ factor') /\
   (end_ <= start -> lerp start end_ factor' <= lerp start end_ factor)).
Proof.
  unfold lerp. split; [ring|]. split; [ring|]. split.
  - intros Hf. split; intros H; nra.
  - intros Hf. split; intros H; nra.
Qed.

Lemma lerp_towards_end_witness :
  10 <= lerp 10 20 (1 / 4) /\ lerp 10 20 (1 / 4) <= lerp 10 20 (1 / 2).
Proof.
  destruct (lerp_towards_end 10 20 (1 / 4) (1 / 2)) as (_ & _ & H3 & H4).
  split; [apply H3; lra | apply H4; lra].
Defined.

(** ** The easing functions *)

(** The functions of the [easing] object.  [(--t) * t * t] decrements
    [t] before any factor is read. *)
Module easing.

Definition linear (t : R) : R := t.
Definition easeInQuad (t : R) : R := t * t.
Definition easeOutQuad (t : R) : R := t * (2 - t).
Definition easeInOutQuad (t : R) : R :=
  if num_lt t (5 / 10) then 2 * t * t else -1 + (4 - 2 * t) * t.
Definition easeInCubic (t : R) : R := t * t * t.
Definition easeOutCubic (t : R) : R :=
  let t := t - 1 in t * t * t + 1.
Definition easeInOutCubic (t : R) : R :=
  if num_lt t (5 / 10) then 4 * t * t * t
  else (t - 1) * (2 * t - 2) * (2 * t - 2) + 1.
Definition easeInQuart (t : R) : R := t * t * t * t.
Definition easeOutQuart (t : R) : R :=
  let t := t - 1 in 1 - t * t * t * t.
Definition easeInOutQuart (t : R) : R :=
  if num_lt t (5 / 10) then 8 * t * t * t * t
  else let t := t - 1 in 1 - 8 * t * t * t * t.

Definition all : list (R -> R) :=
  [linear; easeInQuad; easeOutQuad; easeInOutQuad; easeInCubic; easeOutCubic;
   easeInOutCubic; easeInQuart; easeOutQuart; easeInOutQuart].

End easing.

(** A function of [0, 1] onto itself that fixes both ends and does not
    decrease. *)
Definition easesUnitInterval (f : R -> R) : Prop :=
  f 0 = 0 /\ f 1 = 1 /\
  (forall t, 0 <= t <= 1 -> 0 <= f t <= 1) /\
  (forall t u, 0 <= t -> t <= u -> u <= 1 -> f t <= f u).

Lemma cube_monotone a c : a <= c -> a * a * a <= c * c * c.
Proof.
  intros H.
  assert (0 <= (c - a) * (a * a + a * c + c * c)); [|nra].
  apply Rmult_le_pos; nra.
Qed.

Lemma fourth_monotone a c : 0 <= a -> a <= c -> a * a * a * a <= c * c * c * c.
Proof.
  intros Ha H.
  assert (a * a <= c * c) by nra.
  assert (0 <= a * a) by nra. nra.
Qed.

Lemma fourth_antitone a c : a <= c -> c <= 0 -> c * c * c * c <= a * a * a * a.
Proof.
  intros H Hc.
  replace (c * c * c * c) with ((- c) * (- c) * (- c) * (- c)) by ring.
  replace (a * a * a * a) with ((- a) * (- a) * (- a) * (- a)) by ring.
  apply fourth_monotone; lra.
Qed.

(** Every easing function maps 0 to 0 and 1 to 1, keeps [0, 1] within
    [0, 1] and is monotone there. *)
Theorem easing_unit_interval : Forall easesUnitInterval easing.all.
Proof.
  unfold easing.all.
  repeat first [apply List.Forall_cons | apply List.Forall_nil];
    unfold easesUnitInterval.
  - unfold easing.linear. repeat split; intros; lra.
  - unfold easing.easeInQuad. repeat split; intros; nra.
  - unfold easing.easeOutQuad. repeat split; intros; nra.
  - unfold easing.easeInOutQuad. repeat split.
    + num_decide. lra.
    + num_decide. lra.
    + num_cases; nra.
    + num_cases; nra.
    + intros t u Ht Htu Hu. num_cases; nra.
  - unfold easing.easeInCubic. repeat split; intros; try lra.
    + assert (0 <= t * t) by nra. nra.
    + assert (t * t <= 1) by nra. assert (0 <= t * t) by nra. nra.
    + apply cube_monotone. assumption.
  - unfold easing.easeOutCubic; cbv zeta. repeat split; intros; try lra.
    + assert (0 <= (t - 1) * (t - 1) <= 1) by nra. nra.
    + assert (0 <= (t - 1) * (t - 1) <= 1) by nra. nra.
    + pose proof (cube_monotone (t - 1) (u - 1)). lra.
  - unfold easing.easeInOutCubic. repeat split.
    + num_decide. lra.
    + num_decide. lra.
    + num_cases; [assert (0 <= t * t) by nra; nra|].
      assert (0 <= (t - 1) * (t - 1) <= 1 / 4) by nra. nra.
    + num_cases; [assert (0 <= t * t <= 1 / 4) by nra; nra|].
      assert (0 <= (t - 1) * (t - 1)) by nra. nra.
    + intros t u Ht Htu Hu. num_cases.
      * pose proof (cube_monotone t u Htu). lra.
      * assert (0 <= t * t <= 1 / 4) by nra.
        assert (0 <= (u - 1) * (u - 1) <= 1 / 4) by nra. nra.
      * lra.
      * pose proof (cube_monotone (t - 1) (u - 1)).
        replace ((t - 1) * (2 * t - 2) * (2 * t - 2))
          with (4 * ((t - 1) * (t - 1) * (t - 1))) by ring.
        replace ((u - 1) * (2 * u - 2) * (2 * u - 2))
          with (4 * ((u - 1) * (u - 1) * (u - 1))) by ring.
        lra.
  - unfold easing.easeInQuart. repeat split; intros; try lra.
    + assert (0 <= t * t) by nra. nra.
    + assert (0 <= t * t <= 1) by nra. nra.
    + apply fourth_monotone; assumption.
  - unfold easing.easeOutQuart; cbv zeta. repeat split; intros; try lra.
    + assert (0 <= (t - 1) * (t - 1) <= 1) by nra. nra.
    + assert (0 <= (t - 1) * (t - 1) <= 1) by nra. nra.
    + pose proof (fourth_antitone (t - 1) (u - 1)). lra.
  - unfold easing.easeInOutQuart. repeat split.
    + num_decide. lra.
    + num_decide. lra.
    + num_cases; cbv zeta; [assert (0 <= t * t) by nra; nra|].
      assert (0 <= (t - 1) * (t - 1) <= 1 / 4) by nra. nra.
    + num_cases; cbv zeta; [assert (0 <= t * t <= 1 / 4) by nra; nra|].
      assert (0 <= (t - 1) * (t - 1)) by nra. nra.
    + intros t u Ht Htu Hu. num_cases; cbv zeta.
      * pose proof (fourth_monotone t u Ht Htu). lra.
      * assert (0 <= t * t <= 1 / 4) by nra.
        assert (0 <= (u - 1) * (u - 1) <= 1 / 4) by nra. nra.
      * lra.
      * pose proof (fourth_antitone (t - 1) (u - 1)). lra.
Qed.

(** ** [distance] *)

Lemma sqrt_eq_0_iff v : 0 <= v -> (sqrt v = 0 <-> v = 0).
Proof.
  intros Hv; split; intros H.
  - apply sqrt_eq_0; assumption.
  - rewrite H. apply sqrt_0.
Qed.

(** [distance] is symmetric, is zero exactly between a point and
    itself, obeys the triangle inequality, and [getDistance] of the
    standalone class computes the same number. *)
Theorem distance_metric (p q s : Point) (a c : Legacy.Node) :
  distance p q = distance q p /\
  0 <= distance p q /\
  (distance p q = 0 <-> px p = px q /\ py p = py q) /\
  distance p s <= distance p q + distance q s /\
  Legacy.getDistance a c =
    distance (mkPoint (Legacy.x a) (Legacy.y a)) (mkPoint (Legacy.x c) (Legacy.y c)).
Proof.
  assert (N : forall u v, 0 <= u * u + v * v).
  { intros u v. pose proof (Rle_0_sqr u). pose proof (Rle_0_sqr v).
    unfold Rsqr in *. lra. }
  split; [|split; [|split; [|split]]].
  - unfold distance; cbv zeta. f_equal. ring.
  - apply distance_nonneg.
  - unfold distance; cbv zeta. rewrite sqrt_eq_0_iff by apply N. split.
    + intros H.
      pose proof (Rle_0_sqr (px q - px p)). pose proof (Rle_0_sqr (py q - py p)).
      unfold Rsqr in *.
      assert (E1 : (px q - px p) * (px q - px p) = 0) by lra.
      assert (E2 : (py q - py p) * (py q - py p) = 0) by lra.
      apply Rmult_integral in E1. apply Rmult_integral in E2.
      split; [destruct E1 | destruct E2]; lra.
    + intros [-> ->]. ring.
  - unfold distance; cbv zeta.
    set (a1 := px q - px p). set (b1 := py q - py p).
    set (a2 := px s - px q). set (b2 := py s - py q).
    replace (px s - px p) with (a1 + a2) by (unfold a1, a2; ring).
    replace (py s - py p) with (b1 + b2) by (unfold b1, b2; ring).
    set (m := sqrt (a1 * a1 + b1 * b1)). set (n := sqrt (a2 * a2 + b2 * b2)).
    assert (Hm : 0 <= m) by apply sqrt_pos.
    assert (Hn : 0 <= n) by apply sqrt_pos.
    assert (Em : m * m = a1 * a1 + b1 * b1) by (apply sqrt_sqrt; apply N).
    assert (En : n * n = a2 * a2 + b2 * b2) by (apply sqrt_sqrt; apply N).
    apply sqrt_le_iff; [apply N | lra |].
    clearbody m n. clearbody a1 b1 a2 b2.
    assert (Hcs : a1 * a2 + b1 * b2 <= m * n).
    { destruct (Rle_dec (a1 * a2 + b1 * b2) 0) as [Hneg | Hpos].
      - apply Rle_trans with 0; [exact Hneg | apply Rmult_le_pos; assumption].
      - apply Rnot_le_lt in Hpos.
        assert (Hsq : (a1 * a2 + b1 * b2) * (a1 * a2 + b1 * b2) <= (m * n) * (m * n)).
        { replace ((m * n) * (m * n)) with ((m * m) * (n * n)) by ring.
          rewrite Em, En.
          pose proof (Rle_0_sqr (a1 * b2 - a2 * b1)) as Hd. unfold Rsqr in Hd.
          replace ((a1 * a1 + b1 * b1) * (a2 * a2 + b2 * b2))
            with ((a1 * a2 + b1 * b2) * (a1 * a2 + b1 * b2) +
                  (a1 * b2 - a2 * b1) * (a1 * b2 - a2 * b1)) by ring.
          lra. }
        assert (Hmn : 0 <= m * n) by (apply Rmult_le_pos; assumption).
        destruct (Rle_dec (a1 * a2 + b1 * b2) (m * n)) as [Hok | Hno];
          [exact Hok|].
        apply Rnot_le_lt in Hno. exfalso.
        assert ((m * n) * (m * n) < (a1 * a2 + b1 * b2) * (a1 * a2 + b1 * b2)).
        { apply Rmult_le_0_lt_compat; lra. }
        lra. }
    replace ((a1 + a2) * (a1 + a2) + (b1 + b2) * (b1 + b2))
      with ((a1 * a1 + b1 * b1) + (a2 * a2 + b2 * b2) + 2 * (a1 * a2 + b1 * b2))
      by ring.
    rewrite <- Em, <- En. replace ((m + n) * (m + n)) with (m * m + n * n + 2 * (m * n)) by ring.
    lra.
  - unfold Legacy.getDistance, distance; cbv zeta. simpl. f_equal. ring.
Qed.

(** ** Ranges of the random helpers *)

(** [Math.floor(Math.random() * n)] is one of [0, ..., n - 1]. *)
Lemma floor_random_range (u : R) (n : Z) :
  0 <= u < 1 -> (1 <= n)%Z -> (0 <= Int_part (u * IZR n) < n)%Z.
Proof.
  intros [H0 H1] Hn. apply IZR_le in Hn.
  destruct (base_Int_part (u * IZR n)) as [Hle Hgt].
  assert (Hr : 0 <= u * IZR n < IZR n) by nra.
  split.
  - assert (Hlt : (-1 < Int_part (u * IZR n))%Z) by (apply lt_IZR; lra). lia.
  - apply lt_IZR. lra.
Qed.

(** [randomGrayscale(min, max)]: the channel value of the colour
    [rgb(value, value, value)] it returns. *)
Definition randomGrayscale (rnd : nat -> R) (min max : R) : Gen R :=
  let* u := Math_random rnd in
  ret (IZR (Int_part (u * (max - min + 1))) + min).

Lemma randomNoiseChar_alphabet (rnd : nat -> R) (k : nat) :
  (forall j, 0 <= rnd j < 1) ->
  exists i, fst (randomNoiseChar rnd k) = NoiseChar i /\
            (0 <= i < NOISE_CHARS_length)%Z.
Proof.
  intros Hr. unfold randomNoiseChar. simpl.
  pose proof (floor_random_range (rnd k) NOISE_CHARS_length (Hr k)
                ltac:(unfold NOISE_CHARS_length; lia)) as Hi.
  exists (Int_part (rnd k * IZR NOISE_CHARS_length)). split; [|exact Hi].
  destruct (Z.leb_spec 0 (Int_part (rnd k * IZR NOISE_CHARS_length))); [|lia].
  destruct (Z.ltb_spec (Int_part (rnd k * IZR NOISE_CHARS_length))
                       NOISE_CHARS_length); [reflexivity | lia].
Qed.

(** With draws of [0, 1): [randomNoiseChar] returns a character of the
    alphabet, never the fallback; the channels of [randomRGB] are
    integers from 0 to 255; [randomGrayscale] stays from [min] to below
    [max + 1], at a whole number of steps above [min]; and the helpers
    of the standalone class ([TextUtils], [ColorUtils]) have the same
    ranges. *)
Theorem random_helpers_ranges (rnd : nat -> R) (k : nat) (min max : R) :
  (forall j, 0 <= rnd j < 1) ->
  (exists i, fst (randomNoiseChar rnd k) = NoiseChar i /\
             (0 <= i < NOISE_CHARS_length)%Z) /\
  (let c := fst (randomRGB rnd k) in
   (0 <= r c <= 255)%Z /\ (0 <= g c <= 255)%Z /\ (0 <= b c <= 255)%Z) /\
  (min <= max ->
   let v := fst (randomGrayscale rnd min max k) in
   min <= v < max + 1 /\ exists n : Z, v = min + IZR n) /\
  (exists i, fst (Legacy.randomNoiseChar rnd k) = NoiseChar i /\
             (0 <= i < NOISE_CHARS_length)%Z) /\
  (let c := fst (Legacy.randomRGB rnd k) in
   (0 <= r c <= 255)%Z /\ (0 <= g c <= 255)%Z /\ (0 <= b c <= 255)%Z).
Proof.
  intros Hr.
  assert (F : forall j n, (1 <= n)%Z -> (0 <= Int_part (rnd j * IZR n) < n)%Z).
  { intros j n Hn. apply floor_random_range; auto. }
  split; [|split; [|split; [|split]]].
  - apply randomNoiseChar_alphabet, Hr.
  - cbv zeta. unfold randomRGB. rewrite !fst_bind. simpl.
    pose proof (F k 256%Z ltac:(lia)).
    pose proof (F (S k) 256%Z ltac:(lia)).
    pose proof (F (S (S k)) 256%Z ltac:(lia)). lia.
  - intros Hm. cbv zeta. unfold randomGrayscale. rewrite fst_bind. simpl.
    destruct (base_Int_part (rnd k * (max - min + 1))) as [Hle Hgt].
    pose proof (Hr k) as [H0 H1].
    assert (0 <= rnd k * (max - min + 1) < max - min + 1) by nra.
    split.
    + assert (Hlt : (-1 < Int_part (rnd k * (max - min + 1)))%Z)
        by (apply lt_IZR; lra).
      assert (0 <= IZR (Int_part (rnd k * (max - min + 1))))
        by (apply IZR_le; lia).
      lra.
    + exists (Int_part (rnd k * (max - min + 1))). ring.
  - unfold Legacy.randomNoiseChar, Legacy.randomIntBetween.
    rewrite !fst_bind. simpl.
    replace (NOISE_CHARS_length - 1 - 0 + 1)%Z with NOISE_CHARS_length by lia.
    pose proof (F k NOISE_CHARS_length ltac:(unfold NOISE_CHARS_length; lia)) as Hi.
    exists (Int_part (rnd k * IZR NOISE_CHARS_length) + 0)%Z.
    split; [|lia].
    destruct (Z.leb_spec 0 (Int_part (rnd k * IZR NOISE_CHARS_length) + 0)); [|lia].
    destruct (Z.ltb_spec (Int_part (rnd k * IZR NOISE_CHARS_length) + 0)
                         NOISE_CHARS_length); [reflexivity | lia].
  - cbv zeta. unfold Legacy.randomRGB, Legacy.randomIntBetween.
    rewrite !fst_bind. simpl. change (255 - 0 + 1)%Z with 256%Z.
    pose proof (F k 256%Z ltac:(lia)).
    pose proof (F (S k) 256%Z ltac:(lia)).
    pose proof (F (S (S k)) 256%Z ltac:(lia)). lia.
Qed.

(** The ranges with every draw equal to one half and the default
    bounds 80 and 255 of [randomGrayscale]. *)
Lemma random_helpers_ranges_witness :
  (exists i, fst (randomNoiseChar rndHalf 0%nat) = NoiseChar i /\
             (0 <= i < NOISE_CHARS_length)%Z) /\
  80 <= fst (randomGrayscale rndHalf 80 255 0%nat) < 255 + 1.
Proof.
  destruct (random_helpers_ranges rndHalf 0%nat 80 255) as (H1 & _ & H3 & _).
  - intros j. unfold rndHalf. lra.
  - split; [exact H1|]. apply H3. lra.
Defined.

(* ================================================================== *)
(** * Further properties of the pointer handlers *)
(* ================================================================== *)

(** The distance that [findNodeAtPosition] compares with the tolerance. *)
Definition pointerDistance (x_ y_ : R) (node : Node) : R :=
  sqrt ((x_ - x node) ^ 2 + (y_ - y node) ^ 2).

Lemma findNodeFrom_first_match l i0 x_ y_ :
  match findNodeFrom l i0 x_ y_ with
  | Some i =>
      (i0 <= i)%nat /\
      exists node,
        l !! (i - i0)%nat = Some node /\
        pointerDistance x_ y_ node <= tolerance /\
        forall j m, (j < i - i0)%nat -> l !! j = Some m ->
                    tolerance < pointerDistance x_ y_ m
  | None =>
      forall j m, l !! j = Some m -> tolerance < pointerDistance x_ y_ m
  end.
Proof.
  revert i0; induction l as [|node l IH]; intros i0; cbn [findNodeFrom].
  - intros j m H. discriminate H.
  - cbv zeta. fold (pointerDistance x_ y_ node).
    destruct (num_le (pointerDistance x_ y_ node) tolerance) eqn:E.
    + apply num_le_true in E. split; [lia|]. exists node.
      replace (i0 - i0)%nat with 0%nat by lia.
      split; [reflexivity|]. split; [exact E|]. intros j m Hj. lia.
    + apply num_le_false in E. specialize (IH (S i0)).
      destruct (findNodeFrom l (S i0) x_ y_) as [i|].
      * destruct IH as (Hi & n & Hn & Hd & Hbefore). split; [lia|].
        exists n. replace (i - i0)%nat with (S (i - S i0)) by lia.
        split; [exact Hn|]. split; [exact Hd|].
        intros [|j] m Hj Hm.
        -- injection Hm as <-. exact E.
        -- apply (Hbefore j m); [lia | exact Hm].
      * intros [|j] m Hm.
        -- injection Hm as <-. exact E.
        -- apply (IH j m Hm).
Qed.

(** [findNodeAtPosition] returns the first node of the array that lies
    within the tolerance of 25 pixels: every node before it is farther
    away, whether or not a later node is nearer; it returns [null] only
    when every node is farther than the tolerance. *)
Theorem findNodeAtPosition_first_match (this : Animation) (x_ y_ : R) :
  match findNodeAtPosition this x_ y_ with
  | Some i =>
      exists node,
        nodes this !! i = Some node /\
        pointerDistance x_ y_ node <= 25 /\
        forall j m, (j < i)%nat -> nodes this !! j = Some m ->
                    25 < pointerDistance x_ y_ m
  | None =>
      forall j m, nodes this !! j = Some m -> 25 < pointerDistance x_ y_ m
  end.
Proof.
  unfold findNodeAtPosition.
  pose proof (findNodeFrom_first_match (nodes this) 0 x_ y_) as H.
  unfold tolerance in H.
  destruct (findNodeFrom (nodes this) 0 x_ y_) as [i|]; [|exact H].
  destruct H as (_ & node & Hn & Hd & Hb).
  rewrite Nat.sub_0_r in Hn, Hb. exists node. auto.
Qed.

(** Where a move event is on the canvas, and the device pixel ratio it
    is handled with; a touch move counts with a single touch only. *)
Definition movePoint (e : Event) : option (R * R * R) :=
  match e with
  | MouseMove event rect dpr =>
      Some (clientX event - rect_left rect, clientY event - rect_top rect, dpr)
  | TouchMove event rect dpr =>
      match touches event with
      | [touch] =>
          Some (clientX touch - rect_left rect, clientY touch - rect_top rect, dpr)
      | _ => None
      end
  | _ => None
  end.

Lemma press_offset rnd this press x_ y_ i node k :
  pressPoint press = Some (x_, y_) ->
  findNodeAtPosition this x_ y_ = Some i ->
  nodes this !! i = Some node ->
  let pressed := fst (dispatch rnd this press k) in
  mouseOffset pressed = mkPoint (x_ - x node) (y_ - y node) /\
  width (canvas pressed) = width (canvas this) /\
  height (canvas pressed) = height (canvas this).
Proof.
  intros Hp Hf Hn. cbv zeta.
  assert (B : forall a c,
             mouseOffset (beginDrag this i a c) = mkPoint (a - x node) (c - y node) /\
             canvas (beginDrag this i a c) = canvas this).
  { intros a c. unfold beginDrag. rewrite Hn. cbv zeta.
    unfold modifyNode. simpl. rewrite Hn. simpl. auto. }
  destruct press; try discriminate Hp; cbn [dispatch ret fst snd].
  - injection Hp as <- <-. unfold handleMouseDown. cbv zeta. rewrite Hf.
    destruct (B (clientX event - rect_left rect) (clientY event - rect_top rect))
      as [Ho Hc].
    simpl. rewrite Ho, Hc. auto.
  - simpl in Hp. destruct (touches event) as [|touch [|? ?]] eqn:Et;
      try discriminate Hp.
    injection Hp as <- <-. unfold handleTouchStart. rewrite Et. simpl.
    unfold findNodeAtPosition in *. rewrite Hf.
    destruct (B (clientX touch - rect_left rect) (clientY touch - rect_top rect))
      as [Ho Hc].
    rewrite Ho, Hc. auto.
Qed.

Lemma move_state rnd this move x_ y_ dpr i k :
  movePoint move = Some (x_, y_, dpr) ->
  this_isDragging this = true ->
  draggedNode this = Some i ->
  nodes (fst (dispatch rnd this move k)) = nodes (dragTo this i x_ y_ dpr).
Proof.
  intros Hm Hb Hd.
  destruct move; try discriminate Hm; cbn [dispatch ret fst snd].
  - injection Hm as <- <- <-. unfold handleMouseMove. cbv zeta. simpl.
    rewrite Hb, Hd. unfold dragTo, modifyNode. simpl.
    destruct (nodes this !! i); reflexivity.
  - simpl in Hm. destruct (touches event) as [|touch [|? ?]] eqn:Et;
      try discriminate Hm.
    injection Hm as <- <- <-. unfold handleTouchMove. rewrite Et, Hb, Hd.
    simpl. reflexivity.
Qed.

(** A press on node N followed by a move of the pointer carries N
    along: N goes to its old position plus the displacement of the
    pointer, clamped to the canvas on each axis, so it is on the canvas
    whenever the canvas has a width and a height that are not negative;
    it stays at rest and marked as dragged, and no other node changes. *)
Theorem drag_follows_pointer (rnd : nat -> R) (this : Animation)
    (press move : Event) (x0 y0 x1 y1 dpr : R) (i : nat) (node : Node) (k : nat) :
  pressPoint press = Some (x0, y0) ->
  movePoint move = Some (x1, y1, dpr) ->
  findNodeAtPosition this x0 y0 = Some i ->
  nodes this !! i = Some node ->
  let after := fst (run rnd this [press; move] k) in
  let w := canvasWidth this dpr in
  let h := canvasHeight this dpr in
  exists node',
    nodes after !! i = Some node' /\
    x node' = clamp (x node + (x1 - x0)) 0 w /\
    y node' = clamp (y node + (y1 - y0)) 0 h /\
    vx node' = 0 /\ vy node' = 0 /\
    isDragging node' = Some true /\
    (0 <= w -> 0 <= h -> inBounds w h node') /\
    (forall j, j <> i -> nodes after !! j = nodes this !! j).
Proof.
  intros Hp Hm Hf Hn. cbv zeta.
  pose proof (press_state rnd this press x0 y0 i node k Hp Hf Hn)
    as (Hk & Pn & Pb & Pd).
  pose proof (press_offset rnd this press x0 y0 i node k Hp Hf Hn)
    as (Po & Pw & Ph).
  cbv zeta in *.
  assert (Hi : (i < length (nodes this))%nat) by (eapply lookup_lt_Some; eauto).
  cbn [run]. rewrite !fst_bind. cbn [ret fst]. rewrite Hk.
  set (pressed := fst (dispatch rnd this press k)) in *.
  rewrite (move_state rnd pressed move x1 y1 dpr i k Hm Pb Pd).
  assert (Pl : nodes pressed !! i = Some (grabNode node)).
  { rewrite Pn. apply list_lookup_insert_eq. exact Hi. }
  unfold dragTo; cbv zeta. unfold modifyNode. rewrite Pl. simpl.
  rewrite Po. simpl.
  unfold canvasWidth, canvasHeight. rewrite Pw, Ph.
  eexists. split.
  { apply list_lookup_insert_eq. rewrite Pn, length_insert. exact Hi. }
  simpl.
  replace (x1 - (x0 - x node)) with (x node + (x1 - x0)) by ring.
  replace (y1 - (y0 - y node)) with (y node + (y1 - y0)) by ring.
  repeat split; auto.
  - apply clamp_range; assumption.
  - apply clamp_range; assumption.
  - apply clamp_range; assumption.
  - apply clamp_range; assumption.
  - intros j Hj. rewrite list_lookup_insert_ne by auto.
    rewrite Pn. rewrite list_lookup_insert_ne by auto. reflexivity.
Qed.

(** The sliding node pressed at (210, 195) and drawn far to the right,
    beyond the canvas, to x = 1000: it stops at the right edge. *)
Lemma drag_follows_pointer_witness :
  exists node',
    nodes (fst (run rndHalf slidingNode
                  [MouseDown (mkClientXY 210 195) windowRect;
                   MouseMove (mkClientXY 1000 195) windowRect 1] 0%nat))
      !! 0%nat = Some node' /\
    x node' = 800 /\ y node' = 200.
Proof.
  assert (Hf : findNodeAtPosition slidingNode (210 - 0) (195 - 0) = Some 0%nat).
  { unfold findNodeAtPosition. simpl nodes.
    apply findNodeFrom_hit. simpl. lra. }
  destruct (drag_follows_pointer rndHalf slidingNode
              (MouseDown (mkClientXY 210 195) windowRect)
              (MouseMove (mkClientXY 1000 195) windowRect 1)
              (210 - 0) (195 - 0) (1000 - 0) (195 - 0) 1 0%nat
              (mkNode 200 200 (3 / 10) 0 QuestionMark (mkRGB 0 0 0) 0
                      None None None) 0%nat
              eq_refl eq_refl Hf eq_refl)
    as (node' & Hl & Hx & Hy & _).
  exists node'. split; [exact Hl|]. simpl in Hx, Hy.
  unfold canvasWidth, canvasHeight in *. simpl in Hx, Hy.
  split.
  - rewrite Hx. rewrite (num_or_nonzero 1 1) by lra.
    rewrite clamp_above by lra. lra.
  - rewrite Hy. rewrite (num_or_nonzero 1 1) by lra.
    rewrite clamp_id; lra.
Defined.

(** Pointer input that meets no node, or more than one finger, is
    ignored: a press that finds no node within the tolerance, a touch
    start or touch move that does not carry exactly one touch, and a
    touch move outside a drag leave the component as it is; a mouse
    move outside a drag records the mouse position and sets the cursor
    ([grab] over a node, [default] otherwise) and nothing else. *)
Theorem pointer_input_without_target (this : Animation) (mouse : MouseEvent)
    (touch : TouchEvent) (rect : DOMRect) (dpr : R) :
  let x_ := clientX mouse - rect_left rect in
  let y_ := clientY mouse - rect_top rect in
  (findNodeAtPosition this x_ y_ = None ->
   handleMouseDown this mouse rect = this) /\
  (length (touches touch) <> 1%nat ->
   handleTouchStart this touch rect = this /\
   handleTouchMove this touch rect dpr = this) /\
  (this_isDragging this = false \/ draggedNode this = None ->
   handleTouchMove this touch rect dpr = this /\
   let moved := handleMouseMove this mouse rect dpr in
   nodes moved = nodes this /\
   this_isDragging moved = this_isDragging this /\
   draggedNode moved = draggedNode this /\
   mouseOffset moved = mouseOffset this /\
   mousePosition moved = mkPoint x_ y_ /\
   style_cursor (canvas moved) =
     match findNodeAtPosition this x_ y_ with
     | Some _ => cursor_grab
     | None => cursor_default
     end).
Proof.
  cbv zeta. split; [|split].
  - intros H. unfold handleMouseDown; cbv zeta. rewrite H. reflexivity.
  - intros H. unfold handleTouchStart, handleTouchMove.
    destruct (Nat.eqb_spec (length (touches touch)) 1); [contradiction|].
    split; reflexivity.
  - intros H. split.
    + unfold handleTouchMove.
      destruct (length (touches touch) =? 1)%nat; [|reflexivity].
      destruct H as [-> | ->]; [reflexivity|].
      destruct (this_isDragging this); reflexivity.
    + unfold handleMouseMove; cbv zeta. simpl.
      assert (F : findNodeAtPosition
                    (set_mousePosition this
                       (mkPoint (clientX mouse - rect_left rect)
                                (clientY mouse - rect_top rect)))
                    (clientX mouse - rect_left rect)
                    (clientY mouse - rect_top rect)
                  = findNodeAtPosition this (clientX mouse - rect_left rect)
                                       (clientY mouse - rect_top rect))
        by reflexivity.
      rewrite F.
      destruct (this_isDragging this) eqn:Eb, (draggedNode this) eqn:Ed;
        try (destruct H; discriminate);
        destruct (findNodeAtPosition this _ _); simpl; repeat split; auto.
Qed.

(** A click far from the two nodes, and a touch with two fingers. *)
Lemma pointer_input_without_target_witness :
  handleMouseDown twoNodes (mkClientXY 600 100) windowRect = twoNodes /\
  handleTouchStart twoNodes
    (mkTouchEvent [mkClientXY 100 100; mkClientXY 300 300]) windowRect
  = twoNodes.
Proof.
  pose proof (pointer_input_without_target twoNodes (mkClientXY 600 100)
                (mkTouchEvent [mkClientXY 100 100; mkClientXY 300 300])
                windowRect 1) as (H1 & H2 & _).
  split.
  - apply H1. unfold findNodeAtPosition. simpl.
    rewrite !num_le_sqrt_tolerance_false by lra. reflexivity.
  - apply H2. simpl. lia.
Defined.

Lemma endDrag_idle rnd this k :
  this_isDragging this = false \/ draggedNode this = None ->
  nodes (fst (endDrag rnd this k)) = nodes this /\
  snd (endDrag rnd this k) = k.
Proof.
  intros H. unfold endDrag, bind.
  destruct H as [-> | ->]; [|destruct (this_isDragging this)]; simpl; auto.
Qed.

Lemma endDrag_flags rnd this k :
  this_isDragging (fst (endDrag rnd this k)) = false /\
  draggedNode (fst (endDrag rnd this k)) = None.
Proof.
  unfold endDrag. rewrite fst_bind. simpl. auto.
Qed.

Lemma release_dispatch rnd this r k :
  isRelease r = true ->
  nodes (fst (dispatch rnd this r k)) = nodes (fst (endDrag rnd this k)) /\
  snd (dispatch rnd this r k) = snd (endDrag rnd this k) /\
  this_isDragging (fst (dispatch rnd this r k)) = false /\
  draggedNode (fst (dispatch rnd this r k)) = None.
Proof.
  intros Hr. pose proof (endDrag_flags rnd this k) as [Hb Hd].
  destruct r; try discriminate Hr; cbn [dispatch];
    unfold handleMouseUp, handleTouchEnd, bind;
    destruct (endDrag rnd this k) as [s k1]; simpl in *; auto.
Qed.

(** A release (mouse up, mouse leave, touch end) outside a drag changes
    no node and draws no random number; after any release the component
    is idle, so that a second release, of either kind, changes no node
    and draws nothing either. *)
Theorem release_outside_drag (rnd : nat -> R) (this : Animation)
    (r r' : Event) (k : nat) :
  isRelease r = true ->
  isRelease r' = true ->
  (this_isDragging this = false \/ draggedNode this = None ->
   nodes (fst (dispatch rnd this r k)) = nodes this /\
   snd (dispatch rnd this r k) = k) /\
  (let once := dispatch rnd this r k in
   let twice := dispatch rnd (fst once) r' (snd once) in
   this_isDragging (fst once) = false /\ draggedNode (fst once) = None /\
   nodes (fst twice) = nodes (fst once) /\ snd twice = snd once /\
   nodes (fst (run rnd this [r; r'] k)) = nodes (fst once)).
Proof.
  intros Hr Hr'. split.
  - intros Hidle.
    destruct (release_dispatch rnd this r k Hr) as (Hn & Hk & _).
    destruct (endDrag_idle rnd this k Hidle) as (En & Ek).
    rewrite Hn, Hk. auto.
  - cbv zeta.
    destruct (release_dispatch rnd this r k Hr) as (_ & _ & Hb & Hd).
    destruct (release_dispatch rnd (fst (dispatch rnd this r k)) r'
                (snd (dispatch rnd this r k)) Hr') as (Hn & Hk & _).
    destruct (endDrag_idle rnd (fst (dispatch rnd this r k))
                (snd (dispatch rnd this r k)) (or_introl Hb)) as (En & Ek).
    assert (T : nodes (fst (dispatch rnd (fst (dispatch rnd this r k)) r'
                              (snd (dispatch rnd this r k))))
                = nodes (fst (dispatch rnd this r k))) by (rewrite Hn; exact En).
    repeat split; auto.
    + rewrite Hk. exact Ek.
    + cbn [run]. unfold bind.
      destruct (dispatch rnd this r k) as [s1 k1]. simpl in *.
      destruct (dispatch rnd s1 r' k1) as [s2 k2]. simpl in *. exact T.
Qed.

(** A mouse up followed by a touch end on the component at rest. *)
Lemma release_outside_drag_witness :
  nodes (fst (dispatch rndHalf twoNodes MouseUp 0%nat)) = nodes twoNodes /\
  snd (dispatch rndHalf twoNodes MouseUp 0%nat) = 0%nat.
Proof.
  apply (release_outside_drag rndHalf twoNodes MouseUp TouchEnd 0%nat eq_refl eq_refl).
  left. reflexivity.
Defined.

(* ================================================================== *)
(** * Further properties of the simulation *)
(* ================================================================== *)

(** ** The connection list *)

(** The pair of indices a connection joins. *)
Definition connectionPair (c : Connection) : nat * nat := (nodeA c, nodeB c).

Lemma NoDup_flat_map_tagged {A B K : Type} (key : B -> K) (tag : K -> A)
    (f : A -> list B) (l : list A) :
  NoDup l ->
  (forall a c, In c (f a) -> tag (key c) = a) ->
  (forall a, NoDup (map key (f a))) ->
  NoDup (map key (flat_map f l)).
Proof.
  intros Hl Ht Hf. induction l as [|a l IH]; simpl.
  - constructor.
  - rewrite map_app. apply NoDup_app. split; [apply Hf|]. split.
    + intros kx H1 H2.
      apply list_elem_of_In, in_map_iff in H1 as (c1 & <- & H1).
      apply list_elem_of_In, in_map_iff in H2 as (c2 & E & H2).
      apply in_flat_map in H2 as (a' & Ha' & H2).
      apply Ht in H1. apply Ht in H2. rewrite E in H2.
      apply NoDup_cons in Hl as [Hn _]. apply Hn.
      apply list_elem_of_In. congruence.
    + apply IH. apply NoDup_cons in Hl as [_ Hl]. exact Hl.
Qed.

Lemma length_flat_map_le {A B : Type} (f : A -> list B) (l : list A) :
  (forall a, (length (f a) <= 1)%nat) ->
  (length (flat_map f l) <= length l)%nat.
Proof.
  intros Hf. induction l as [|a l IH]; simpl; [lia|].
  rewrite length_app. specialize (Hf a). lia.
Qed.

Lemma length_connectionBetween nodes maxDistance i j :
  (length (connectionBetween nodes maxDistance i j) <= 1)%nat.
Proof.
  unfold connectionBetween.
  destruct (nodes !! i), (nodes !! j); simpl; try lia.
  destruct (num_lt _ _); simpl; lia.
Qed.

Lemma length_connections_from (g : nat -> list Connection) (n m k : nat) :
  (forall i, (length (g i) <= n - (i + 1))%nat) ->
  (m + k <= n)%nat ->
  (2 * Z.of_nat (length (flat_map g (seq m k)))
   <= Z.of_nat k * (2 * (Z.of_nat n - 1 - Z.of_nat m) - (Z.of_nat k - 1)))%Z.
Proof.
  intros Hg. revert m; induction k as [|k IH]; intros m Hm; simpl; [lia|].
  rewrite length_app. specialize (IH (S m) ltac:(lia)). specialize (Hg m).
  nia.
Qed.

(** The list built by [updateConnections] joins, in each of its
    entries, a node to a node further down the array; no pair of nodes
    occurs twice, in either order; and [n] nodes give at most
    [n (n - 1) / 2] connections.  What the list held before plays no
    part. *)
Theorem updateConnections_pairs (this : Animation) (stale : list Connection) :
  let conns := connections (updateConnections this) in
  let n := length (nodes this) in
  Forall (fun c => (nodeA c < nodeB c < n)%nat) conns /\
  NoDup (map connectionPair conns) /\
  (forall c c', In c conns -> In c' conns ->
                connectionPair c <> (nodeB c', nodeA c')) /\
  (2 * length conns <= n * (n - 1))%nat /\
  connections (updateConnections (set_connections this stale)) = conns.
Proof.
  cbv zeta. cbn [updateConnections connections set_connections].
  assert (Hin : forall c, In c (computeConnections (nodes this)
                                  (maxConnectionDistance this)) ->
                          (nodeA c < nodeB c < length (nodes this))%nat).
  { intros c Hc. apply In_computeConnections in Hc
      as (i & j & a & b & Hij & Ha & Hb & _ & ->). simpl.
    apply lookup_lt_Some in Hb. lia. }
  split; [|split; [|split; [|split]]].
  - apply Forall_forall. intros c Hc%list_elem_of_In. apply Hin. exact Hc.
  - unfold computeConnections.
    apply (NoDup_flat_map_tagged connectionPair fst).
    + apply NoDup_ListNoDup, seq_NoDup.
    + intros i c Hc. unfold connectionsFrom in Hc.
      apply in_flat_map in Hc as (j & _ & Hc).
      apply In_connectionBetween in Hc as (? & ? & _ & _ & _ & ->). reflexivity.
    + intros i. unfold connectionsFrom.
      apply (NoDup_flat_map_tagged connectionPair snd).
      * apply NoDup_ListNoDup, seq_NoDup.
      * intros j c Hc.
        apply In_connectionBetween in Hc as (? & ? & _ & _ & _ & ->). reflexivity.
      * intros j. pose proof (length_connectionBetween (nodes this)
                                (maxConnectionDistance this) i j) as Hl.
        destruct (connectionBetween _ _ i j) as [|c [|c' l]]; simpl in *;
          try lia.
        -- constructor.
        -- apply NoDup_singleton.
  - intros c c' Hc Hc' E. apply Hin in Hc. apply Hin in Hc'.
    unfold connectionPair in E. injection E as E1 E2. lia.
  - pose proof (length_connections_from
                  (connectionsFrom (nodes this) (maxConnectionDistance this))
                  (length (nodes this)) 0 (length (nodes this))) as Hl.
    unfold computeConnections.
    assert (Hg : forall i,
               (length (connectionsFrom (nodes this) (maxConnectionDistance this) i)
                <= length (nodes this) - (i + 1))%nat).
    { intros i. unfold connectionsFrom.
      etransitivity; [apply length_flat_map_le, length_connectionBetween|].
      rewrite length_seq. lia. }
    specialize (Hl Hg ltac:(lia)).
    destruct (length (nodes this)) as [|n] eqn:En; [simpl in *; lia|].
    replace (S n - 1)%nat with n by lia. nia.
  - reflexivity.
Qed.

(** ** Glyph refresh *)

Lemma moveNode_glyph rnd dt w h node k :
  let node' := fst (moveNode rnd dt w h node k) in
  char node' = char node /\ color node' = color node /\
  lastCharUpdate node' = lastCharUpdate node.
Proof.
  unfold moveNode, bind, Math_random; cbv zeta. simpl.
  case_ifs; simpl; repeat split; reflexivity.
Qed.

Lemma refreshChar_window rnd now node k :
  (forall j, 0 <= rnd j < 1) ->
  let node' := fst (refreshChar rnd now node k) in
  (now - lastCharUpdate node <= 2000 ->
   char node' = char node /\ color node' = color node /\
   lastCharUpdate node' = lastCharUpdate node) /\
  (5000 <= now - lastCharUpdate node ->
   lastCharUpdate node' = now /\
   exists i, char node' = NoiseChar i /\ (0 <= i < NOISE_CHARS_length)%Z).
Proof.
  intros Hr. cbv zeta. unfold refreshChar; cbv zeta. rewrite fst_bind.
  cbn [Math_random fst snd]. pose proof (Hr k) as Hk.
  unfold num_gt, APP_CONFIG.NODE_NETWORK.CHARACTER_UPDATE_INTERVAL.MIN,
    APP_CONFIG.NODE_NETWORK.CHARACTER_UPDATE_INTERVAL.MAX.
  split.
  - intros Hyoung. rewrite (proj2 (num_lt_false _ _)) by nra.
    simpl. auto.
  - intros Hold. rewrite (proj2 (num_lt_true _ _)) by nra.
    rewrite !fst_bind. simpl. split; [reflexivity|].
    destruct (randomNoiseChar_alphabet rnd (S k) Hr) as (i & Hi & Hrange).
    exists i. split; [|exact Hrange]. unfold randomNoiseChar in Hi. simpl in Hi.
    exact Hi.
Qed.

(** Glyphs are refreshed node by node, dragged or not: in an update a
    node whose glyph is at most 2000 ms old keeps its glyph, colour and
    time stamp, and a node whose glyph is 5000 ms old or older gets a
    new glyph of the alphabet and the time stamp [now] (draws of
    [Math.random()] being in [0, 1)). *)
Theorem updateNodes_glyph_refresh (rnd : nat -> R) (this : Animation)
    (deltaTime now dpr : R) (k i : nat) (node' : Node) :
  (forall j, 0 <= rnd j < 1) ->
  nodes (fst (updateNodes rnd this deltaTime now dpr k)) !! i = Some node' ->
  exists node,
    nodes this !! i = Some node /\
    (now - lastCharUpdate node <= 2000 ->
     char node' = char node /\ color node' = color node /\
     lastCharUpdate node' = lastCharUpdate node) /\
    (5000 <= now - lastCharUpdate node ->
     lastCharUpdate node' = now /\
     exists c, char node' = NoiseChar c /\ (0 <= c < NOISE_CHARS_length)%Z).
Proof.
  intros Hr Hi. rewrite updateNodes_nodes in Hi.
  apply forEach_lookup in Hi as (node & k0 & Hn & ->).
  exists node. split; [exact Hn|].
  unfold updateNode. rewrite fst_bind.
  set (m := if negb (truthy (isDragging node))
            then moveNode rnd deltaTime (canvasWidth this dpr)
                          (canvasHeight this dpr) node
            else ret node).
  assert (Hm : char (fst (m k0)) = char node /\ color (fst (m k0)) = color node /\
               lastCharUpdate (fst (m k0)) = lastCharUpdate node).
  { subst m. destruct (negb (truthy (isDragging node))).
    - apply moveNode_glyph.
    - simpl. auto. }
  destruct Hm as (Hc & Hco & Hl).
  destruct (refreshChar_window rnd now (fst (m k0)) (snd (m k0)) Hr) as (Hy & Ho).
  rewrite Hl, Hc, Hco in *. split; assumption.
Qed.

(** A node whose glyph is 6000 ms old, in an update at time 6000. *)
Lemma updateNodes_glyph_refresh_witness :
  exists node' : Node,
    nodes (fst (updateNodes rndHalf driftingNode 16 6000 1 0%nat)) !! 0%nat
    = Some node' /\ lastCharUpdate node' = 6000.
Proof.
  destruct (nodes (fst (updateNodes rndHalf driftingNode 16 6000 1 0%nat)) !! 0%nat)
    as [node'|] eqn:E.
  - exists node'. split; [reflexivity|].
    destruct (updateNodes_glyph_refresh rndHalf driftingNode 16 6000 1 0%nat 0%nat
                node' ltac:(intros j; unfold rndHalf; lra) E)
      as (node & Hn & _ & Hold).
    simpl in Hn. injection Hn as <-. simpl in Hold. apply Hold. lra.
  - exfalso. apply lookup_ge_None in E.
    rewrite updateNodes_nodes, forEach_length in E. simpl in E. lia.
Defined.

(** ** Initialisation *)

Lemma initializeNode_cursor rnd w h k :
  snd (initializeNode rnd w h k) = (k + 8)%nat.
Proof.
  unfold initializeNode, randomPosition, randomVelocity, randomRGB,
    randomNoiseChar, bind, Math_random. simpl. lia.
Qed.

Lemma initializeLoop_spec rnd (P : Node -> Prop) count w h k :
  (forall k0, P (fst (initializeNode rnd w h k0))) ->
  length (fst (initializeLoop rnd count w h k)) = count /\
  Forall P (fst (initializeLoop rnd count w h k)) /\
  snd (initializeLoop rnd count w h k) = (k + 8 * count)%nat.
Proof.
  intros HP. revert k; induction count as [|count IH]; intros k.
  - simpl. repeat split; [constructor | lia].
  - cbn [initializeLoop]. rewrite !fst_bind.
    rewrite (initializeNode_cursor rnd w h k).
    destruct (IH (k + 8)%nat) as (Hl & Hf & Hk).
    cbn [ret fst snd length]. rewrite Hl, Hk.
    repeat split; [constructor; [apply HP | exact Hf] | lia].
Qed.

(** A node as [initializeNodes] makes it. *)
Definition freshNode (w h : R) (n : Node) : Prop :=
  inBounds w h n /\
  Rabs (vx n) <= 25 / 100 /\ Rabs (vy n) <= 25 / 100 /\
  (exists c, char n = NoiseChar c /\ (0 <= c < NOISE_CHARS_length)%Z) /\
  lastCharUpdate n = 0 /\
  isDragging n = None /\ originalVx n = None /\ originalVy n = None.

(** On a canvas whose width and height are not negative, and with draws
    of [0, 1), [initializeNodes] replaces the node array by [nodeCount]
    nodes, each of them on the canvas, with both velocity components
    within 0.25 in absolute value, a glyph of the alphabet, a time stamp
    of 0 and no drag marker; it takes eight draws per node and leaves
    the rest of the component alone. *)
Theorem initializeNodes_fresh (rnd : nat -> R) (this : Animation)
    (nodeCount : nat) (dpr : R) (k : nat) :
  (forall j, 0 <= rnd j < 1) ->
  0 <= canvasWidth this dpr ->
  0 <= canvasHeight this dpr ->
  let initial := fst (initializeNodes rnd this nodeCount dpr k) in
  length (nodes initial) = nodeCount /\
  Forall (freshNode (canvasWidth this dpr) (canvasHeight this dpr))
         (nodes initial) /\
  draggedNodeCount initial = 0%nat /\
  snd (initializeNodes rnd this nodeCount dpr k) = (k + 8 * nodeCount)%nat /\
  canvas initial = canvas this /\
  this_isDragging initial = this_isDragging this /\
  draggedNode initial = draggedNode this.
Proof.
  intros Hr Hw Hh. cbv zeta.
  assert (HP : forall k0, freshNode (canvasWidth this dpr) (canvasHeight this dpr)
                 (fst (initializeNode rnd (canvasWidth this dpr)
                                      (canvasHeight this dpr) k0))).
  { intros k0. unfold initializeNode, randomPosition, randomVelocity.
    rewrite !fst_bind. simpl.
    pose proof (Hr k0). pose proof (Hr (S k0)).
    pose proof (Hr (S (S k0))). pose proof (Hr (S (S (S k0)))).
    destruct (randomNoiseChar_alphabet rnd (S (S (S (S k0)))) Hr)
      as (c & Hc & Hrange).
    unfold freshNode, inBounds; simpl.
    repeat split; try nra; try (apply Rabs_le; lra).
    exists c. split; [|exact Hrange].
    unfold randomNoiseChar in Hc. simpl in Hc. exact Hc. }
  destruct (initializeLoop_spec rnd _ nodeCount (canvasWidth this dpr)
              (canvasHeight this dpr) k HP) as (Hl & Hf & Hk).
  unfold initializeNodes. unfold bind.
  destruct (initializeLoop rnd nodeCount (canvasWidth this dpr)
              (canvasHeight this dpr) k) as [l k1]. simpl in *.
  repeat split; auto.
  unfold draggedNodeCount. simpl.
  clear - Hf. induction Hf as [|n l Hn Hf IH]; simpl; [reflexivity|].
  destruct Hn as (_ & _ & _ & _ & _ & Hd & _). rewrite Hd. simpl. exact IH.
Qed.

(** The default 80 nodes on the 800 by 600 canvas. *)
Lemma initializeNodes_fresh_witness :
  length (nodes (fst (initializeNodes rndHalf threeNodes 80 1 0%nat))) = 80%nat /\
  snd (initializeNodes rndHalf threeNodes 80 1 0%nat) = 640%nat.
Proof.
  destruct (initializeNodes_fresh rndHalf threeNodes 80 1 0%nat)
    as (Hl & _ & _ & Hk & _).
  - intros j. unfold rndHalf. lra.
  - unfold canvasWidth. simpl. rewrite num_or_nonzero by lra. lra.
  - unfold canvasHeight. simpl. rewrite num_or_nonzero by lra. lra.
  - split; [exact Hl | exact Hk].
Defined.

(** ** Movement within a frame *)

Lemma clamp_at_walls p bound :
  0 <= bound ->
  (p <= 0 -> clamp p 0 bound = 0) /\ (bound <= p -> clamp p 0 bound = bound).
Proof.
  intros Hb. split; intros H.
  - apply clamp_below; assumption.
  - apply clamp_above; assumption.
Qed.

(** A frame keeps the nodes on the canvas: if every node is on the
    canvas before [updateNodes], every node is on it afterwards,
    whatever the time delta; a node that is not dragged and would leave
    the canvas is put on the wall it has reached. *)
Theorem updateNodes_stays_on_canvas (rnd : nat -> R) (this : Animation)
    (deltaTime now dpr : R) (k : nat) :
  let w := canvasWidth this dpr in
  let h := canvasHeight this dpr in
  let this' := fst (updateNodes rnd this deltaTime now dpr k) in
  Forall (inBounds w h) (nodes this) ->
  Forall (inBounds w h) (nodes this') /\
  length (nodes this') = length (nodes this) /\
  forall i node', nodes this' !! i = Some node' ->
    exists node, nodes this !! i = Some node /\
      (truthy (isDragging node) = false ->
       let x' := x node + vx node * deltaTime * APP_CONFIG.NODE_NETWORK.MOVEMENT_SPEED in
       (x' <= 0 -> x node' = 0) /\ (w <= x' -> x node' = w) /\
       (0 < x' < w -> x node' = x')).
Proof.
  cbv zeta. intros H. split; [apply updateNodes_inBounds; exact H|].
  split; [rewrite updateNodes_nodes; apply forEach_length|].
  intros i node' Hi. rewrite updateNodes_nodes in Hi.
  apply forEach_lookup in Hi as (node & k0 & Hn & ->).
  exists node. split; [exact Hn|]. intros Hd.
  pose proof (updateNode_spec rnd deltaTime now (canvasWidth this dpr)
                (canvasHeight this dpr) node k0) as (_ & _ & _ & Hs).
  cbv zeta in Hs. rewrite Hd in Hs. destruct Hs as (Hx & _).
  assert (Hw : 0 <= canvasWidth this dpr).
  { eapply Forall_lookup_1 in H; [|exact Hn]. destruct H as [[? ?] _]. lra. }
  rewrite Hx. unfold bounced; cbv zeta.
  destruct (clamp_at_walls
              (x node + vx node * deltaTime * APP_CONFIG.NODE_NETWORK.MOVEMENT_SPEED)
              (canvasWidth this dpr) Hw) as [Hlo Hhi].
  destruct (num_le _ 0 || num_ge _ (canvasWidth this dpr)) eqn:E.
  - split; [exact Hlo|]. split; [exact Hhi|].
    intros Hc. apply clamp_id. lra.
  - apply orb_false_iff in E as [E1 E2].
    apply num_le_false in E1. apply num_ge_false in E2.
    split; [|split]; intros Hc; lra.
Qed.

(** A node at x = 799 moving right at 0.5 for 200 ms would reach 801:
    it is put on the right wall of the canvas, at 800. *)
Definition nodeNearWall : Animation :=
  animationOf [mkNode 799 300 (1 / 2) 0 QuestionMark (mkRGB 0 0 0) 0
                      None None None] 150.

Lemma updateNodes_stays_on_canvas_witness :
  Forall (inBounds (canvasWidth nodeNearWall 1) (canvasHeight nodeNearWall 1))
         (nodes (fst (updateNodes rndHalf nodeNearWall 200 0 1 0%nat))).
Proof.
  apply (updateNodes_stays_on_canvas rndHalf nodeNearWall 200 0 1 0%nat).
  constructor; [|constructor].
  unfold inBounds, canvasWidth, canvasHeight. simpl.
  rewrite num_or_nonzero by lra. lra.
Defined.

(** [updateNodes] leaves a dragged node where the pointer holds it:
    its position and velocity do not change, whatever the time delta;
    and no update changes a drag marker or a saved velocity of any
    node, the drag state of the component or its canvas. *)
Theorem updateNodes_skips_dragged (rnd : nat -> R) (this : Animation)
    (deltaTime now dpr : R) (k i : nat) (node' : Node) :
  let this' := fst (updateNodes rnd this deltaTime now dpr k) in
  nodes this' !! i = Some node' ->
  draggedNode this' = draggedNode this /\
  this_isDragging this' = this_isDragging this /\
  canvas this' = canvas this /\
  exists node, nodes this !! i = Some node /\
    isDragging node' = isDragging node /\
    originalVx node' = originalVx node /\
    originalVy node' = originalVy node /\
    (truthy (isDragging node) = true ->
     x node' = x node /\ y node' = y node /\
     vx node' = vx node /\ vy node' = vy node).
Proof.
  cbv zeta. intros Hi.
  assert (Hs : draggedNode (fst (updateNodes rnd this deltaTime now dpr k))
               = draggedNode this /\
               this_isDragging (fst (updateNodes rnd this deltaTime now dpr k))
               = this_isDragging this /\
               canvas (fst (updateNodes rnd this deltaTime now dpr k))
               = canvas this).
  { unfold updateNodes; cbv zeta. rewrite fst_bind. simpl. auto. }
  destruct Hs as (H1 & H2 & H3). repeat (split; [assumption|]).
  rewrite updateNodes_nodes in Hi.
  apply forEach_lookup in Hi as (node & k0 & Hn & ->).
  exists node. split; [exact Hn|].
  pose proof (updateNode_spec rnd deltaTime now (canvasWidth this dpr)
                (canvasHeight this dpr) node k0) as (Hd & Ho & Ho' & Hs).
  cbv zeta in *. repeat (split; [assumption|]).
  intros Ht. rewrite Ht in Hs. exact Hs.
Qed.

(** A dragged node with a velocity left over, in an update of 1000 ms. *)
Definition heldNode : Animation :=
  animationOf [mkNode 100 100 (1 / 2) (1 / 2) QuestionMark (mkRGB 0 0 0) 0
                      (Some true) None None] 150.

Lemma updateNodes_skips_dragged_witness :
  exists node' : Node,
    nodes (fst (updateNodes rndHalf heldNode 1000 0 1 0%nat)) !! 0%nat = Some node' /\
    x node' = 100 /\ y node' = 100.
Proof.
  destruct (nodes (fst (updateNodes rndHalf heldNode 1000 0 1 0%nat)) !! 0%nat)
    as [node'|] eqn:E.
  - exists node'. split; [reflexivity|].
    destruct (updateNodes_skips_dragged rndHalf heldNode 1000 0 1 0%nat 0%nat node' E)
      as (_ & _ & _ & node & Hn & _ & _ & _ & Hheld).
    simpl in Hn. injection Hn as <-. simpl in Hheld.
    destruct (Hheld eq_refl) as (Hx & Hy & _). auto.
  - exfalso. apply lookup_ge_None in E.
    rewrite updateNodes_nodes, forEach_length in E. simpl in E. lia.
Defined.

(** ** Resizing *)

(** Cutting the product down loses less than one device pixel. *)
Lemma canvasSide_bounds (side d : R) :
  0 < d -> 0 <= side ->
  side - 1 / d < IZR (IntegerPart (side * d)) / d <= side.
Proof.
  intros Hd Hs.
  assert (Hp : 0 <= side * d) by (apply Rmult_le_pos; lra).
  destruct (IntegerPart_range (side * d)) as [Hpos _].
  destruct (Hpos Hp) as [[H0 H1] H2].
  assert (Hi : 0 < / d) by (apply Rinv_0_lt_compat, Hd).
  assert (E : side = side * d * / d) by (field; lra).
  unfold Rdiv. split.
  - assert ((side * d - 1) * / d < IZR (IntegerPart (side * d)) * / d)
      by (apply Rmult_lt_compat_r; lra).
    lra.
  - assert (IZR (IntegerPart (side * d)) * / d <= side * d * / d)
      by (apply Rmult_le_compat_r; lra).
    lra.
Qed.

(** The resize handler gives the canvas, on each side, the whole number
    of device pixels that fits the layout box: in CSS pixels the canvas
    is at most as wide and as high as the box, by less than one device
    pixel, and it has the size of the box when that is a whole number
    of device pixels.  The handler clamps every node to the canvas less
    a margin of 50 and changes no velocity and no drag marker; when
    the canvas as resized is at least 50 wide and high every node then
    lies within [0, width - 50] by [0, height - 50], and a node that
    was already there has not moved. *)
Theorem handleResize_margin (this : Animation) (rect : DOMRect) (dpr : R) :
  let resized := handleResize this rect dpr in
  let d := num_or dpr 1 in
  let w := canvasWidth resized dpr in
  let h := canvasHeight resized dpr in
  (0 < d -> 0 <= rect_width rect -> 0 <= rect_height rect ->
   rect_width rect - 1 / d < w <= rect_width rect /\
   rect_height rect - 1 / d < h <= rect_height rect) /\
  (forall n m : Z,
     rect_width rect * d = IZR n -> rect_height rect * d = IZR m ->
     w = rect_width rect /\ h = rect_height rect) /\
  length (nodes resized) = length (nodes this) /\
  forall i node', nodes resized !! i = Some node' ->
    exists node, nodes this !! i = Some node /\
      x node' = clamp (x node) 0 (w - 50) /\
      y node' = clamp (y node) 0 (h - 50) /\
      vx node' = vx node /\ vy node' = vy node /\
      isDragging node' = isDragging node /\
      (50 <= w -> 50 <= h ->
       0 <= x node' <= w - 50 /\ 0 <= y node' <= h - 50) /\
      (0 <= x node <= w - 50 -> 0 <= y node <= h - 50 -> node' = node).
Proof.
  cbv zeta. unfold handleResize.
  change (canvasWidth (repositionNodes (updateCanvasSize this rect dpr) dpr) dpr)
    with (canvasWidth (updateCanvasSize this rect dpr) dpr).
  change (canvasHeight (repositionNodes (updateCanvasSize this rect dpr) dpr) dpr)
    with (canvasHeight (updateCanvasSize this rect dpr) dpr).
  split; [|split; [|split]].
  - intros Hd Hw Hh.
    rewrite canvasWidth_updateCanvasSize, canvasHeight_updateCanvasSize.
    split; apply canvasSide_bounds; assumption.
  - intros n m Hn Hm.
    rewrite canvasWidth_updateCanvasSize, canvasHeight_updateCanvasSize.
    split; [apply (canvasSide_whole _ _ n) | apply (canvasSide_whole _ _ m)];
      auto using num_or_1_nonzero.
  - unfold repositionNodes; cbv zeta.
    cbn [nodes set_nodes updateCanvasSize set_canvas]. apply length_map.
  - unfold repositionNodes at 1; cbv zeta.
    set (w := canvasWidth (updateCanvasSize this rect dpr) dpr).
    set (h := canvasHeight (updateCanvasSize this rect dpr) dpr).
    cbn [nodes set_nodes updateCanvasSize set_canvas].
    intros i node' Hi. rewrite list_lookup_fmap in Hi.
    destruct (nodes this !! i) as [node|] eqn:En; [|discriminate Hi].
    simpl in Hi. injection Hi as <-. exists node. split; [reflexivity|]. simpl.
    do 5 (split; [reflexivity|]). split.
    + intros Hw Hh.
      pose proof (clamp_range (x node) 0 (w - 50)).
      pose proof (clamp_range (y node) 0 (h - 50)). lra.
    + intros Hx Hy. destruct node; simpl in *.
      rewrite !clamp_id by assumption. reflexivity.
Qed.

(** The scenario of a resize from 800 by 600 to 400 by 300 with a node
    at (790, 590): the node is brought to (350, 250). *)
Lemma handleResize_margin_witness :
  exists node' : Node,
    nodes (handleResize (animationOf [nodeAt 790 590] 150)
                        (mkDOMRect 0 0 400 300) 1) !! 0%nat = Some node' /\
    x node' = 350 /\ y node' = 250.
Proof.
  destruct (handleResize_margin (animationOf [nodeAt 790 590] 150)
              (mkDOMRect 0 0 400 300) 1) as (_ & Hwh & Hl & H).
  destruct (Hwh 400%Z 300%Z) as [Ew Eh];
    [simpl; rewrite (num_or_nonzero 1 1) by lra; lra ..|].
  destruct (nodes (handleResize (animationOf [nodeAt 790 590] 150)
                                (mkDOMRect 0 0 400 300) 1) !! 0%nat)
    as [node'|] eqn:E.
  - exists node'. split; [reflexivity|].
    destruct (H 0%nat node' E) as (node & Hn & Hx & Hy & _).
    simpl in Hn. injection Hn as <-. rewrite Ew in Hx. rewrite Eh in Hy.
    simpl in Hx, Hy.
    rewrite Hx, Hy, !clamp_above by lra. lra.
  - exfalso. apply lookup_ge_None in E. rewrite Hl in E. simpl in E. lia.
Defined.

(* ================================================================== *)
(** * Rendering a frame *)
(* ================================================================== *)

(** A call on the 2D context of the canvas. *)
Inductive DrawCall :=
  | ClearRect (x_ y_ w h : R)
  | ConnectionText (call : FillText)
  | NodeText (fillStyle : RGB) (shadowBlur : R) (c : Glyph) (x_ y_ : R).

(** [renderNodes]: the glyph of every node, in its colour, with a
    shadow blur of 3. *)
Definition renderNodes (this : Animation) : list DrawCall :=
  map (fun node => NodeText (color node) 3 (char node) (x node) (y node))
      (nodes this).

(** [render]: the calls of one frame, in order. *)
Definition render (rnd : nat -> R) (this : Animation) (devicePixelRatio : R)
  : Gen (list DrawCall) :=
  (* Clear canvas *)
  let canvasWidth := canvasWidth this devicePixelRatio in
  let canvasHeight := canvasHeight this devicePixelRatio in
  let* calls := renderConnections rnd this in
  ret (ClearRect 0 0 canvasWidth canvasHeight
         :: map ConnectionText calls ++ renderNodes this).








(* ================================================================== *)
(** * The refactored class and the standalone class *)
(* ================================================================== *)

(** A node of the refactored class, seen as a node of the standalone
    class, which has no drag fields. *)
Definition standaloneNode (n : Node) : Legacy.Node :=
  Legacy.mkNode (x n) (y n) (vx n) (vy n) (char n) (color n) (lastCharUpdate n).

(** The fields that the two classes share. *)
Definition standalone (this : Animation) : Legacy.Animation :=
  Legacy.mkAnimation (width (canvas this)) (height (canvas this))
    (map standaloneNode (nodes this)) (connections this)
    (maxConnectionDistance this) (frameSkipMax this) (lastScrollY this)
    (scrollVelocity this).

Lemma clamp_Rmax_Rmin (v lo hi : R) :
  lo <= hi -> clamp v lo hi = Rmax lo (Rmin hi v).
Proof.
  intros H. destruct (Rle_dec v lo) as [Hlo | Hlo].
  - rewrite clamp_below, (Rmin_right hi v), Rmax_left by lra. reflexivity.
  - destruct (Rle_dec v hi) as [Hhi | Hhi].
    + rewrite clamp_id, (Rmin_right hi v), Rmax_right by lra. reflexivity.
    + rewrite clamp_above, (Rmin_left hi v), Rmax_right by lra. reflexivity.
Qed.

Lemma getDistance_distance (a b : Node) :
  Legacy.getDistance (standaloneNode a) (standaloneNode b) = distance a b.
Proof. unfold Legacy.getDistance, distance; cbv zeta. simpl. f_equal. ring. Qed.

Lemma lookup_map_standaloneNode (l : list Node) (i : nat) :
  (map standaloneNode l !! i : option Legacy.Node) =
  option_map standaloneNode (l !! i : option Node).
Proof.
  revert i; induction l as [|a l IH]; intros [|i]; simpl; auto.
Qed.

Lemma forEach_simulation {A B : Type} (g : A -> B) (f : A -> Gen A)
    (f' : B -> Gen B) (P : A -> Prop) (l : list A) :
  (forall a k, P a -> g (fst (f a k)) = fst (f' (g a) k) /\
                      snd (f a k) = snd (f' (g a) k)) ->
  Forall P l ->
  forall k,
  map g (fst (forEach f l k)) = fst (forEach f' (map g l) k) /\
  snd (forEach f l k) = snd (forEach f' (map g l) k).
Proof.
  intros H HP. induction HP as [|a l Ha Hl IH]; intros k.
  - split; reflexivity.
  - cbn [forEach map]. rewrite !fst_bind. cbn [ret fst snd map].
    destruct (H a k Ha) as [E1 E2]. rewrite <- E1, <- E2.
    destruct (IH (snd (f a k))) as [E3 E4]. rewrite <- E3, <- E4.
    split; reflexivity.
Qed.

Section Refactoring.

Variable rnd : nat -> R.

Lemma randomNoiseChar_standalone k :
  Legacy.randomNoiseChar rnd k = randomNoiseChar rnd k.
Proof.
  unfold Legacy.randomNoiseChar, Legacy.randomIntBetween, randomNoiseChar.
  change (NOISE_CHARS_length =? 0)%Z with false.
  rewrite !fst_bind. cbn [Math_random ret fst snd].
  replace (NOISE_CHARS_length - 1 - 0 + 1)%Z with NOISE_CHARS_length
    by (unfold NOISE_CHARS_length; lia).
  rewrite Z.add_0_r. reflexivity.
Qed.

Lemma randomRGB_standalone k : Legacy.randomRGB rnd k = randomRGB rnd k.
Proof.
  unfold Legacy.randomRGB, Legacy.randomIntBetween, randomRGB.
  rewrite !fst_bind. cbn [Math_random ret fst snd].
  change (255 - 0 + 1)%Z with 256%Z. rewrite !Z.add_0_r. reflexivity.
Qed.

Lemma refreshChar_standalone now node k :
  standaloneNode (fst (refreshChar rnd now node k)) =
    fst (Legacy.refreshChar rnd now (standaloneNode node) k) /\
  snd (refreshChar rnd now node k) =
    snd (Legacy.refreshChar rnd now (standaloneNode node) k).
Proof.
  unfold refreshChar, Legacy.refreshChar. cbv zeta.
  rewrite !fst_bind. cbn [Math_random fst snd].
  unfold APP_CONFIG.NODE_NETWORK.CHARACTER_UPDATE_INTERVAL.MIN,
         APP_CONFIG.NODE_NETWORK.CHARACTER_UPDATE_INTERVAL.MAX.
  change (Legacy.lastCharUpdate (standaloneNode node)) with (lastCharUpdate node).
  replace (5000 - 2000) with 3000 by lra.
  destruct (num_gt (now - lastCharUpdate node) (2000 + rnd k * 3000)).
  - rewrite !fst_bind, !randomNoiseChar_standalone, !randomRGB_standalone.
    split; reflexivity.
  - split; reflexivity.
Qed.

Lemma moveNode_standalone deltaTime w h node k :
  0 <= w -> 0 <= h ->
  standaloneNode (fst (moveNode rnd deltaTime w h node k)) =
    fst (Legacy.moveNode rnd deltaTime w h (standaloneNode node) k) /\
  snd (moveNode rnd deltaTime w h node k) =
    snd (Legacy.moveNode rnd deltaTime w h (standaloneNode node) k).
Proof.
  intros Hw Hh.
  assert (Cw : forall v, clamp v 0 w = Rmax 0 (Rmin w v))
    by (intros v; apply clamp_Rmax_Rmin, Hw).
  assert (Ch : forall v, clamp v 0 h = Rmax 0 (Rmin h v))
    by (intros v; apply clamp_Rmax_Rmin, Hh).
  assert (Cv : forall v, clamp v (- (8 / 10)) (8 / 10) =
                         Rmax (- (8 / 10)) (Rmin (8 / 10) v))
    by (intros v; apply clamp_Rmax_Rmin; lra).
  unfold moveNode, Legacy.moveNode. cbv zeta.
  unfold APP_CONFIG.NODE_NETWORK.MOVEMENT_SPEED,
         APP_CONFIG.NODE_NETWORK.DIRECTION_CHANGE_PROBABILITY,
         APP_CONFIG.NODE_NETWORK.MAX_VELOCITY.
  rewrite !Cw, !Ch.
  destruct node as [x0 y0 vx0 vy0 c0 col0 t0 d0 ox0 oy0].
  unfold bind, Math_random, ret. simpl.
  case_ifs; rewrite ?Cv; split; reflexivity.
Qed.

Lemma updateNode_standalone deltaTime now w h node k :
  0 <= w -> 0 <= h -> truthy (isDragging node) = false ->
  standaloneNode (fst (updateNode rnd deltaTime now w h node k)) =
    fst (Legacy.updateNode rnd deltaTime now w h (standaloneNode node) k) /\
  snd (updateNode rnd deltaTime now w h node k) =
    snd (Legacy.updateNode rnd deltaTime now w h (standaloneNode node) k).
Proof.
  intros Hw Hh Hd. unfold updateNode, Legacy.updateNode.
  rewrite Hd. cbn [negb]. rewrite !fst_bind.
  destruct (moveNode_standalone deltaTime w h node k Hw Hh) as [E1 E2].
  rewrite <- E1, <- E2. apply refreshChar_standalone.
Qed.

End Refactoring.

(** The refactoring keeps the behaviour of a frame.  As long as no node
    is dragged, which the standalone class cannot do at all, and the
    canvas has a width and a height that are not negative,
    [updateNodes] of the refactored class computes the nodes that
    [updateNodes] of the standalone class computes, from the same
    random draws; [updateConnections] and the scroll handler compute
    the same without any condition. *)
Theorem refactored_frame_agrees_with_standalone (rnd : nat -> R)
    (this : Animation) (deltaTime now dpr scrollY : R) (k : nat) :
  0 <= canvasWidth this dpr -> 0 <= canvasHeight this dpr ->
  Forall (fun node => truthy (isDragging node) = false) (nodes this) ->
  let r := updateNodes rnd this deltaTime now dpr k in
  let r' := Legacy.updateNodes rnd (standalone this) deltaTime now dpr k in
  standalone (fst r) = fst r' /\ snd r = snd r' /\
  standalone (updateConnections this) = Legacy.updateConnections (standalone this) /\
  standalone (handleScroll this scrollY) = Legacy.handleScroll (standalone this) scrollY.
Proof.
  intros Hw Hh Hd. cbv zeta.
  assert (E : forall l maxDistance,
             Legacy.computeConnections (map standaloneNode l) maxDistance =
             computeConnections l maxDistance).
  { intros l d. unfold Legacy.computeConnections, computeConnections,
      connectionsFrom. rewrite length_map.
    apply flat_map_ext. intros i. apply flat_map_ext. intros j.
    unfold Legacy.connectionBetween, connectionBetween.
    rewrite !lookup_map_standaloneNode.
    destruct (l !! i : option Node) as [a|]; simpl; [|reflexivity].
    destruct (l !! j : option Node) as [b|]; simpl; [|reflexivity].
    rewrite getDistance_distance. reflexivity. }
  unfold updateNodes, Legacy.updateNodes. cbv zeta. rewrite !fst_bind.
  cbn [ret fst snd].
  change (Legacy.canvasWidth (standalone this) dpr) with (canvasWidth this dpr).
  change (Legacy.canvasHeight (standalone this) dpr) with (canvasHeight this dpr).
  change (Legacy.nodes (standalone this)) with (map standaloneNode (nodes this)).
  destruct (forEach_simulation standaloneNode
              (updateNode rnd deltaTime now (canvasWidth this dpr)
                          (canvasHeight this dpr))
              (Legacy.updateNode rnd deltaTime now (canvasWidth this dpr)
                                 (canvasHeight this dpr))
              (fun node => truthy (isDragging node) = false) (nodes this)
              (fun a k0 Ha => updateNode_standalone rnd deltaTime now _ _ a k0
                                Hw Hh Ha)
              Hd k) as [E1 E2].
  split; [|split; [exact E2|split]].
  - unfold standalone, Legacy.set_nodes. cbn [nodes set_nodes canvas connections
      maxConnectionDistance frameSkipMax lastScrollY scrollVelocity
      Legacy.canvas_width Legacy.canvas_height Legacy.connections
      Legacy.maxConnectionDistance Legacy.frameSkipMax Legacy.lastScrollY
      Legacy.scrollVelocity].
    rewrite E1. reflexivity.
  - unfold standalone, updateConnections, Legacy.updateConnections,
      Legacy.set_connections. simpl. rewrite E. reflexivity.
  - reflexivity.
Qed.

(** The three nodes of the example, none of them dragged, after a frame
    of 16 ms. *)
Lemma refactored_frame_agrees_with_standalone_witness :
  standalone (fst (updateNodes rndHalf threeNodes 16 0 1 0%nat)) =
  fst (Legacy.updateNodes rndHalf (standalone threeNodes) 16 0 1 0%nat).
Proof.
  apply (refactored_frame_agrees_with_standalone rndHalf threeNodes 16 0 1 0 0%nat).
  - unfold canvasWidth. simpl. rewrite (num_or_nonzero 1 1) by lra. lra.
  - unfold canvasHeight. simpl. rewrite (num_or_nonzero 1 1) by lra. lra.
  - repeat constructor.
Defined.

(* ================================================================== *)
(** * Further properties of [AnimationFrameManager] *)
(* ================================================================== *)

Module FrameManagerProperties.

Import AnimationFrameManager.

(** Every handle the manager tracks has been handed out by the window. *)
Definition issued (s : State) : Prop :=
  forall id, id ∈ activeAnimations s -> (id <= lastHandle (window s))%nat.

Lemma issued_create : issued create.
Proof. intros id H. simpl in H. set_solver. Qed.

Lemma issued_step s o : issued s -> issued (step s o).
Proof.
  intros H. destruct o; cbn [step].
  - unfold requestFrame. destruct (isDestroyed s); [exact H|].
    simpl. intros id Hid. simpl in Hid.
    apply elem_of_union in Hid as [Hid | Hid].
    + apply elem_of_singleton in Hid. subst. simpl. lia.
    + apply H in Hid. simpl. lia.
  - intros id' Hid. simpl in *. apply H. set_solver.
  - intros id Hid. simpl in Hid. set_solver.
  - intros id Hid. unfold destroy in Hid. simpl in Hid. set_solver.
  - unfold fire. destruct (pending (window s) !! handle) as [c|]; [|exact H].
    destruct c; unfold wrapper; simpl.
    + destruct (isDestroyed s); simpl; intros id Hid; simpl in *;
        apply H; set_solver.
    + exact H.
  - intros id Hid. simpl in *. apply H in Hid. lia.
  - exact H.
Qed.

Lemma issued_run ops s : issued s -> issued (run s ops).
Proof.
  revert s; induction ops as [|o ops IH]; intros s H; simpl; auto.
  apply IH, issued_step, H.
Qed.

(** On a manager that has not been destroyed, whatever has happened to
    it, [requestFrame] returns a new handle, which is not 0, and the
    count of active animations goes up by one; when the window delivers
    that frame the callback is called once, with the time stamp of the
    frame, and the count goes down again; the frame is not delivered a
    second time. *)
Theorem requestFrame_schedules_once (ops : list Op) (callback : Callback)
    (t t' : R) :
  let s := run create ops in
  isDestroyed s = false ->
  let id := fst (requestFrame s callback) in
  let s1 := snd (requestFrame s callback) in
  id = S (lastHandle (window s)) /\ id <> 0%nat /\
  pending (window s) !! id = None /\
  pending (window s1) !! id = Some (Wrapper callback) /\
  getActiveCount s1 = S (getActiveCount s) /\
  log (fire s1 id t) = log s ++ [mkInvocation callback t] /\
  getActiveCount (fire s1 id t) = getActiveCount s /\
  fire (fire s1 id t) id t' = fire s1 id t.
Proof.
  cbv zeta. intros Hlive.
  pose proof (tracked_run ops create tracked_create) as [Ht Hb].
  pose proof (issued_run ops create issued_create) as Hi.
  set (s := run create ops) in *.
  unfold requestFrame. rewrite Hlive. cbn [requestAnimationFrame fst snd].
  assert (Hfresh : pending (window s) !! S (lastHandle (window s)) = None).
  { destruct (pending (window s) !! S (lastHandle (window s))) eqn:E; auto.
    assert (is_Some (pending (window s) !! S (lastHandle (window s)))) as Hs
      by (rewrite E; eauto).
    apply Hb in Hs. lia. }
  assert (Hnew : S (lastHandle (window s)) ∉ activeAnimations s).
  { intros Hin. apply Hi in Hin. lia. }
  split; [reflexivity|]. split; [lia|]. split; [exact Hfresh|].
  split; [simpl; apply lookup_insert_eq|].
  split.
  { unfold getActiveCount. simpl. rewrite size_union by set_solver.
    rewrite size_singleton. reflexivity. }
  assert (Hset : ({[S (lastHandle (window s))]} ∪ activeAnimations s)
                 ∖ {[S (lastHandle (window s))]} = activeAnimations s)
    by set_solver.
  unfold fire at 1 2. simpl. rewrite !lookup_insert_eq.
  unfold wrapper. simpl.
  split; [reflexivity|]. split; [unfold getActiveCount; simpl; rewrite Hset; reflexivity|].
  unfold fire. simpl. rewrite lookup_insert_eq. unfold wrapper. simpl.
  rewrite lookup_delete_eq. reflexivity.
Qed.

(** A frame requested from a new manager and delivered at time 16. *)
Lemma requestFrame_schedules_once_witness :
  fst (requestFrame (run create []) 7%nat) = 1%nat /\
  log (fire (snd (requestFrame (run create []) 7%nat)) 1%nat 16)
  = [mkInvocation 7%nat 16].
Proof.
  destruct (requestFrame_schedules_once [] 7%nat 16 32 eq_refl)
    as (H1 & _ & _ & _ & _ & H6 & _).
  split; [exact H1|]. rewrite H1 in H6. exact H6.
Defined.

Lemma cancelled_step s o id :
  (id <= lastHandle (window s))%nat ->
  pending (window s) !! id = None ->
  (id <= lastHandle (window (step s o)))%nat /\
  pending (window (step s o)) !! id = None /\
  (forall t, log (fire s id t) = log s).
Proof.
  intros Hle Hnone.
  assert (Hfire : forall t, log (fire s id t) = log s).
  { intros t. unfold fire. rewrite Hnone. reflexivity. }
  split; [|split; [|exact Hfire]].
  - destruct o; cbn [step]; simpl; auto.
    + unfold requestFrame. destruct (isDestroyed s); simpl; lia.
    + unfold cancelAllFrames. simpl. rewrite cancel_list_lastHandle. exact Hle.
    + unfold destroy, cancelAllFrames. simpl. rewrite cancel_list_lastHandle.
      exact Hle.
    + unfold fire. destruct (pending (window s) !! handle) as [[?|?]|];
        unfold wrapper; simpl; auto.
      destruct (isDestroyed s); simpl; exact Hle.
  - destruct o; cbn [step].
    + unfold requestFrame. destruct (isDestroyed s); simpl; auto.
      rewrite lookup_insert_ne by lia. exact Hnone.
    + simpl. rewrite lookup_delete. case_decide; auto.
    + rewrite cancelAllFrames_lookup. case_decide; auto.
    + unfold destroy; cbv zeta. rewrite cancelAllFrames_lookup.
      case_decide; auto.
    + unfold fire. destruct (pending (window s) !! handle) as [[?|?]|] eqn:E;
        unfold wrapper; simpl; auto.
      * destruct (isDestroyed s); simpl; rewrite lookup_delete;
          case_decide; auto.
      * rewrite lookup_delete. case_decide; auto.
    + simpl. rewrite lookup_insert_ne by lia. exact Hnone.
    + simpl. rewrite lookup_delete. case_decide; auto.
Qed.

(** Handles are not reused, so a cancelled frame stays cancelled: after
    [cancelFrame(id)] for a handle that the window has handed out, the
    handle is no longer tracked, and whatever happens next the window
    holds nothing under that handle and a frame for it calls nothing. *)
Theorem cancelFrame_stays_cancelled (s : State) (id : nat) (after : list Op)
    (t : R) :
  (id <= lastHandle (window s))%nat ->
  let s' := run (cancelFrame s id) after in
  (id ∉ activeAnimations (cancelFrame s id)) /\
  log (cancelFrame s id) = log s /\
  pending (window s') !! id = None /\
  log (fire s' id t) = log s'.
Proof.
  intros Hle. cbv zeta.
  split; [simpl; set_solver|]. split; [reflexivity|].
  assert (H0 : (id <= lastHandle (window (cancelFrame s id)))%nat /\
               pending (window (cancelFrame s id)) !! id = None).
  { split; [exact Hle | simpl; apply lookup_delete_eq]. }
  revert H0. generalize (cancelFrame s id). intros s0.
  revert s0. induction after as [|o after IH]; intros s0 [H1 H2]; simpl.
  - split; [exact H2|]. unfold fire. rewrite H2. reflexivity.
  - destruct (cancelled_step s0 o id H1 H2) as (H1' & H2' & _).
    apply IH. split; assumption.
Qed.

(** A frame requested, cancelled, then due all the same. *)
Lemma cancelFrame_stays_cancelled_witness :
  log (fire (run (cancelFrame (snd (requestFrame create 7%nat)) 1%nat)
                 [RequestFrame 8%nat]) 1%nat 16) =
  log (run (cancelFrame (snd (requestFrame create 7%nat)) 1%nat)
           [RequestFrame 8%nat]).
Proof.
  apply (cancelFrame_stays_cancelled (snd (requestFrame create 7%nat)) 1%nat
           [RequestFrame 8%nat] 16).
  simpl. lia.
Defined.

Lemma cancelAllFrames_twice s : cancelAllFrames (cancelAllFrames s) = cancelAllFrames s.
Proof.
  unfold cancelAllFrames at 1. simpl. rewrite elements_empty. simpl.
  unfold cancelAllFrames. reflexivity.
Qed.

(** Tearing down twice is tearing down once: [cancelAllFrames] and
    [destroy] are idempotent.  After [cancelAllFrames] nothing of the
    manager is scheduled and the count is 0, but the manager stays
    usable: a later [requestFrame] schedules a frame again, which after
    [destroy] it never does. *)
Theorem teardown_idempotent (ops : list Op) (callback : Callback) :
  let s := run create ops in
  cancelAllFrames (cancelAllFrames s) = cancelAllFrames s /\
  destroy (destroy s) = destroy s /\
  nothingScheduled (cancelAllFrames s) /\
  getActiveCount (cancelAllFrames s) = 0%nat /\
  log (cancelAllFrames s) = log s /\
  isDestroyed (cancelAllFrames s) = isDestroyed s /\
  (isDestroyed s = false ->
   fst (requestFrame (cancelAllFrames s) callback) <> 0%nat /\
   getActiveCount (snd (requestFrame (cancelAllFrames s) callback)) = 1%nat) /\
  fst (requestFrame (destroy s) callback) = 0%nat.
Proof.
  cbv zeta.
  pose proof (tracked_run ops create tracked_create) as [Ht Hb].
  set (s := run create ops) in *.
  split; [apply cancelAllFrames_twice|].
  split.
  { unfold destroy at 1. cbv zeta. unfold destroy at 1 2 3 4. cbv zeta.
    unfold cancelAllFrames at 1. simpl. rewrite elements_empty. simpl.
    unfold destroy; cbv zeta. unfold cancelAllFrames. reflexivity. }
  split.
  { intros id cb H. rewrite cancelAllFrames_lookup in H.
    case_decide; [discriminate|]. apply Ht in H. contradiction. }
  split; [reflexivity|].
  split; [reflexivity|]. split; [reflexivity|].
  split.
  - intros Hlive. unfold requestFrame.
    change (isDestroyed (cancelAllFrames s)) with (isDestroyed s).
    rewrite Hlive. cbn [requestAnimationFrame fst snd].
    split; [lia|]. unfold getActiveCount.
    cbn [activeAnimations cancelAllFrames].
    rewrite (right_id_L (∅ : gset nat) (∪)). apply size_singleton.
  - unfold requestFrame. simpl. reflexivity.
Qed.

(** Pausing a manager with one frame pending, then asking again. *)
Lemma teardown_idempotent_witness :
  fst (requestFrame (cancelAllFrames (run create [RequestFrame 7%nat])) 8%nat)
  <> 0%nat.
Proof.
  destruct (teardown_idempotent [RequestFrame 7%nat] 8%nat)
    as (_ & _ & _ & _ & _ & _ & H & _).
  apply H. reflexivity.
Defined.

End FrameManagerProperties.

(* ================================================================== *)
(** * The animation loop and the life cycle of the component *)
(* ================================================================== *)

Module Lifecycle.

Module AFM := AnimationFrameManager.

(** [ComponentState] of core/lifecycle/Component. *)
Inductive ComponentState :=
  | CREATED | INITIALIZING | INITIALIZED | MOUNTED | ACTIVE | PAUSED
  | UNMOUNTING | DESTROYED | ERROR.

(** The component once [onInit] has run: the state of the base class,
    the fields of [NodeNetworkAnimation] that drive the loop, the
    simulation, and what has been drawn, one list of calls per rendered
    frame.  [cleanupFunctions] counts the functions registered with
    [addCleanup]; [listening] tells whether the listeners that they
    remove are still attached. *)
Record Component := mkComponent {
  state : ComponentState;
  cleanupFunctions : nat;
  listening : bool;
  animationManager : AFM.State;
  resizeObserverConnected : bool;
  canvasInDocument : bool;
  lastUpdateTime : R;
  isVisible : bool;
  animation : Animation;
  frames : list (list DrawCall)
}.

Definition setState (this : Component) (newState : ComponentState) : Component :=
  mkComponent newState (cleanupFunctions this) (listening this)
    (animationManager this) (resizeObserverConnected this)
    (canvasInDocument this) (lastUpdateTime this) (isVisible this)
    (animation this) (frames this).
Definition set_animationManager (this : Component) (m : AFM.State) : Component :=
  mkComponent (state this) (cleanupFunctions this) (listening this)
    m (resizeObserverConnected this)
    (canvasInDocument this) (lastUpdateTime this) (isVisible this)
    (animation this) (frames this).
Definition set_lastUpdateTime (this : Component) (t : R) : Component :=
  mkComponent (state this) (cleanupFunctions this) (listening this)
    (animationManager this) (resizeObserverConnected this)
    (canvasInDocument this) t (isVisible this)
    (animation this) (frames this).
Definition set_isVisible (this : Component) (v : bool) : Component :=
  mkComponent (state this) (cleanupFunctions this) (listening this)
    (animationManager this) (resizeObserverConnected this)
    (canvasInDocument this) (lastUpdateTime this) v
    (animation this) (frames this).
Definition set_animation (this : Component) (a : Animation) : Component :=
  mkComponent (state this) (cleanupFunctions this) (listening this)
    (animationManager this) (resizeObserverConnected this)
    (canvasInDocument this) (lastUpdateTime this) (isVisible this)
    a (frames this).
Definition set_frames (this : Component) (l : list (list DrawCall)) : Component :=
  mkComponent (state this) (cleanupFunctions this) (listening this)
    (animationManager this) (resizeObserverConnected this)
    (canvasInDocument this) (lastUpdateTime this) (isVisible this)
    (animation this) l.

Definition set_frameSkip (this : Animation) (n : Z) : Animation :=
  mkAnimation (canvas this) (nodes this) (connections this)
    (maxConnectionDistance this) n (frameSkipMax this) (lastScrollY this)
    (scrollVelocity this) (this_isDragging this) (draggedNode this)
    (mousePosition this) (mouseOffset this).

Definition isActive (this : Component) : bool :=
  match state this with ACTIVE => true | _ => false end.

Definition isDestroyed (this : Component) : bool :=
  match state this with DESTROYED => true | _ => false end.

(** The closure [(timestamp) => { this.animate(timestamp); }], the only
    callback that the component gives to its manager. *)
Definition animateCallback : AFM.Callback := 0%nat.

Definition startAnimation (this : Component) : Component :=
  if negb (isVisible this) || negb (isActive this) then this
  else
    set_animationManager this
      (snd (AFM.requestFrame (animationManager this) animateCallback)).

Definition onActivate (this : Component) : Component :=
  let this := set_isVisible this true in
  startAnimation this.

Definition onPause (this : Component) : Component :=
  let this := set_isVisible this false in
  set_animationManager this (AFM.cancelAllFrames (animationManager this)).

Definition onDestroy (this : Component) : Component :=
  let this := set_animationManager this (AFM.destroy (animationManager this)) in
  mkComponent (state this) (cleanupFunctions this) (listening this)
    (animationManager this) false false (lastUpdateTime this) (isVisible this)
    (animation this) (frames this).

Definition runCleanupFunctions (this : Component) : Component :=
  mkComponent (state this) 0 false
    (animationManager this) (resizeObserverConnected this)
    (canvasInDocument this) (lastUpdateTime this) (isVisible this)
    (animation this) (frames this).

Definition activate (this : Component) : Component :=
  match state this with
  | MOUNTED | PAUSED =>
      let this := onActivate this in
      setState this ACTIVE
  | _ => this
  end.

Definition pause (this : Component) : Component :=
  match state this with
  | ACTIVE =>
      let this := onPause this in
      setState this PAUSED
  | _ => this
  end.

Definition destroy (this : Component) : Component :=
  match state this with
  | DESTROYED => this
  | _ =>
      let this := setState this UNMOUNTING in
      let this := onDestroy this in
      let this := runCleanupFunctions this in
      setState this DESTROYED
  end.

(** The listener of [visibilitychange], given [document.hidden]; it is
    called as long as it is attached. *)
Definition handleVisibilityChange (this : Component) (hidden : bool) : Component :=
  if listening this then
    let this := set_isVisible this (negb hidden) in
    if isVisible this && isActive this
    then startAnimation this
    else set_animationManager this (AFM.cancelAllFrames (animationManager this))
  else this.

(** The time stamp that the window passes to the frame callback, and
    what the callback reads: [performance.now()] and
    [window.devicePixelRatio]. *)
Record FrameTime := mkFrameTime {
  frame_timestamp : R;
  frame_now : R;
  frame_dpr : R
}.

(** The client callback that the closure of the manager calls when the
    window delivers the frame of a handle, if it calls one. *)
Definition invokedBy (s : AFM.State) (handle : nat) : option AFM.Callback :=
  match AFM.pending (AFM.window s) !! handle with
  | Some (AFM.Wrapper callback) =>
      if AFM.isDestroyed s then None else Some callback
  | _ => None
  end.

Section Loop.

Variable rnd : nat -> R.

Definition animate (this : Component) (currentTime now devicePixelRatio : R)
  : Gen Component :=
  if negb (isVisible this) || negb (isActive this) then ret this
  else
    (* Frame skipping for performance during scroll *)
    let this :=
      set_animation this
        (set_frameSkip (animation this) (frameSkip (animation this) + 1)) in
    if (frameSkip (animation this) <? frameSkipMax (animation this))%Z
    then ret (startAnimation this)
    else
      let this := set_animation this (set_frameSkip (animation this) 0) in
      let deltaTime := currentTime - lastUpdateTime this in
      let this := set_lastUpdateTime this currentTime in
      let* a := updateNodes rnd (animation this) deltaTime now devicePixelRatio in
      let a := updateConnections a in
      let* calls := render rnd a devicePixelRatio in
      let this := set_frames (set_animation this a) (frames this ++ [calls]) in
      ret (startAnimation this).

(** The window delivers the frame of a handle. *)
Definition deliverFrame (this : Component) (handle : nat) (f : FrameTime)
  : Gen Component :=
  let invoked := invokedBy (animationManager this) handle in
  let this :=
    set_animationManager this
      (AFM.fire (animationManager this) handle (frame_timestamp f)) in
  match invoked with
  | Some _ => animate this (frame_timestamp f) (frame_now f) (frame_dpr f)
  | None => ret this
  end.

(** The window delivers the frame that was requested last. *)
Definition nextFrame (this : Component) (f : FrameTime) : Gen Component :=
  deliverFrame this (AFM.lastHandle (AFM.window (animationManager this))) f.

Fixpoint deliverFrames (this : Component) (fs : list FrameTime)
  : Gen Component :=
  match fs with
  | [] => ret this
  | f :: fs' =>
      let* this := nextFrame this f in
      deliverFrames this fs'
  end.

End Loop.

(** The loop is running: the component is active and visible, and the
    one pending frame of its manager is the frame requested last. *)
Definition running (this : Component) : Prop :=
  let m := animationManager this in
  let h := AFM.lastHandle (AFM.window m) in
  state this = ACTIVE /\ isVisible this = true /\
  AFM.isDestroyed m = false /\
  AFM.pending (AFM.window m) !! h = Some (AFM.Wrapper animateCallback) /\
  AFM.activeAnimations m = {[h]}.

(** The loop is stopped: no frame of the manager is pending. *)
Definition stopped (this : Component) : Prop :=
  AFM.nothingScheduled (animationManager this) /\
  AFM.activeAnimations (animationManager this) = ∅.

Lemma invokedBy_log s handle t :
  AFM.log (AFM.fire s handle t) =
  AFM.log s ++ match invokedBy s handle with
               | Some callback => [AFM.mkInvocation callback t]
               | None => []
               end.
Proof.
  unfold AFM.fire, invokedBy.
  destruct (AFM.pending (AFM.window s) !! handle) as [[c|c]|]; simpl;
    try (rewrite app_nil_r; reflexivity).
  unfold AFM.wrapper. simpl.
  destruct (AFM.isDestroyed s); simpl; [rewrite app_nil_r|]; reflexivity.
Qed.

Lemma set_frameSkip_id a : set_frameSkip a (frameSkip a) = a.
Proof. destruct a; reflexivity. Qed.

Lemma set_frameSkip_twice a n m :
  set_frameSkip (set_frameSkip a n) m = set_frameSkip a m.
Proof. reflexivity. Qed.

(** The manager after the frame of a running loop has been delivered
    and the next one requested. *)
Lemma rearm_running (m : AFM.State) (t : R) :
  let h := AFM.lastHandle (AFM.window m) in
  AFM.isDestroyed m = false ->
  AFM.pending (AFM.window m) !! h = Some (AFM.Wrapper animateCallback) ->
  AFM.activeAnimations m = {[h]} ->
  let m' := snd (AFM.requestFrame (AFM.fire m h t) animateCallback) in
  invokedBy m h = Some animateCallback /\
  AFM.isDestroyed m' = false /\
  AFM.lastHandle (AFM.window m') = S h /\
  AFM.pending (AFM.window m') !! S h = Some (AFM.Wrapper animateCallback) /\
  AFM.pending (AFM.window m') !! h = None /\
  AFM.activeAnimations m' = {[S h]} /\
  AFM.log m' = AFM.log m ++ [AFM.mkInvocation animateCallback t].
Proof.
  cbv zeta. intros Hd Hp Ha.
  unfold invokedBy, AFM.fire, AFM.requestFrame, AFM.wrapper.
  rewrite !Hp. simpl. rewrite !Hd. simpl.
  split; [reflexivity|].
  split; [reflexivity|]. split; [reflexivity|].
  split; [apply lookup_insert_eq|].
  split; [rewrite lookup_insert_ne by lia; apply lookup_delete_eq|].
  split; [rewrite Ha; set_solver | reflexivity].
Qed.

Section LoopFacts.

Variable rnd : nat -> R.

(** A frame of a running loop below the threshold of the frame skip:
    only the counter changes, and the next frame is requested. *)
Lemma nextFrame_skipped (this : Component) (f : FrameTime) (k : nat) :
  running this ->
  (frameSkip (animation this) + 1 < frameSkipMax (animation this))%Z ->
  let r := nextFrame rnd this f k in
  animation (fst r) =
    set_frameSkip (animation this) (frameSkip (animation this) + 1) /\
  lastUpdateTime (fst r) = lastUpdateTime this /\
  frames (fst r) = frames this /\
  snd r = k /\
  running (fst r) /\
  AFM.lastHandle (AFM.window (animationManager (fst r))) =
    S (AFM.lastHandle (AFM.window (animationManager this))).
Proof.
  intros (Hs & Hv & Hd & Hp & Ha) Hlt. cbv zeta.
  destruct (rearm_running (animationManager this) (frame_timestamp f) Hd Hp Ha)
    as (Hi & Hd' & Hh' & Hp' & _ & Ha' & _).
  unfold nextFrame, deliverFrame. cbv zeta. rewrite Hi.
  unfold animate, startAnimation, isActive.
  cbn [isVisible state set_animationManager set_animation animation
       animationManager frameSkip frameSkipMax set_frameSkip].
  rewrite Hv, Hs. cbn [negb orb].
  rewrite (proj2 (Z.ltb_lt _ _) Hlt).
  cbn [ret fst snd animation lastUpdateTime frames set_animationManager].
  do 4 (split; [reflexivity|]). split; [|exact Hh'].
  unfold running. cbv zeta.
  cbn [animationManager set_animationManager state isVisible].
  rewrite Hh'. auto.
Qed.

(** A frame of a running loop at the threshold: the counter starts
    again, the simulation advances by the time since the last frame
    that was processed, the frame is drawn, and the next frame is
    requested. *)
Lemma nextFrame_processed (this : Component) (f : FrameTime) (k : nat) :
  running this ->
  (frameSkipMax (animation this) <= frameSkip (animation this) + 1)%Z ->
  let r := nextFrame rnd this f k in
  let deltaTime := frame_timestamp f - lastUpdateTime this in
  let u := updateNodes rnd (set_frameSkip (animation this) 0) deltaTime
                       (frame_now f) (frame_dpr f) k in
  let a := updateConnections (fst u) in
  let d := render rnd a (frame_dpr f) (snd u) in
  animation (fst r) = a /\
  lastUpdateTime (fst r) = frame_timestamp f /\
  frames (fst r) = frames this ++ [fst d] /\
  snd r = snd d /\
  running (fst r) /\
  AFM.lastHandle (AFM.window (animationManager (fst r))) =
    S (AFM.lastHandle (AFM.window (animationManager this))).
Proof.
  intros (Hs & Hv & Hd & Hp & Ha) Hge. cbv zeta.
  destruct (rearm_running (animationManager this) (frame_timestamp f) Hd Hp Ha)
    as (Hi & Hd' & Hh' & Hp' & _ & Ha' & _).
  unfold nextFrame, deliverFrame. cbv zeta. rewrite Hi.
  unfold animate, startAnimation, isActive.
  cbn [isVisible state set_animationManager set_animation animation
       animationManager frameSkip frameSkipMax set_frameSkip
       set_lastUpdateTime set_frames lastUpdateTime frames].
  rewrite Hv, Hs. cbn [negb orb].
  rewrite (proj2 (Z.ltb_ge _ _) Hge).
  unfold bind. rewrite set_frameSkip_twice.
  destruct (updateNodes rnd (set_frameSkip (animation this) 0)
              (frame_timestamp f - lastUpdateTime this) (frame_now f)
              (frame_dpr f) k) as [a k1].
  cbn [fst snd].
  destruct (render rnd (updateConnections a) (frame_dpr f) k1) as [calls k2].
  cbn [ret fst snd animation lastUpdateTime frames set_animationManager
       set_frames set_animation set_lastUpdateTime animationManager].
  do 4 (split; [reflexivity|]). split; [|exact Hh'].
  unfold running. cbv zeta.
  cbn [animationManager set_animationManager state isVisible].
  rewrite Hh'. auto.
Qed.

Lemma deliverFrames_skipped (skipped : list FrameTime) :
  forall (this : Component) (k : nat),
  running this ->
  (frameSkip (animation this) + Z.of_nat (length skipped)
   < frameSkipMax (animation this))%Z ->
  let r := deliverFrames rnd this skipped k in
  animation (fst r) =
    set_frameSkip (animation this)
                  (frameSkip (animation this) + Z.of_nat (length skipped)) /\
  lastUpdateTime (fst r) = lastUpdateTime this /\
  frames (fst r) = frames this /\
  snd r = k /\
  running (fst r) /\
  AFM.lastHandle (AFM.window (animationManager (fst r))) =
    (AFM.lastHandle (AFM.window (animationManager this)) + length skipped)%nat.
Proof.
  induction skipped as [|f fs IH]; intros this k Hr Hlt; cbv zeta.
  - cbn [deliverFrames ret fst snd length]. rewrite Z.add_0_r, set_frameSkip_id.
    do 4 (split; [reflexivity|]). split; [exact Hr | lia].
  - cbn [length] in Hlt. cbn [deliverFrames]. rewrite fst_bind.
    destruct (nextFrame_skipped this f k Hr ltac:(lia))
      as (Ea & El & Ef & Ek & Hr' & Eh).
    assert (Hlt' : (frameSkip (animation (fst (nextFrame rnd this f k)))
                    + Z.of_nat (length fs)
                    < frameSkipMax (animation (fst (nextFrame rnd this f k))))%Z).
    { rewrite Ea. cbn [frameSkip frameSkipMax set_frameSkip]. lia. }
    rewrite Ek.
    destruct (IH _ k Hr' Hlt') as (Ea' & El' & Ef' & Ek' & Hr'' & Eh').
    rewrite Ea', El', Ef', Ek', Eh', Ea, El, Ef, Eh.
    cbn [frameSkip set_frameSkip length]. rewrite set_frameSkip_twice.
    split; [f_equal; lia|]. do 3 (split; [reflexivity|]).
    split; [exact Hr'' | lia].
Qed.

End LoopFacts.

(** With a threshold [frameSkipMax] of n, the loop processes the n-th
    frame of n frames delivered in a row.  The frames before it change
    the counter and nothing else: no node moves, nothing is drawn, no
    random number is drawn.  The n-th frame advances the simulation by
    the time since the last processed frame, so by the time of all n
    frames, draws the frame and sets the counter to 0 again.  The loop
    has one pending frame throughout. *)
Theorem animate_every_nth_frame (rnd : nat -> R) (this : Component)
    (skipped : list FrameTime) (f : FrameTime) (k : nat) :
  running this ->
  frameSkip (animation this) = 0%Z ->
  frameSkipMax (animation this) = Z.of_nat (S (length skipped)) ->
  let idle := deliverFrames rnd this skipped k in
  let r := nextFrame rnd (fst idle) f (snd idle) in
  let deltaTime := frame_timestamp f - lastUpdateTime this in
  let u := updateNodes rnd (animation this) deltaTime
                       (frame_now f) (frame_dpr f) k in
  let a := updateConnections (fst u) in
  let d := render rnd a (frame_dpr f) (snd u) in
  (animation (fst idle) =
     set_frameSkip (animation this) (Z.of_nat (length skipped)) /\
   lastUpdateTime (fst idle) = lastUpdateTime this /\
   frames (fst idle) = frames this /\
   snd idle = k /\
   running (fst idle)) /\
  (animation (fst r) = a /\
   frameSkip (animation (fst r)) = 0%Z /\
   lastUpdateTime (fst r) = frame_timestamp f /\
   frames (fst r) = frames this ++ [fst d] /\
   snd r = snd d /\
   running (fst r) /\
   AFM.lastHandle (AFM.window (animationManager (fst r))) =
     (AFM.lastHandle (AFM.window (animationManager this))
      + S (length skipped))%nat).
Proof.
  intros Hr H0 Hn. cbv zeta.
  destruct (deliverFrames_skipped rnd skipped this k Hr ltac:(lia))
    as (Ea & El & Ef & Ek & Hr' & Eh).
  rewrite H0, Z.add_0_l in Ea.
  split; [do 4 (split; [assumption|]); exact Hr'|].
  assert (Hge : (frameSkipMax (animation (fst (deliverFrames rnd this skipped k)))
                 <= frameSkip (animation (fst (deliverFrames rnd this skipped k)))
                    + 1)%Z).
  { rewrite Ea. cbn [frameSkip frameSkipMax set_frameSkip]. lia. }
  rewrite Ek.
  destruct (nextFrame_processed rnd _ f k Hr' Hge)
    as (Ea' & El' & Ef' & Ek' & Hr'' & Eh').
  rewrite Ea', El', Ef', Ek', Eh', Ea, El, Ef, Eh.
  rewrite set_frameSkip_twice, <- H0, set_frameSkip_id.
  split; [reflexivity|].
  split; [unfold updateNodes, updateConnections; cbv zeta; rewrite fst_bind;
          reflexivity|].
  do 3 (split; [reflexivity|]). split; [exact Hr'' | lia].
Qed.

(** A loop that is running, with a threshold of 2 for the frame skip
    as after a scroll of middle speed. *)
Definition runningLoop : Component :=
  mkComponent ACTIVE 2 true
    (snd (AFM.requestFrame AFM.create animateCallback)) true true 0 true
    (set_scroll threeNodes 2 10 10) [].

Lemma runningLoop_running : running runningLoop.
Proof.
  unfold running. cbv zeta. repeat split; reflexivity.
Qed.

Lemma runningLoop_tracked : AFM.tracked (animationManager runningLoop).
Proof.
  apply (AFM.tracked_step AFM.create (AFM.RequestFrame animateCallback)).
  apply AFM.tracked_create.
Qed.

(** The second of two frames is the one that is processed. *)
Lemma animate_every_nth_frame_witness :
  let idle := deliverFrames rndHalf runningLoop [mkFrameTime 16 16 1] 0%nat in
  let r := nextFrame rndHalf (fst idle) (mkFrameTime 32 32 1) (snd idle) in
  nodes (animation (fst idle)) = nodes threeNodes /\
  frames (fst idle) = [] /\
  lastUpdateTime (fst r) = 32 /\
  length (frames (fst r)) = 1%nat.
Proof.
  cbv zeta.
  destruct (animate_every_nth_frame rndHalf runningLoop [mkFrameTime 16 16 1]
              (mkFrameTime 32 32 1) 0%nat runningLoop_running eq_refl eq_refl)
    as ((Ea & _ & Ef & _) & (_ & _ & El & Ef' & _)).
  rewrite Ea, Ef, El, Ef'. repeat split; reflexivity.
Defined.

Lemma set_animationManager_id this :
  set_animationManager this (animationManager this) = this.
Proof. destruct this; reflexivity. Qed.

(** [activate] does not start the loop.  [onActivate] runs before the
    state is set to [ACTIVE], so that [startAnimation] finds the
    component not active and returns: the manager is left as it is, in
    every state of the component.  From [MOUNTED] or [PAUSED] the
    component becomes active and visible with no frame requested; the
    loop starts with the next [visibilitychange] event of a document
    that is not hidden. *)
Theorem activate_requests_no_frame (this : Component) :
  animationManager (activate this) = animationManager this /\
  animation (activate this) = animation this /\
  frames (activate this) = frames this /\
  (state this = MOUNTED \/ state this = PAUSED ->
   state (activate this) = ACTIVE /\ isVisible (activate this) = true /\
   activate (activate this) = activate this /\
   (listening this = true ->
    AFM.isDestroyed (animationManager this) = false ->
    (forall id, id ∈ AFM.activeAnimations (animationManager this) ->
                (id <= AFM.lastHandle (AFM.window (animationManager this)))%nat) ->
    let shown := handleVisibilityChange (activate this) false in
    let h := S (AFM.lastHandle (AFM.window (animationManager this))) in
    AFM.lastHandle (AFM.window (animationManager shown)) = h /\
    AFM.pending (AFM.window (animationManager shown)) !! h =
      Some (AFM.Wrapper animateCallback) /\
    AFM.getActiveCount (animationManager shown) =
      S (AFM.getActiveCount (animationManager this)))).
Proof.
  assert (H : forall st, state this = st -> st = MOUNTED \/ st = PAUSED ->
            activate this = setState (set_isVisible this true) ACTIVE).
  { intros st Hst Hor. unfold activate, onActivate, startAnimation, isActive.
    cbv zeta. cbn [state set_isVisible isVisible]. rewrite Hst.
    destruct Hor as [-> | ->]; cbn [negb orb]; reflexivity. }
  split; [|split; [|split]].
  - unfold activate, onActivate, startAnimation, isActive. cbv zeta.
    cbn [state set_isVisible isVisible].
    destruct (state this); cbn [negb orb]; reflexivity.
  - unfold activate, onActivate, startAnimation, isActive. cbv zeta.
    cbn [state set_isVisible isVisible].
    destruct (state this); cbn [negb orb]; reflexivity.
  - unfold activate, onActivate, startAnimation, isActive. cbv zeta.
    cbn [state set_isVisible isVisible].
    destruct (state this); cbn [negb orb]; reflexivity.
  - intros Hor. rewrite (H (state this) eq_refl Hor).
    split; [reflexivity|]. split; [reflexivity|]. split; [reflexivity|].
    intros Hl Hd Hi. cbv zeta.
    unfold handleVisibilityChange, startAnimation, isActive.
    cbn [listening setState set_isVisible isVisible state negb andb orb
         animationManager set_animationManager].
    rewrite Hl. cbn [negb andb orb animationManager set_animationManager].
    unfold AFM.requestFrame. rewrite Hd.
    cbn [AFM.requestAnimationFrame fst snd AFM.window AFM.lastHandle
         AFM.pending AFM.activeAnimations].
    split; [reflexivity|]. split; [apply lookup_insert_eq|].
    unfold AFM.getActiveCount. cbn [AFM.activeAnimations].
    rewrite size_union.
    + rewrite size_singleton. reflexivity.
    + apply disjoint_singleton_l. intros Hin. apply Hi in Hin. lia.
Qed.

(** A component that has been mounted and is activated. *)
Definition mountedLoop : Component :=
  mkComponent MOUNTED 2 true AFM.create true true 0 true threeNodes [].

Lemma activate_requests_no_frame_witness :
  state (activate mountedLoop) = ACTIVE /\
  AFM.getActiveCount (animationManager (activate mountedLoop)) = 0%nat /\
  AFM.getActiveCount
    (animationManager (handleVisibilityChange (activate mountedLoop) false))
  = 1%nat.
Proof.
  destruct (activate_requests_no_frame mountedLoop) as (Hm & _ & _ & H).
  destruct (H (or_introl eq_refl)) as (Hs & _ & _ & Hv).
  split; [exact Hs|]. rewrite Hm. split; [reflexivity|].
  destruct (Hv eq_refl eq_refl) as (_ & _ & Hc).
  - intros id Hid. simpl in Hid. set_solver.
  - exact Hc.
Defined.

Section Stopping.

Variable rnd : nat -> R.

(** A frame for a handle under which the window holds nothing of the
    manager leaves the component as it is, but for the window. *)
Lemma deliverFrame_not_invoked this handle f k :
  invokedBy (animationManager this) handle = None ->
  deliverFrame rnd this handle f k =
  (set_animationManager this
     (AFM.fire (animationManager this) handle (frame_timestamp f)), k).
Proof. intros H. unfold deliverFrame. cbv zeta. rewrite H. reflexivity. Qed.

Lemma invokedBy_nothingScheduled s handle :
  AFM.nothingScheduled s -> invokedBy s handle = None.
Proof.
  intros H. unfold invokedBy.
  destruct (AFM.pending (AFM.window s) !! handle) as [[c|c]|] eqn:E; auto.
  destruct (H _ _ E).
Qed.

Lemma cancelAllFrames_stopped s :
  AFM.tracked s ->
  AFM.nothingScheduled (AFM.cancelAllFrames s) /\
  AFM.activeAnimations (AFM.cancelAllFrames s) = ∅.
Proof.
  intros [Ht _]. split; [|reflexivity].
  intros id cb H. rewrite AFM.cancelAllFrames_lookup in H.
  case_decide; [discriminate|]. apply Ht in H. contradiction.
Qed.

(** [pause] stops the loop: the pending frame is cancelled, so that a
    frame that is due calls nothing and changes neither the simulation
    nor the canvas.  And since [activate] requests no frame, the loop
    is still stopped after [pause] and [activate]: the component is
    active and visible, no frame is pending, and the simulation stands
    still until a [visibilitychange] event starts the loop. *)
Theorem pause_stops_loop (this : Component) (handle : nat) (f : FrameTime)
    (k : nat) :
  running this ->
  AFM.tracked (animationManager this) ->
  let paused := pause this in
  let resumed := activate paused in
  (state paused = PAUSED /\ isVisible paused = false /\ stopped paused /\
   AFM.getActiveCount (animationManager paused) = 0%nat /\
   animation paused = animation this) /\
  (let r := deliverFrame rnd paused handle f k in
   animation (fst r) = animation this /\ frames (fst r) = frames this /\
   lastUpdateTime (fst r) = lastUpdateTime this /\ snd r = k /\
   AFM.log (animationManager (fst r)) = AFM.log (animationManager this)) /\
  (state resumed = ACTIVE /\ isVisible resumed = true /\ stopped resumed /\
   let r := deliverFrame rnd resumed handle f k in
   animation (fst r) = animation this /\ frames (fst r) = frames this /\
   lastUpdateTime (fst r) = lastUpdateTime this /\ snd r = k) /\
  (listening this = true -> running (handleVisibilityChange resumed false)).
Proof.
  intros (Hs & Hv & Hd & Hp & Ha) Ht. cbv zeta.
  destruct (cancelAllFrames_stopped _ Ht) as [Hn He].
  assert (Epause : pause this =
            setState (set_animationManager (set_isVisible this false)
                        (AFM.cancelAllFrames (animationManager this))) PAUSED).
  { unfold pause, onPause. rewrite Hs. reflexivity. }
  assert (Eres : activate (pause this) =
            setState (set_isVisible (pause this) true) ACTIVE).
  { rewrite Epause. reflexivity. }
  split; [|split; [|split]].
  - rewrite Epause. split; [reflexivity|]. split; [reflexivity|].
    split; [split; assumption|]. split; reflexivity.
  - rewrite deliverFrame_not_invoked
      by (rewrite Epause; apply invokedBy_nothingScheduled, Hn).
    cbn [fst snd animation frames lastUpdateTime set_animationManager
         animationManager].
    rewrite invokedBy_log.
    rewrite (invokedBy_nothingScheduled _ handle)
      by (rewrite Epause; exact Hn).
    rewrite app_nil_r, Epause. repeat split; reflexivity.
  - rewrite Eres, Epause. split; [reflexivity|]. split; [reflexivity|].
    split; [split; assumption|].
    rewrite deliverFrame_not_invoked by (apply invokedBy_nothingScheduled, Hn).
    repeat split; reflexivity.
  - intros Hl. rewrite Eres, Epause.
    unfold handleVisibilityChange, startAnimation, isActive.
    cbn [listening setState set_isVisible isVisible state negb andb orb
         animationManager set_animationManager].
    rewrite Hl. cbn [negb andb orb animationManager set_animationManager].
    unfold running. cbv zeta.
    cbn [state isVisible animationManager set_animationManager].
    unfold AFM.requestFrame.
    change (AFM.isDestroyed (AFM.cancelAllFrames (animationManager this)))
      with (AFM.isDestroyed (animationManager this)).
    rewrite Hd.
    cbn [AFM.requestAnimationFrame fst snd AFM.window AFM.lastHandle
         AFM.pending AFM.activeAnimations AFM.isDestroyed].
    split; [reflexivity|]. split; [reflexivity|]. split; [reflexivity|].
    split; [apply lookup_insert_eq|].
    rewrite He. apply (right_id_L (∅ : gset nat) (∪)).
Qed.

(** [destroy] is final.  The manager is destroyed with nothing pending,
    the listeners are removed, the observer is disconnected and the
    canvas is taken out of the document; the simulation is left as it
    is.  Afterwards [destroy], [activate], [pause] and a
    [visibilitychange] event change nothing, and a frame that is due
    calls nothing. *)
Theorem destroy_is_final (this : Component) (handle : nat) (f : FrameTime)
    (k : nat) :
  AFM.tracked (animationManager this) ->
  state this <> DESTROYED ->
  let d := destroy this in
  (state d = DESTROYED /\ isDestroyed d = true /\
   cleanupFunctions d = 0%nat /\ listening d = false /\
   resizeObserverConnected d = false /\ canvasInDocument d = false /\
   AFM.isDestroyed (animationManager d) = true /\ stopped d /\
   animation d = animation this /\ frames d = frames this) /\
  destroy d = d /\ activate d = d /\ pause d = d /\
  (forall hidden, handleVisibilityChange d hidden = d) /\
  startAnimation d = d /\
  (let r := deliverFrame rnd d handle f k in
   animation (fst r) = animation this /\ frames (fst r) = frames this /\
   state (fst r) = DESTROYED /\ snd r = k /\
   AFM.log (animationManager (fst r)) = AFM.log (animationManager this)).
Proof.
  intros Ht Hs. cbv zeta.
  destruct (AFM.destroy_nothingScheduled _ Ht) as (Hn & He & Hd & Hl).
  assert (E : destroy this =
            mkComponent DESTROYED 0 false (AFM.destroy (animationManager this))
              false false (lastUpdateTime this) (isVisible this)
              (animation this) (frames this)).
  { unfold destroy. destruct (state this); try reflexivity. congruence. }
  rewrite E.
  split; [|split; [reflexivity|split; [reflexivity|split; [reflexivity|
    split; [intros hidden; reflexivity|
    split; [unfold startAnimation, isActive; cbn [isVisible state];
            destruct (isVisible this); reflexivity|]]]]]].
  - do 7 (split; [reflexivity || assumption|]).
    split; [split; assumption|]. split; reflexivity.
  - rewrite deliverFrame_not_invoked by (apply invokedBy_nothingScheduled, Hn).
    cbn [fst snd animation frames state set_animationManager animationManager].
    rewrite invokedBy_log, (invokedBy_nothingScheduled _ handle) by exact Hn.
    rewrite app_nil_r, Hl. repeat split; reflexivity.
Qed.

End Stopping.

Lemma pause_stops_loop_witness :
  state (pause runningLoop) = PAUSED /\
  stopped (activate (pause runningLoop)) /\
  running (handleVisibilityChange (activate (pause runningLoop)) false).
Proof.
  destruct (pause_stops_loop rndHalf runningLoop 1%nat (mkFrameTime 16 16 1)
              0%nat runningLoop_running runningLoop_tracked)
    as ((H1 & _) & _ & (_ & _ & H3 & _) & H4).
  split; [exact H1|]. split; [exact H3|]. apply H4. reflexivity.
Defined.

Lemma destroy_is_final_witness :
  state (destroy runningLoop) = DESTROYED /\
  activate (destroy runningLoop) = destroy runningLoop /\
  frames (fst (deliverFrame rndHalf (destroy runningLoop) 1%nat
                 (mkFrameTime 16 16 1) 0%nat)) = [].
Proof.
  destruct (destroy_is_final rndHalf runningLoop 1%nat (mkFrameTime 16 16 1)
              0%nat runningLoop_tracked)
    as ((H1 & _) & _ & H3 & _ & _ & _ & (_ & H7 & _)).
  - discriminate.
  - split; [exact H1|]. split; [exact H3 | exact H7].
Defined.

End Lifecycle.

(* ================================================================== *)
(** * The [Tween] class *)
(* ================================================================== *)

Module Tween.

(** The arrow function [this.tick], as the window knows it. *)
Definition tickCallback : AnimationFrameManager.Callback := 0%nat.

(** A tween with its window.  [updates] lists the values passed to
    [onUpdate], [completions] counts the calls of [onComplete]. *)
Record Tween := mkTween {
  from : R;
  to : R;
  duration : R;
  easingFn : R -> R;
  startTime : option R;
  frameId : option nat;
  isComplete : bool;
  updates : list R;
  completions : nat;
  window : AnimationFrameManager.Window
}.

(** [new Tween(from, to, duration, onUpdate, onComplete, easingFn)]. *)
Definition create (from to duration : R) (easingFn : R -> R)
    (window : AnimationFrameManager.Window) : Tween :=
  mkTween from to duration easingFn None None false [] 0 window.

Definition set_startTime (this : Tween) (t : option R) : Tween :=
  mkTween (from this) (to this) (duration this) (easingFn this) t
    (frameId this) (isComplete this) (updates this) (completions this)
    (window this).
Definition set_frame (this : Tween) (id : option nat)
    (w : AnimationFrameManager.Window) : Tween :=
  mkTween (from this) (to this) (duration this) (easingFn this)
    (startTime this) id (isComplete this) (updates this) (completions this) w.
Definition set_isComplete (this : Tween) (c : bool) : Tween :=
  mkTween (from this) (to this) (duration this) (easingFn this)
    (startTime this) (frameId this) c (updates this) (completions this)
    (window this).
Definition onUpdate (this : Tween) (value : R) : Tween :=
  mkTween (from this) (to this) (duration this) (easingFn this)
    (startTime this) (frameId this) (isComplete this)
    (updates this ++ [value]) (completions this) (window this).
Definition onComplete (this : Tween) : Tween :=
  mkTween (from this) (to this) (duration this) (easingFn this)
    (startTime this) (frameId this) (isComplete this)
    (updates this) (S (completions this)) (window this).

(** [!this.startTime]: [undefined] and 0 are falsy. *)
Definition notStarted (t : option R) : bool :=
  match t with
  | None => true
  | Some v => if Req_dec_T v 0 then true else false
  end.

(** [tick], with the [performance.now()] that it reads. *)
Definition tick (this : Tween) (now : R) : Tween :=
  if notStarted (startTime this) || isComplete this then this
  else
    let elapsed := now - opt_num_or (startTime this) 0 in
    let progress := Rmin (elapsed / duration this) 1 in
    let easedProgress := easingFn this progress in
    let value := lerp (from this) (to this) easedProgress in
    let this := onUpdate this value in
    if num_ge progress 1
    then
      let this := set_isComplete this true in
      onComplete this
    else
      let (id, w) :=
        AnimationFrameManager.requestAnimationFrame
          (window this) (AnimationFrameManager.Foreign tickCallback) in
      set_frame this (Some id) w.

(** [start], with the two readings of [performance.now()], its own and
    that of the first [tick]. *)
Definition start (this : Tween) (now now' : R) : Tween :=
  if isComplete this then this
  else
    let this := set_startTime this (Some now) in
    tick this now'.

Definition stop (this : Tween) : Tween :=
  match frameId this with
  | Some id =>
      set_frame this None
        (AnimationFrameManager.cancelAnimationFrame (window this) id)
  | None => this
  end.

Definition complete (this : Tween) : Tween :=
  let this := stop this in
  let this := set_isComplete this true in
  let this := onUpdate this (to this) in
  onComplete this.

(** The window delivers the frame of a handle: the callback is taken
    off the list, then run. *)
Definition deliver (this : Tween) (handle : nat) (now : R) : Tween :=
  match AnimationFrameManager.pending (window this) !! handle with
  | Some _ =>
      tick (set_frame this (frameId this)
              (AnimationFrameManager.cancelAnimationFrame (window this) handle))
           now
  | None => this
  end.

(** The window delivers the frame that the tween has requested last. *)
Definition nextTick (this : Tween) (now : R) : Tween :=
  match frameId this with
  | Some id => deliver this id now
  | None => this
  end.

(** The value that a tick at [now] passes to [onUpdate]. *)
Definition valueAt (this : Tween) (started now : R) : R :=
  lerp (from this) (to this)
       (easingFn this (Rmin ((now - started) / duration this) 1)).

(** The tween is under way: started at [started], not complete, with
    one tick pending in the window. *)
Definition underWay (this : Tween) (started : R) : Prop :=
  startTime this = Some started /\ started <> 0 /\ isComplete this = false /\
  exists id, frameId this = Some id /\
    AnimationFrameManager.pending (window this) !! id =
      Some (AnimationFrameManager.Foreign tickCallback).

(** The tween has the parameters of another one. *)
Definition sameTween (this that : Tween) : Prop :=
  from this = from that /\ to this = to that /\
  duration this = duration that /\ easingFn this = easingFn that.

Lemma progress_range (elapsed duration : R) :
  0 < duration -> 0 <= elapsed ->
  0 <= Rmin (elapsed / duration) 1 <= 1 /\
  (elapsed < duration -> Rmin (elapsed / duration) 1 < 1) /\
  (duration <= elapsed -> Rmin (elapsed / duration) 1 = 1).
Proof.
  intros Hd He.
  assert (H0 : 0 <= elapsed / duration).
  { apply Rmult_le_pos; [exact He|]. left. apply Rinv_0_lt_compat, Hd. }
  assert (H1 : elapsed < duration -> elapsed / duration < 1).
  { intros H. apply Rmult_lt_reg_r with duration; [exact Hd|].
    unfold Rdiv. rewrite Rmult_assoc, Rinv_l by lra. lra. }
  assert (H2 : duration <= elapsed -> 1 <= elapsed / duration).
  { intros H. apply Rmult_le_reg_r with duration; [exact Hd|].
    unfold Rdiv. rewrite Rmult_assoc, Rinv_l by lra. lra. }
  unfold Rmin. destruct (Rle_dec (elapsed / duration) 1); repeat split;
    intros; lra.
Qed.

Lemma progress_monotone (e e' duration : R) :
  0 < duration -> e <= e' ->
  Rmin (e / duration) 1 <= Rmin (e' / duration) 1.
Proof.
  intros Hd He.
  assert (H : e / duration <= e' / duration).
  { unfold Rdiv. apply Rmult_le_compat_r; [|exact He].
    left. apply Rinv_0_lt_compat, Hd. }
  unfold Rmin. destruct (Rle_dec (e / duration) 1),
                        (Rle_dec (e' / duration) 1); lra.
Qed.

(** One tick of a tween that has been started and is not complete. *)
Lemma tick_spec (this : Tween) (started now : R) :
  0 < duration this ->
  startTime this = Some started -> started <> 0 -> started <= now ->
  isComplete this = false ->
  let this' := tick this now in
  sameTween this' this /\ startTime this' = Some started /\
  updates this' = updates this ++ [valueAt this started now] /\
  (now - started < duration this ->
   isComplete this' = false /\ completions this' = completions this /\
   frameId this' = Some (S (AnimationFrameManager.lastHandle (window this))) /\
   AnimationFrameManager.pending (window this')
     !! S (AnimationFrameManager.lastHandle (window this)) =
     Some (AnimationFrameManager.Foreign tickCallback)) /\
  (duration this <= now - started ->
   isComplete this' = true /\ completions this' = S (completions this) /\
   frameId this' = frameId this /\ window this' = window this).
Proof.
  intros Hd Hs Hne Hle Hc. cbv zeta. unfold tick, valueAt.
  rewrite Hs, Hc. cbn [notStarted opt_num_or].
  destruct (Req_dec_T started 0) as [|_]; [contradiction|]. cbn [orb].
  rewrite (num_or_nonzero started 0 Hne). cbv zeta.
  destruct (progress_range (now - started) (duration this) Hd ltac:(lra))
    as (_ & Hlt & Hge).
  destruct (num_ge (Rmin ((now - started) / duration this) 1) 1) eqn:E.
  - apply num_ge_true in E.
    cbn [onComplete set_isComplete onUpdate from to duration easingFn
         startTime updates isComplete completions frameId window].
    split; [repeat split; reflexivity|]. split; [exact Hs|].
    split; [reflexivity|]. split.
    + intros H. specialize (Hlt H). lra.
    + intros _. repeat split; reflexivity.
  - apply num_ge_false in E.
    cbn [AnimationFrameManager.requestAnimationFrame set_frame onUpdate from
         to duration easingFn startTime updates isComplete completions frameId
         window AnimationFrameManager.pending].
    split; [repeat split; reflexivity|]. split; [exact Hs|].
    split; [reflexivity|]. split.
    + intros _. split; [exact Hc|]. split; [reflexivity|].
      split; [reflexivity|]. apply lookup_insert_eq.
    + intros H. specialize (Hge H). lra.
Qed.

Lemma valueAt_sameTween this that started now :
  sameTween this that -> valueAt this started now = valueAt that started now.
Proof.
  intros (H1 & H2 & H3 & H4). unfold valueAt. rewrite H1, H2, H3, H4.
  reflexivity.
Qed.

(** A tick that is delivered while the tween is under way. *)
Lemma nextTick_spec (this : Tween) (started now : R) :
  0 < duration this -> underWay this started -> started <= now ->
  let this' := nextTick this now in
  sameTween this' this /\
  updates this' = updates this ++ [valueAt this started now] /\
  (now - started < duration this ->
   underWay this' started /\ completions this' = completions this) /\
  (duration this <= now - started ->
   isComplete this' = true /\ completions this' = S (completions this) /\
   forall id, frameId this' = Some id ->
     AnimationFrameManager.pending (window this') !! id = None).
Proof.
  intros Hd (Hs & Hne & Hc & id & Hf & Hp) Hle. cbv zeta.
  unfold nextTick, deliver. rewrite Hf, Hp.
  set (this0 := set_frame this (Some id)
                  (AnimationFrameManager.cancelAnimationFrame (window this) id)).
  destruct (tick_spec this0 started now Hd Hs Hne Hle Hc)
    as (Hsame & Hs' & Hu & Hlt & Hge).
  split; [exact Hsame|]. split; [exact Hu|]. split.
  - intros H. destruct (Hlt H) as (Hc' & Hn & Hf' & Hp').
    split; [|exact Hn].
    split; [exact Hs'|]. split; [exact Hne|]. split; [exact Hc'|].
    eexists. split; [exact Hf' | exact Hp'].
  - intros H. destruct (Hge H) as (Hc' & Hn & Hf' & Hw').
    split; [exact Hc'|]. split; [exact Hn|].
    intros id' Hid. rewrite Hw'. rewrite Hf' in Hid.
    unfold this0 in *. cbn [set_frame frameId window] in *.
    injection Hid as <-.
    cbn [AnimationFrameManager.cancelAnimationFrame
         AnimationFrameManager.pending].
    apply lookup_delete_eq.
Qed.

(** The ticks delivered at the times of a list, one after the other. *)
Definition ticks (this : Tween) (times : list R) : Tween :=
  foldl nextTick this times.

Lemma ticks_underWay (times : list R) :
  forall (this : Tween) (started : R),
  0 < duration this -> underWay this started ->
  Forall (fun now => started <= now /\ now - started < duration this) times ->
  let this' := ticks this times in
  sameTween this' this /\ underWay this' started /\
  completions this' = completions this /\
  updates this' = updates this ++ map (valueAt this started) times.
Proof.
  induction times as [|now times IH]; intros this started Hd Hu Ht; cbv zeta.
  - cbn [ticks foldl map]. rewrite app_nil_r.
    split; [repeat split; reflexivity|]. split; [exact Hu|].
    split; reflexivity.
  - apply List.Forall_cons_iff in Ht as [[Hle Hlt] Ht].
    destruct (nextTick_spec this started now Hd Hu Hle)
      as (Hsame & Hupd & Hrun & _).
    destruct (Hrun Hlt) as [Hu' Hn'].
    pose proof Hsame as (S1 & S2 & S3 & S4).
    assert (Hd' : 0 < duration (nextTick this now)) by (rewrite S3; exact Hd).
    assert (Ht' : Forall (fun now0 => started <= now0 /\
                           now0 - started < duration (nextTick this now)) times)
      by (rewrite S3; exact Ht).
    destruct (IH (nextTick this now) started Hd' Hu' Ht')
      as (Hsame' & Hu'' & Hn'' & Hupd').
    change (ticks this (now :: times)) with (ticks (nextTick this now) times).
    split.
    { destruct Hsame' as (T1 & T2 & T3 & T4).
      repeat split; congruence. }
    split; [exact Hu''|]. split; [congruence|].
    rewrite Hupd', Hupd. cbn [map]. rewrite <- app_assoc. cbn [app].
    f_equal. f_equal.
    apply map_ext. intros t. apply valueAt_sameTween, Hsame.
Qed.

(** A tween that is started and gets its ticks runs to completion:
    [start] at a time that is not 0 and ticks at times within the
    duration each pass one value to [onUpdate] and ask for the next
    frame; the first tick at or after the end has a progress of 1,
    passes [lerp(from, to, easingFn(1))], calls [onComplete], once, and
    requests no further frame; after that [start] and a tick do
    nothing. *)
Theorem tween_runs_to_completion (this : Tween) (started first : R)
    (times : list R) (final : R) :
  0 < duration this ->
  isComplete this = false ->
  started <> 0 ->
  Forall (fun now => started <= now /\ now - started < duration this)
         (first :: times) ->
  duration this <= final - started ->
  let this' := nextTick (ticks (start this started first) times) final in
  isComplete this' = true /\
  completions this' = S (completions this) /\
  updates this' =
    updates this ++ map (valueAt this started) (first :: times) ++
    [lerp (from this) (to this) (easingFn this 1)] /\
  (forall id, frameId this' = Some id ->
     AnimationFrameManager.pending (window this') !! id = None) /\
  (forall now now', start this' now now' = this' /\ tick this' now = this').
Proof.
  intros Hd Hc Hne Ht Hfin. cbv zeta.
  apply List.Forall_cons_iff in Ht as [[Hle Hlt] Ht].
  (* start *)
  assert (Hstart : start this started first =
                   tick (set_startTime this (Some started)) first).
  { unfold start. rewrite Hc. reflexivity. }
  destruct (tick_spec (set_startTime this (Some started)) started first
              Hd eq_refl Hne Hle Hc) as (Hsame & Hs & Hu & Hrun & _).
  destruct (Hrun Hlt) as (Hc1 & Hn1 & Hf1 & Hp1).
  rewrite <- Hstart in *.
  assert (U1 : underWay (start this started first) started).
  { split; [exact Hs|]. split; [exact Hne|]. split; [exact Hc1|].
    eexists. split; [exact Hf1 | exact Hp1]. }
  pose proof Hsame as (S1 & S2 & S3 & S4).
  cbn [set_startTime from to duration easingFn] in S1, S2, S3, S4.
  assert (Hd1 : 0 < duration (start this started first))
    by (rewrite S3; exact Hd).
  assert (Ht1 : Forall (fun now => started <= now /\
                  now - started < duration (start this started first)) times)
    by (rewrite S3; exact Ht).
  destruct (ticks_underWay times _ started Hd1 U1 Ht1)
    as (Hsame2 & U2 & Hn2 & Hu2).
  pose proof Hsame2 as (T1 & T2 & T3 & T4).
  assert (Hd2 : 0 < duration (ticks (start this started first) times))
    by (rewrite T3; exact Hd1).
  assert (Hfin' : started <= final) by lra.
  destruct (nextTick_spec _ started final Hd2 U2 Hfin')
    as (Hsame3 & Hu3 & _ & Hend).
  destruct (Hend ltac:(rewrite T3, S3; exact Hfin)) as (Hc3 & Hn3 & Hp3).
  assert (Vsame : forall t, valueAt (start this started first) started t =
                            valueAt this started t).
  { intros t. unfold valueAt. rewrite S1, S2, S3, S4. reflexivity. }
  assert (Vfinal : valueAt (ticks (start this started first) times) started final
                   = lerp (from this) (to this) (easingFn this 1)).
  { unfold valueAt. rewrite T1, T2, T3, T4, S1, S2, S3, S4.
    destruct (progress_range (final - started) (duration this) Hd ltac:(lra))
      as (_ & _ & Hge). rewrite (Hge Hfin). reflexivity. }
  split; [exact Hc3|]. split; [rewrite Hn3, Hn2, Hn1; reflexivity|].
  split.
  { rewrite Hu3, Hu2, Hu, Vfinal, (map_ext _ _ Vsame).
    cbn [set_startTime updates map].
    rewrite <- !app_assoc. reflexivity. }
  split; [exact Hp3|].
  revert Hc3.
  generalize (nextTick (ticks (start this started first) times) final).
  intros done Hdone now now'. unfold start, tick.
  rewrite Hdone, orb_true_r. split; reflexivity.
Qed.

(** A tween from 0 to 100 in 300 ms with the default easing, started
    at time 1000, with ticks at 1000, 1100 and 1200 and a last one at
    1316. *)
Definition fade : Tween :=
  create 0 100 300 easing.easeOutQuad (AnimationFrameManager.mkWindow 0 ∅).

Lemma tween_runs_to_completion_witness :
  let this' := nextTick (ticks (start fade 1000 1000) [1100; 1200]) 1316 in
  isComplete this' = true /\ completions this' = 1%nat /\
  length (updates this') = 4%nat.
Proof.
  destruct (tween_runs_to_completion fade 1000 1000 [1100; 1200] 1316)
    as (H1 & H2 & H3 & _).
  - simpl. lra.
  - reflexivity.
  - lra.
  - simpl. repeat constructor; lra.
  - simpl. lra.
  - cbv zeta. split; [exact H1|]. split; [exact H2|]. rewrite H3. reflexivity.
Defined.

(** The values of a tween do not move back: with an easing function
    that is not negative and does not decrease on [0, 1], the value of
    a tick is on the side of [from] on which [to] lies, and the value
    of a later tick is at least as far on that side. *)
Theorem tween_values_do_not_move_back (this : Tween) (started now later : R) :
  (forall t, 0 <= t <= 1 -> 0 <= easingFn this t) ->
  (forall t u, 0 <= t -> t <= u -> u <= 1 ->
               easingFn this t <= easingFn this u) ->
  0 < duration this -> started <= now -> now <= later ->
  (from this <= to this ->
   from this <= valueAt this started now <= valueAt this started later) /\
  (to this <= from this ->
   valueAt this started later <= valueAt this started now <= from this).
Proof.
  intros Er Em Hd Hs Hl.
  destruct (progress_range (now - started) (duration this) Hd ltac:(lra))
    as (Hp & _).
  destruct (progress_range (later - started) (duration this) Hd ltac:(lra))
    as (Hp' & _).
  pose proof (progress_monotone (now - started) (later - started)
                (duration this) Hd ltac:(lra)) as Hm.
  pose proof (Er _ Hp) as He.
  pose proof (Em _ _ (proj1 Hp) Hm (proj2 Hp')) as Hee.
  unfold valueAt, lerp.
  set (e := easingFn this (Rmin ((now - started) / duration this) 1)) in *.
  set (e' := easingFn this (Rmin ((later - started) / duration this) 1)) in *.
  clearbody e e'.
  split; intros H; split; nra.
Qed.

Lemma tween_values_do_not_move_back_witness :
  0 <= valueAt fade 1000 1100 <= valueAt fade 1000 1200.
Proof.
  apply (tween_values_do_not_move_back fade 1000 1100 1200).
  - intros t Ht. simpl. unfold easing.easeOutQuad. nra.
  - intros t u H0 Htu Hu. simpl. unfold easing.easeOutQuad. nra.
  - simpl. lra.
  - lra.
  - lra.
  - simpl. lra.
Defined.

(** [stop] cancels the pending tick, so that the frame it was
    requested for calls nothing, and [stop] twice is [stop] once.
    [complete] passes [to] to [onUpdate] and calls [onComplete] at
    each call, complete or not; on a complete tween [start] and a tick
    do nothing.  A tween that was never started ignores a tick, and so
    does one started when [performance.now()] was 0. *)
Theorem tween_stop_and_complete (this : Tween) (started now now' : R) :
  underWay this started ->
  let stopped := stop this in
  (frameId stopped = None /\ stop stopped = stopped /\
   (forall id, frameId this = Some id ->
      deliver stopped id now = stopped) /\
   updates stopped = updates this /\ isComplete stopped = false) /\
  (let done := complete this in
   isComplete done = true /\
   updates done = updates this ++ [to this] /\
   completions done = S (completions this) /\
   start done now now' = done /\ tick done now = done /\
   updates (complete done) = updates this ++ [to this; to this] /\
   completions (complete done) = S (S (completions this))) /\
  tick (set_startTime this None) now = set_startTime this None /\
  tick (set_startTime this (Some 0)) now = set_startTime this (Some 0).
Proof.
  intros (Hs & Hne & Hc & id & Hf & Hp). cbv zeta.
  assert (Estop : stop this =
            set_frame this None
              (AnimationFrameManager.cancelAnimationFrame (window this) id)).
  { unfold stop. rewrite Hf. reflexivity. }
  split; [|split; [|split]].
  - rewrite Estop. split; [reflexivity|]. split; [reflexivity|].
    split; [|split; [reflexivity | exact Hc]].
    intros id' Hid. rewrite Hf in Hid. injection Hid as <-.
    unfold deliver. cbn [set_frame window AnimationFrameManager.pending
                         AnimationFrameManager.cancelAnimationFrame].
    rewrite lookup_delete_eq. reflexivity.
  - unfold complete. cbv zeta. rewrite Estop.
    split; [reflexivity|]. split; [reflexivity|]. split; [reflexivity|].
    split; [reflexivity|]. split.
    + unfold tick. cbn [isComplete onComplete onUpdate set_isComplete].
      rewrite orb_true_r. reflexivity.
    + cbn [stop frameId onComplete onUpdate set_isComplete set_frame updates
           completions to]. rewrite <- app_assoc. split; reflexivity.
  - reflexivity.
  - unfold tick. cbn [set_startTime startTime notStarted].
    destruct (Req_dec_T 0 0) as [_|H]; [reflexivity | contradiction].
Qed.

Lemma tween_stop_and_complete_witness :
  frameId (stop (start fade 1000 1000)) = None /\
  completions (complete (start fade 1000 1000)) = 1%nat.
Proof.
  destruct (tween_stop_and_complete (start fade 1000 1000) 1000 1100 1100)
    as ((H1 & _) & (_ & _ & H3 & _) & _).
  - destruct (tick_spec (set_startTime fade (Some 1000)) 1000 1000)
      as (_ & Hs & _ & Hrun & _); try (simpl; lra); try reflexivity.
    destruct Hrun as (Hc & _ & Hf & Hp); [simpl; lra|].
    assert (E : start fade 1000 1000 = tick (set_startTime fade (Some 1000)) 1000)
      by reflexivity.
    rewrite <- E in *.
    split; [exact Hs|]. split; [lra|]. split; [exact Hc|].
    eexists. split; [exact Hf | exact Hp].
  - split; [exact H1|]. rewrite H3.
    destruct (tick_spec (set_startTime fade (Some 1000)) 1000 1000)
      as (_ & _ & _ & Hrun & _); try (simpl; lra); try reflexivity.
    destruct Hrun as (_ & Hn & _); [simpl; lra|].
    assert (E : start fade 1000 1000 = tick (set_startTime fade (Some 1000)) 1000)
      by reflexivity.
    rewrite E, Hn. reflexivity.
Defined.

End Tween.

(* ================================================================== *)
(** * [throttle] of shared/utils/dom.ts *)
(* ================================================================== *)

(** The resize and the scroll handler of the animation are wrapped in
    [throttle].  The closure that [throttle] returns is embedded with
    its two variables; [Date.now()] is an argument, and the one timer
    that the closure may have pending is part of the state. *)
Module Throttle.

Section Throttle.

(** The arguments of a call, and the delay given to [throttle]. *)
Variable Args : Type.
Variable delay : R.

(** A timer set with [window.setTimeout]: the arguments that its
    callback passes on, and the time at which it is due. *)
Record Timer := mkTimer { timer_args : Args; timer_due : R }.

(** [timeoutId] is the pending timer, if there is one; [executions]
    lists the calls of [func], with the time of each. *)
Record State := mkState {
  timeoutId : option Timer;
  lastExecTime : R;
  executions : list (R * Args)
}.

Definition create : State := mkState None 0 [].

(** A call of the throttled function at [Date.now() = currentTime]. *)
Definition throttled (this : State) (currentTime : R) (args : Args) : State :=
  if num_gt (currentTime - lastExecTime this) delay
  then
    mkState (timeoutId this) currentTime
            (executions this ++ [(currentTime, args)])
  else
    (* clearTimeout(timeoutId); timeoutId = window.setTimeout(...) *)
    mkState (Some (mkTimer args
                     (currentTime + (delay - (currentTime - lastExecTime this)))))
            (lastExecTime this) (executions this).

(** The callback of the pending timer runs at [Date.now() = now]. *)
Definition timerCallback (this : State) (now : R) : State :=
  match timeoutId this with
  | Some timer =>
      mkState None now (executions this ++ [(now, timer_args timer)])
  | None => this
  end.

Inductive Event :=
  | Invoked (currentTime : R) (args : Args)
  | TimerFired (now : R).

Definition step (this : State) (e : Event) : State :=
  match e with
  | Invoked currentTime args => throttled this currentTime args
  | TimerFired now => timerCallback this now
  end.

Definition run (this : State) (events : list Event) : State :=
  foldl step this events.

Definition timeOf (e : Event) : R :=
  match e with
  | Invoked currentTime _ => currentTime
  | TimerFired now => now
  end.

(** The events come in the order of time, and the timer is on time: it
    runs when it is due or later, and before any call that comes after
    the time at which it is due. *)
Fixpoint punctual (this : State) (now : R) (events : list Event) : Prop :=
  match events with
  | [] => True
  | e :: events' =>
      now <= timeOf e /\
      match e, timeoutId this with
      | Invoked currentTime _, Some timer => currentTime <= timer_due timer
      | Invoked _ _, None => True
      | TimerFired now', Some timer => timer_due timer <= now'
      | TimerFired _, None => False
      end /\
      punctual (step this e) (timeOf e) events'
  end.

(** Any two executions that follow each other are at least [delay]
    apart. *)
Fixpoint spaced (last : R) (l : list (R * Args)) : Prop :=
  match l with
  | [] => True
  | (t, _) :: l' => last + delay <= t /\ spaced t l'
  end.

(** The time of the last execution, [last] if there is none. *)
Definition lastTime (last : R) (l : list (R * Args)) : R :=
  foldl (fun _ e => fst e) last l.

Lemma spaced_app last l t args :
  spaced last l -> lastTime last l + delay <= t ->
  spaced last (l ++ [(t, args)]).
Proof.
  revert last. induction l as [|[t0 a0] l IH]; intros last Hs Ht; simpl in *.
  - auto.
  - destruct Hs as [H1 H2]. split; [exact H1|]. apply IH; assumption.
Qed.

Lemma lastTime_app last l t args : lastTime last (l ++ [(t, args)]) = t.
Proof. unfold lastTime. rewrite foldl_app. reflexivity. Qed.

(** What holds between two events of a punctual run. *)
Definition wellTimed (first : R) (this : State) (now : R) : Prop :=
  lastExecTime this <= now /\
  lastTime first (executions this) = lastExecTime this /\
  spaced first (executions this) /\
  match timeoutId this with
  | Some timer => timer_due timer = lastExecTime this + delay
  | None => True
  end.

Lemma wellTimed_step first this now e :
  0 <= delay ->
  wellTimed first this now ->
  now <= timeOf e ->
  match e, timeoutId this with
  | Invoked currentTime _, Some timer => currentTime <= timer_due timer
  | Invoked _ _, None => True
  | TimerFired now', Some timer => timer_due timer <= now'
  | TimerFired _, None => False
  end ->
  wellTimed first (step this e) (timeOf e).
Proof.
  intros Hd (Hle & Hlast & Hsp & Htm) Hnow Hp.
  destruct e as [t args | t]; cbn [step timeOf] in *.
  - unfold throttled. destruct (num_gt (t - lastExecTime this) delay) eqn:E.
    + apply num_gt_true in E.
      destruct (timeoutId this) as [tm|] eqn:Et.
      * exfalso. lra.
      * unfold wellTimed. cbn [lastExecTime executions timeoutId].
        rewrite lastTime_app.
        split; [lra|]. split; [reflexivity|]. split; [|exact I].
        apply spaced_app; [exact Hsp | lra].
    + apply num_gt_false in E.
      unfold wellTimed. cbn [lastExecTime executions timeoutId timer_due].
      split; [lra|]. split; [exact Hlast|]. split; [exact Hsp | ring].
  - unfold timerCallback. destruct (timeoutId this) as [tm|] eqn:Et; [|contradiction].
    unfold wellTimed. cbn [lastExecTime executions timeoutId].
    rewrite lastTime_app.
    split; [lra|]. split; [reflexivity|]. split; [|exact I].
    apply spaced_app; [exact Hsp | lra].
Qed.

Lemma wellTimed_run first events :
  0 <= delay ->
  forall this now,
  wellTimed first this now -> punctual this now events ->
  spaced first (executions (run this events)).
Proof.
  intros Hd. induction events as [|e events IH]; intros this now Hw Hp.
  - apply Hw.
  - cbn [punctual] in Hp. destruct Hp as (Hnow & Hok & Hrest).
    change (run this (e :: events)) with (run (step this e) events).
    apply (IH _ (timeOf e)); [|exact Hrest].
    apply (wellTimed_step first this now e Hd Hw Hnow Hok).
Qed.

(** With a timer that is on time, two executions of the throttled
    function that follow each other are at least [delay] apart, and the
    first one comes later than [delay] after time 0. *)
Theorem throttle_spacing (events : list Event) :
  0 <= delay ->
  punctual create 0 events ->
  spaced 0 (executions (run create events)).
Proof.
  intros Hd Hp. apply (wellTimed_run 0 events Hd create 0); [|exact Hp].
  unfold wellTimed, create. cbn. repeat split; lra.
Qed.

(** A call that comes too early is not lost: it sets the timer, with
    its arguments, for the end of the delay, in place of the timer of
    an earlier call; when the timer runs, the function is executed
    once, with the arguments of the last of these calls. *)
Theorem throttle_trailing_call (this : State) (early : list (R * Args))
    (currentTime : R) (args : Args) (now : R) :
  Forall (fun c => fst c - lastExecTime this <= delay)
         (early ++ [(currentTime, args)]) ->
  let calls := map (fun c => Invoked (fst c) (snd c))
                   (early ++ [(currentTime, args)]) in
  let waiting := run this calls in
  executions waiting = executions this /\
  lastExecTime waiting = lastExecTime this /\
  timeoutId waiting = Some (mkTimer args (lastExecTime this + delay)) /\
  executions (timerCallback waiting now) = executions this ++ [(now, args)] /\
  timeoutId (timerCallback waiting now) = None /\
  timerCallback (timerCallback waiting now) now = timerCallback waiting now.
Proof.
  intros Hf. cbv zeta.
  assert (H : forall l this0,
    Forall (fun c => fst c - lastExecTime this0 <= delay) l ->
    executions (run this0 (map (fun c => Invoked (fst c) (snd c)) l))
      = executions this0 /\
    lastExecTime (run this0 (map (fun c => Invoked (fst c) (snd c)) l))
      = lastExecTime this0 /\
    timeoutId (run this0 (map (fun c => Invoked (fst c) (snd c)) l)) =
      match last l with
      | Some c => Some (mkTimer (snd c) (lastExecTime this0 + delay))
      | None => timeoutId this0
      end).
  { induction l as [|c l IH]; intros this0 Hl.
    - repeat split; reflexivity.
    - apply List.Forall_cons_iff in Hl as [Hc Hl].
      cbn [map]. change (run this0 (Invoked (fst c) (snd c) :: ?r))
        with (run (throttled this0 (fst c) (snd c)) r).
      assert (Et : throttled this0 (fst c) (snd c) =
                   mkState (Some (mkTimer (snd c) (lastExecTime this0 + delay)))
                           (lastExecTime this0) (executions this0)).
      { unfold throttled.
        rewrite (proj2 (num_gt_false _ _) Hc). f_equal. f_equal. f_equal. ring. }
      rewrite Et.
      destruct (IH (mkState (Some (mkTimer (snd c) (lastExecTime this0 + delay)))
                            (lastExecTime this0) (executions this0)) Hl)
        as (E1 & E2 & E3).
      rewrite E1, E2, E3. cbn [executions lastExecTime timeoutId].
      split; [reflexivity|]. split; [reflexivity|].
      destruct l as [|c' l']; [reflexivity|].
      change (last (c :: c' :: l')) with (last (c' :: l')).
      destruct (last (c' :: l')) eqn:El; [reflexivity|].
      apply last_None in El. discriminate. }
  destruct (H _ this Hf) as (E1 & E2 & E3).
  rewrite last_snoc in E3. cbn [snd] in E3.
  split; [exact E1|]. split; [exact E2|]. split; [exact E3|].
  assert (Et : timerCallback
                 (run this (map (fun c => Invoked (fst c) (snd c))
                                (early ++ [(currentTime, args)]))) now =
               mkState None now (executions this ++ [(now, args)])).
  { unfold timerCallback. rewrite E3, E1. reflexivity. }
  rewrite Et. repeat split; reflexivity.
Qed.

(** A timer that is late is not cancelled by the call that is executed
    at once: a call later than [delay] after the last execution runs
    the function and leaves the pending timer in place, so that the
    timer then runs the function again, with the arguments of the
    earlier call and however short the time since the execution. *)
Theorem throttle_late_timer (this : State) (timer : Timer) (currentTime : R)
    (args : Args) (now : R) :
  timeoutId this = Some timer ->
  delay < currentTime - lastExecTime this ->
  let direct := throttled this currentTime args in
  executions direct = executions this ++ [(currentTime, args)] /\
  timeoutId direct = Some timer /\
  executions (timerCallback direct now) =
    executions this ++ [(currentTime, args); (now, timer_args timer)].
Proof.
  intros Ht Hlate. cbv zeta. unfold throttled.
  rewrite (proj2 (num_gt_true _ _) Hlate).
  split; [reflexivity|]. split; [exact Ht|].
  unfold timerCallback. cbn [timeoutId executions]. rewrite Ht.
  cbn [executions]. rewrite <- app_assoc. reflexivity.
Qed.

End Throttle.

Arguments Invoked {Args}.
Arguments TimerFired {Args}.
Arguments mkTimer {Args}.
Arguments mkState {Args}.
Arguments create {Args}.
Arguments timeoutId {Args}.
Arguments executions {Args}.
Arguments lastExecTime {Args}.

(** The resize handler, throttled to 100 ms: a call that is executed,
    two calls within the delay, the timer, and a call after it. *)
Definition resizes : list (Event nat) :=
  [Invoked 1000 1%nat; Invoked 1030 2%nat; Invoked 1060 3%nat;
   TimerFired 1100; Invoked 1250 4%nat].

Lemma throttle_spacing_witness :
  spaced nat 100 0 (executions (run nat 100 create resizes)).
Proof.
  apply (throttle_spacing nat 100 resizes); [lra|].
  unfold resizes, punctual, step, throttled, timerCallback, create, timeOf.
  cbn [timeoutId lastExecTime executions].
  repeat (num_decide; cbn [timeoutId lastExecTime executions timer_due]).
  repeat split; lra.
Defined.

Lemma throttle_trailing_call_witness :
  let waiting := run nat 100 (throttled nat 100 create 1000 1%nat)
                     [Invoked 1030 2%nat; Invoked 1060 3%nat] in
  executions (timerCallback nat waiting 1100) = [(1000, 1%nat); (1100, 3%nat)].
Proof.
  assert (E : throttled nat 100 create 1000 1%nat =
              mkState None 1000 [(1000, 1%nat)]).
  { unfold throttled, create. cbn [lastExecTime]. num_decide. reflexivity. }
  rewrite E.
  destruct (throttle_trailing_call nat 100 (mkState None 1000 [(1000, 1%nat)])
              [(1030, 2%nat)] 1060 3%nat 1100) as (_ & _ & _ & H & _).
  - cbn [app lastExecTime].
    repeat first [apply List.Forall_cons | apply List.Forall_nil];
      cbn [fst]; lra.
  - exact H.
Defined.

Lemma throttle_late_timer_witness :
  let waiting := mkState (Some (mkTimer 2%nat 1100)) 1000 [(1000, 1%nat)] in
  executions (timerCallback nat (throttled nat 100 waiting 1250 3%nat) 1250) =
  [(1000, 1%nat); (1250, 3%nat); (1250, 2%nat)].
Proof.
  apply (throttle_late_timer nat 100
           (mkState (Some (mkTimer 2%nat 1100)) 1000 [(1000, 1%nat)])
           (mkTimer 2%nat 1100) 1250 3%nat 1250).
  - reflexivity.
  - cbn [lastExecTime]. lra.
Defined.

End Throttle.
